(** * go-config: typed, hierarchical access to a JSON configuration

    A shallow embedding of [github.com/Darkren/go-config]:

    - [json/json.go]         the implementation that can be watched
                             ([Module Json]);
    - [config/json/json.go]  the earlier implementation, without key checks,
                             locks or watching ([Module LegacyJson]);
    - [json/json.go], second text: the revision between the two, with the key
                             check in the section calls only ([Module JsonV1]).

    The Go map [map[string]*json.RawMessage] is a [gmap string (option string)]:
    a key may be absent, or present with a nil pointer ([None]), or present
    with the raw bytes of its value.  Go strings and byte slices are Rocq
    strings (one [ascii] per byte).  A call either returns its value, or
    returns a non-nil [error], or panics: that is the type [outcome]. *)

From Stdlib Require Import ZArith String Ascii List Bool Lia SpecFloat.
From stdpp Require Import base option gmap strings list.

Local Open Scope string_scope.
Local Open Scope Z_scope.

(** ** Errors, panics and the outcome of a call *)

(** The [error] values the package can return.  [Errorf] is an error made by
    [fmt.Errorf]; its argument is the formatted message. *)
Inductive error : Type :=
| ErrAlreadyBeingWatched                      (* errors.New("config is already being watched") *)
| ErrNotBeingWatched                          (* errors.New("config is not being watched") *)
| Errorf (msg : string)                       (* fmt.Errorf(...) *)
| SyntaxError                                 (* *json.SyntaxError; message and offset not modelled *)
| UnmarshalTypeError (value type : string)    (* *json.UnmarshalTypeError *)
| ParseError (layout value msg : string)      (* *time.ParseError *)
| DurationError (msg : string)                (* errors.New from time.ParseDuration *)
| OSError (msg : string).                     (* from ioutil.ReadFile, fsnotify *)

#[global] Instance error_eq_dec : EqDecision error.
Proof. solve_decision. Defined.

(** The ways a call ends without returning: run-time panics, the fatal
    error of the run-time for a misused mutex, and a call that waits for
    ever for a lock that nobody releases. *)
Inductive panic : Type :=
| NilDereference            (* invalid memory address or nil pointer dereference *)
| CloseOfNilChannel         (* close of nil channel *)
| PanicError (e : error)    (* panic(err) *)
| UnlockOfUnlocked          (* fatal error: sync: RUnlock of unlocked RWMutex *)
| Blocked.                  (* the call never returns: RLock on a mutex that stays write-locked *)

Inductive outcome (A : Type) : Type :=
| Ret (a : A)
| Fail (e : error)
| Panic (p : panic).
Arguments Ret {A} a.
Arguments Fail {A} e.
Arguments Panic {A} p.

Definition is_Ret {A} (o : outcome A) : bool :=
  match o with Ret _ => true | _ => false end.

(** The result of a library call that returns [(value, error)]. *)
Definition result (A : Type) : Type := error + A.

(** ** The collaborators

    [encoding/json] and [time] are used as black boxes.  [unmarshal_map] is
    [json.Unmarshal(data, &m)] for a nil [m] of type
    [map[string]*json.RawMessage]; the others decode one raw value into a
    fresh variable of the given type. *)

Record Time : Type := Date { Year : Z; Month : Z; Day : Z }.

Class Decoder : Type := {
  unmarshal_map : string → result (gmap string (option string));
  unmarshal_string : string → result string;
  unmarshal_int : string → result Z;
  unmarshal_uint64 : string → result Z;
  unmarshal_bool : string → result bool;
  unmarshal_string_slice : string → result (list string);
  time_Parse : string → string → result Time;
  time_ParseDuration : string → result Z
}.

(** ** Programs over a shared document

    An accessor is a sequence of operations on the handle: taking and
    releasing the read side of [c.mut], and loading the field [c.c].  Every
    textual occurrence of [c.c] in the source is one [LoadC].  [CopyC] is
    the copy of the whole struct that a call of a method with a value
    receiver makes, [func (c Config) ...]: the continuation gets the copy
    of the field [c.c] and whether the copy of [c.mut], a [sync.RWMutex]
    copied by value with its state, is closed to readers. *)

Inductive prog (A : Type) : Type :=
| Done (o : outcome A)
| RLock (k : prog A)
| RUnlock (k : prog A)
| LoadC (k : gmap string (option string) → prog A)
| CopyC (k : bool → gmap string (option string) → prog A).
Arguments Done {A} o.
Arguments RLock {A} k.
Arguments RUnlock {A} k.
Arguments LoadC {A} k.
Arguments CopyC {A} k.

Fixpoint prog_bind {A B} (f : A → prog B) (p : prog A) : prog B :=
  match p with
  | Done (Ret a) => f a
  | Done (Fail e) => Done (Fail e)
  | Done (Panic x) => Done (Panic x)
  | RLock k => RLock (prog_bind f k)
  | RUnlock k => RUnlock (prog_bind f k)
  | LoadC k => LoadC (λ c, prog_bind f (k c))
  | CopyC k => CopyC (λ locked c, prog_bind f (k locked c))
  end.

#[global] Instance prog_mret : MRet prog := λ A a, Done (Ret a).
#[global] Instance prog_mbind : MBind prog := λ A B f p, prog_bind f p.

Definition fail {A} (e : error) : prog A := Done (Fail e).
Definition rlock : prog unit := RLock (Done (Ret tt)).
Definition runlock : prog unit := RUnlock (Done (Ret tt)).
Definition load_c : prog (gmap string (option string)) := LoadC (λ c, Done (Ret c)).

(** [c.c[key]]: the value stored under [key], or the zero value (a nil
    pointer) when the key is absent. *)
Definition index (c : gmap string (option string)) (key : string) : option string :=
  default None (c !! key).

(** [_, ok := c.c[key]]. *)
Definition has_key (c : gmap string (option string)) (key : string) : bool :=
  bool_decide (is_Some (c !! key)).

(** [*p] for a pointer [p]. *)
Definition deref {A} (p : option string) (k : string → prog A) : prog A :=
  match p with
  | Some raw => k raw
  | None => Done (Panic NilDereference)
  end.

(** [value, err := f(); if err != nil { return defaultVal }; return value]. *)
Fixpoint or_default {A} (p : prog A) (defaultVal : A) : prog A :=
  match p with
  | Done (Ret a) => Done (Ret a)
  | Done (Fail _) => Done (Ret defaultVal)
  | Done (Panic x) => Done (Panic x)
  | RLock k => RLock (or_default k defaultVal)
  | RUnlock k => RUnlock (or_default k defaultVal)
  | LoadC k => LoadC (λ c, or_default (k c) defaultVal)
  | CopyC k => CopyC (λ locked c, or_default (k locked c) defaultVal)
  end.

(** [value, err := f(); if err != nil { panic(err) }; return value]. *)
Fixpoint or_panic {A} (p : prog A) : prog A :=
  match p with
  | Done (Ret a) => Done (Ret a)
  | Done (Fail e) => Done (Panic (PanicError e))
  | Done (Panic x) => Done (Panic x)
  | RLock k => RLock (or_panic k)
  | RUnlock k => RUnlock (or_panic k)
  | LoadC k => LoadC (λ c, or_panic (k c))
  | CopyC k => CopyC (λ locked c, or_panic (k locked c))
  end.

(** Running a program alone on a document that nobody replaces. *)
Fixpoint run {A} (p : prog A) (c : gmap string (option string)) : outcome A :=
  match p with
  | Done o => o
  | RLock k => run k c
  | RUnlock k => run k c
  | LoadC k => run (k c) c
  | CopyC k => run (k false c) c
  end.

(** Running a method on a copy of the handle whose mutex was copied closed
    to readers.  Nothing ever opens the copy's mutex, since the listener
    unlocks the handle's: [RLock] waits for ever.  [RUnlock] with no read
    lock of the copy held is the fatal error of [sync.RWMutex]. *)
Fixpoint run_locked {A} (p : prog A) (c0 : gmap string (option string)) : outcome A :=
  match p with
  | Done o => o
  | RLock _ => Panic Blocked
  | RUnlock _ => Panic UnlockOfUnlocked
  | LoadC k => run_locked (k c0) c0
  | CopyC k => run_locked (k true c0) c0
  end.

(** A method with a value receiver, [func (c Config) ...], works on a copy
    of the handle: the caller copies the struct without the lock, the field
    [c.c] and the mutex [c.mut] with it, and the mutex the method locks is
    the copy's, not the handle's. *)
Definition on_copy {A} (p : prog A) : prog A :=
  CopyC (λ locked c0, Done (if locked then run_locked p c0 else run p c0)).

(** The three cases of a lookup that dereferences what it finds. *)
Definition lookup_outcome {A} (c : gmap string (option string)) (key : string)
    (absent : outcome A) (found : string → outcome A) : outcome A :=
  match c !! key with
  | None => absent
  | Some None => Panic NilDereference
  | Some (Some raw) => found raw
  end.

Definition is_inr {A} (r : result A) : bool :=
  match r with inr _ => true | inl _ => false end.

Definition decoded {A} (r : result A) : outcome A :=
  match r with
  | inl err => Fail err
  | inr v => Ret v
  end.

(** Running a program while the listener reloads the document.  Before
    every operation of the program the listener may take a turn, given by
    the next entry of [reloads]: [Some newData] is its critical section
<<
    c.mut.Lock(); c.c = newData; c.mut.Unlock()
>>
    which gets the lock only while no reader holds it ([readers] counts the
    read locks this program holds); otherwise the listener stays blocked in
    [Lock] for that turn.

    The copy of the struct, [CopyC], is not one operation: after the turn
    before it, the listener may be in [Lock] or inside its critical section
    while the fields are copied, which the next entry of [reloads] tells.
    [sync.RWMutex.Lock] closes the mutex to new readers from its first
    instruction on (it makes [readerCount] negative, also while it still
    waits for the readers to leave) until [Unlock]: a copy taken then is
    closed to readers, and it holds the document as it is before the
    store. *)
Fixpoint run_during {A} (p : prog A) (reloads : list (option (gmap string (option string))))
    (readers : nat) (c : gmap string (option string)) : outcome A :=
  let c' :=
    match reloads with
    | Some newData :: _ => if bool_decide (readers = O) then newData else c
    | _ => c
    end in
  let rest := tail reloads in
  match p with
  | Done o => o
  | RLock k => run_during k rest (S readers) c'
  | RUnlock k => run_during k rest (pred readers) c'
  | LoadC k => run_during (k c') rest readers c'
  | CopyC k =>
      match rest with
      | Some newData :: rest' =>
          run_during (k true c') rest' readers
            (if bool_decide (readers = O) then newData else c')
      | _ => run_during (k false c') (tail rest) readers c'
      end
  end.

(** The documents a program can see during a run: the one it starts with
    and those the listener stores. *)
Definition documents (c : gmap string (option string))
    (reloads : list (option (gmap string (option string))))
    : list (gmap string (option string)) :=
  c :: omap id reloads.

(** The read locks a program holds when it ends, entered with [readers] of
    them and run alone on [c]; [None] when it calls [RUnlock] with no read
    lock held, which the run-time reports as a fatal error. *)
Fixpoint locks_after {A} (p : prog A) (c : gmap string (option string))
    (readers : nat) : option nat :=
  match p with
  | Done _ => Some readers
  | RLock k => locks_after k c (S readers)
  | RUnlock k =>
      match readers with
      | O => None
      | S n => locks_after k c n
      end
  | LoadC k => locks_after (k c) c readers
  | CopyC k => locks_after (k false c) c readers
  end.

(** The lock discipline: [held p] says that [p], entered with the read lock
    taken, loads [c.c] only before it releases the lock; [guarded p] says
    that [p] takes the read lock before it first loads [c.c], and is [held]
    from there. *)
Inductive no_load {A} : prog A → Prop :=
| no_load_Done o : no_load (Done o)
| no_load_RUnlock k : no_load k → no_load (RUnlock k).

Inductive held {A} : prog A → Prop :=
| held_Done o : held (Done o)
| held_LoadC k : (∀ c, held (k c)) → held (LoadC k)
| held_RUnlock k : no_load k → held (RUnlock k).

Inductive guarded {A} : prog A → Prop :=
| guarded_RLock k : held k → guarded (RLock k).

(** ** The configuration handle of [json/json.go] *)

Module Json.

(** [type Config struct].  [mut] is represented by the operations [RLock] and
    [RUnlock] of [prog]; [watcher] and [watchC] are nil ([None]) or the
    identifier of a watcher, respectively of a channel. *)
Record Config : Type := mkConfig {
  c : gmap string (option string);
  filePath : string;
  isBeingWatched : Z;
  watcher : option nat;
  watchC : option nat
}.

(** [Config{}] with the field [c] set. *)
Definition configOf (m : gmap string (option string)) : Config :=
  {| c := m; filePath := ""; isBeingWatched := 0; watcher := None; watchC := None |}.

Definition keyNotFound (key : string) : error :=
  Errorf ("key " +:+ key +:+ " was not found in the config").

Definition sectionNotPresent (key : string) : error :=
  Errorf ("section " +:+ key +:+ " not present in config").

Section WithDecoder.
Context `{Decoder}.

(** [func newConf(jsonData []byte) (config.Config, error)]. *)
Definition newConf (jsonData : string) : result Config :=
  match unmarshal_map jsonData with
  | inl err => inl err
  | inr m => inr (configOf m)
  end.

(** [func New(jsonStr string) (config.Config, error)]. *)
Definition New (jsonStr : string) : result Config := newConf jsonStr.

(** [func Load(filePath string) (config.Config, error)]; [readFile] is
    [ioutil.ReadFile]. *)
Definition Load (readFile : string → result string) (path : string) : result Config :=
  match readFile path with
  | inl err => inl err
  | inr data =>
      match unmarshal_map data with
      | inl err => inl err
      | inr m =>
          inr {| c := m; filePath := path; isBeingWatched := 0;
                 watcher := None; watchC := None |}
      end
  end.

(** The common body of [getBool], [getString], [getInt], [getUint64] and
    [getStringSlice]:
<<
    c.mut.RLock()
    if _, ok := c.c[key]; !ok {
        c.mut.RUnlock()
        return zero, fmt.Errorf("key %s was not found in the config", key)
    }
    if err := json.Unmarshal( *(c.c[key]), &value); err != nil {
        c.mut.RUnlock()
        return zero, err
    }
    c.mut.RUnlock()
    return value, nil
>> *)
Definition getValue {A} (unmarshal : string → result A) (key : string) : prog A :=
  rlock;;
  c1 ← load_c;
  if negb (has_key c1 key) then
    runlock;; fail (keyNotFound key)
  else
    c2 ← load_c;
    deref (index c2 key) (λ raw,
      match unmarshal raw with
      | inl err => runlock;; fail err
      | inr value => runlock;; mret value
      end).

Definition getBool : string → prog bool := getValue unmarshal_bool.
Definition getString : string → prog string := getValue unmarshal_string.
Definition getInt : string → prog Z := getValue unmarshal_int.
Definition getUint64 : string → prog Z := getValue unmarshal_uint64.
Definition getStringSlice : string → prog (list string) := getValue unmarshal_string_slice.

(** [func (c *Config) getTime(key string) (time.Time, error)]. *)
Definition getTime (key : string) : prog Time :=
  valueStr ← getString key;
  match time_Parse "2.1.2006" valueStr with
  | inl err => fail err
  | inr value => mret value
  end.

(** [func (c *Config) getDuration(key string) (time.Duration, error)]. *)
Definition getDuration (key : string) : prog Z :=
  valueStr ← getString key;
  match time_ParseDuration valueStr with
  | inl err => fail err
  | inr value => mret value
  end.

Definition GetString (key defaultVal : string) : prog string :=
  or_default (getString key) defaultVal.
Definition MustGetString (key : string) : prog string := or_panic (getString key).
Definition GetInt (key : string) (defaultVal : Z) : prog Z :=
  or_default (getInt key) defaultVal.
Definition MustGetInt (key : string) : prog Z := or_panic (getInt key).
Definition GetUint64 (key : string) (defaultVal : Z) : prog Z :=
  or_default (getUint64 key) defaultVal.
Definition MustGetUint64 (key : string) : prog Z := or_panic (getUint64 key).
Definition GetTime (key : string) (defaultVal : Time) : prog Time :=
  or_default (getTime key) defaultVal.
(** [func (c Config) MustGetTime(key string) time.Time], the one method of
    this file with a value receiver. *)
Definition MustGetTime (key : string) : prog Time := on_copy (or_panic (getTime key)).
Definition GetDuration (key : string) (defaultVal : Z) : prog Z :=
  or_default (getDuration key) defaultVal.
Definition MustGetDuration (key : string) : prog Z := or_panic (getDuration key).
Definition GetStringSlice (key : string) (defaultVal : list string) : prog (list string) :=
  or_default (getStringSlice key) defaultVal.
Definition MustGetStringSlice (key : string) : prog (list string) :=
  or_panic (getStringSlice key).
Definition GetBool (key : string) (defaultVal : bool) : prog bool :=
  or_default (getBool key) defaultVal.
Definition MustGetBool (key : string) : prog bool := or_panic (getBool key).

(** [func (c *Config) Section(key string) (config.Config, error)]. *)
Definition Section (key : string) : prog Config :=
  c1 ← load_c;
  if negb (has_key c1 key) then
    fail (sectionNotPresent key)
  else
    c2 ← load_c;
    deref (index c2 key) (λ raw,
      match unmarshal_map raw with
      | inl err => fail err
      | inr m => mret (configOf m)
      end).

(** [func (c *Config) UnmarshalSection(key string, dest interface{}) error];
    [unmarshal] is [json.Unmarshal(_, dest)] for the caller's [dest]. *)
Definition UnmarshalSection {A} (unmarshal : string → result A) (key : string) : prog A :=
  c1 ← load_c;
  if negb (has_key c1 key) then
    fail (sectionNotPresent key)
  else
    c2 ← load_c;
    deref (index c2 key) (λ raw,
      match unmarshal raw with
      | inl err => fail err
      | inr v => mret v
      end).

(** [func (c *Config) SectionAsJSON(key string) (string, error)]. *)
Definition SectionAsJSON (key : string) : prog string :=
  rlock;;
  c1 ← load_c;
  if negb (has_key c1 key) then
    runlock;; fail (sectionNotPresent key)
  else
    runlock;;
    deref (index c1 key) (λ raw, mret raw).

(** *** Watching

    The world outside the handle: the watchers of [fsnotify] and the
    channels that are open, and the listeners started with [go], each with
    the watcher and the channel it captured.  A watcher or a channel is
    named by a number; [nextId] is the next unused one.  No call ends a
    listener: what becomes of one is told by its own states, below. *)
Record World : Type := mkWorld {
  nextId : nat;
  openWatchers : list nat;
  openChans : list nat;
  listeners : list (nat * nat)
}.

Definition setWatching (h : Config) (flag : Z) : Config :=
  {| c := c h; filePath := filePath h; isBeingWatched := flag;
     watcher := watcher h; watchC := watchC h |}.

Definition setWatcher (h : Config) (w ch : option nat) : Config :=
  {| c := c h; filePath := filePath h; isBeingWatched := isBeingWatched h;
     watcher := w; watchC := ch |}.

(** [make(chan struct{})]. *)
Definition makeChan (w : World) : nat * World :=
  (nextId w,
   {| nextId := S (nextId w); openWatchers := openWatchers w;
      openChans := nextId w :: openChans w; listeners := listeners w |}).

(** A successful [fsnotify.NewWatcher()]. *)
Definition newWatcher (w : World) : nat * World :=
  (nextId w,
   {| nextId := S (nextId w); openWatchers := nextId w :: openWatchers w;
      openChans := openChans w; listeners := listeners w |}).

(** [go func() { ... }()] for the listener over [wid] and [ch]. *)
Definition spawn (wid ch : nat) (w : World) : World :=
  {| nextId := nextId w; openWatchers := openWatchers w;
     openChans := openChans w; listeners := (wid, ch) :: listeners w |}.

Definition remove (x : nat) (l : list nat) : list nat :=
  filter (λ y, y ≠ x) l.

(** [watcher.Close()]: the watcher is open no longer.  Its channel
    [watcher.Events] is closed with it, which the listener finds at its
    next receive from it (the tick [EventsClosed] below). *)
Definition closeWatcher (wid : nat) (w : World) : World :=
  {| nextId := nextId w; openWatchers := remove wid (openWatchers w);
     openChans := openChans w; listeners := listeners w |}.

(** [close(ch)]. *)
Definition closeChan (ch : nat) (w : World) : World :=
  {| nextId := nextId w; openWatchers := openWatchers w;
     openChans := remove ch (openChans w); listeners := listeners w |}.

(** [func (c *Config) Watch() (<-chan struct{}, error)].  [newWatcherErr]
    is the error of [fsnotify.NewWatcher()], if it fails.  The
    compare-and-swap is one atomic step, so calls on one handle are
    sequences of whole calls up to the return. *)
Definition Watch (newWatcherErr : option error) (h : Config) (w : World)
    : outcome nat * Config * World :=
  if isBeingWatched h =? 0 then
    let h1 := setWatching h 1 in
    let '(watchC, w1) := makeChan w in
    match newWatcherErr with
    | Some err => (Fail err, h1, w1)
    | None =>
        let '(wid, w2) := newWatcher w1 in
        let h2 := setWatcher h1 (Some wid) (Some watchC) in
        (Ret watchC, h2, spawn wid watchC w2)
    end
  else (Fail ErrAlreadyBeingWatched, h, w).

(** [func (c *Config) StopWatching() error].  [closeErr] is the error of
    [c.watcher.Close()], if any.  [Close] on a nil watcher dereferences it,
    and [close] of a nil channel panics; both happen after the flag has been
    reset.  What the listener does during the sleep of half a second
    between the two is told by [stepStop] below. *)
Definition StopWatching (closeErr : option error) (h : Config) (w : World)
    : outcome unit * Config * World :=
  if isBeingWatched h =? 1 then
    let h1 := setWatching h 0 in
    match watcher h1 with
    | None => (Panic NilDereference, h1, w)
    | Some wid =>
        let w1 := closeWatcher wid w in
        match watchC h1 with
        | None => (Panic CloseOfNilChannel, h1, w1)
        | Some ch =>
            let w2 := closeChan ch w1 in
            let h2 := setWatcher h1 None None in
            (match closeErr with Some err => Fail err | None => Ret tt end, h2, w2)
        end
    end
  else (Fail ErrNotBeingWatched, h, w).

(** [n] rounds of [Watch()] then [StopWatching()] in which the library
    calls succeed: the outcomes of all the calls, and the final state. *)
Fixpoint cycles (n : nat) (h : Config) (w : World)
    : list (outcome nat) * list (outcome unit) * Config * World :=
  match n with
  | O => ([], [], h, w)
  | S n =>
      let '(o1, h1, w1) := Watch None h w in
      let '(o2, h2, w2) := StopWatching None h1 w1 in
      let '(os1, os2, h3, w3) := cycles n h2 w2 in
      (o1 :: os1, o2 :: os2, h3, w3)
  end.

(** The identifiers in use are below [nextId]. *)
Definition idsBelow (w : World) : Prop :=
  Forall (λ x, (x < nextId w)%nat) (openWatchers w) ∧
  Forall (λ x, (x < nextId w)%nat) (openChans w).

(** The handle as [Load] or [Section] makes it, or [StopWatching] leaves it. *)
Definition idle (h : Config) : Prop :=
  isBeingWatched h = 0 ∧ watcher h = None ∧ watchC h = None.

(** *** The listener

    The goroutine started by [Watch].  It waits in the [select] over
    [watcher.Events] and [watcher.Errors]; after an event that was not
    skipped with [continue] it waits in the receive [<-watcher.Events], and
    then in the send [watchC <- struct{}{}]. *)
Inductive pc : Type := AtSelect | AtDrain | AtSend | Exited.

#[global] Instance pc_eq_dec : EqDecision pc.
Proof. solve_decision. Defined.

(** What the outside does: [watcher.Events] delivers an event with the bits
    [op] (and [ioutil.ReadFile(c.filePath)] would then return [read]), or is
    closed; [watcher.Errors] delivers an error, or is closed; the receiver of
    [watchC] takes the value being sent. *)
Inductive tick : Type :=
| Event (op : Z) (read : result string)
| EventsClosed
| ErrorReceived (err : error)
| ErrorsClosed
| Taken.

(** What the listener does that others can see. *)
Inductive effect : Type :=
| Log (msg : string) (err : error)
| Lock
| Store (newData : gmap string (option string))
| Unlock
| Notify.

#[global] Instance effect_eq_dec : EqDecision effect.
Proof. solve_decision. Defined.

Record Listener : Type := mkListener {
  doc : gmap string (option string);
  at_pc : pc;
  effects : list effect
}.

(** [fsnotify.Write]. *)
Definition Write : Z := 2.

Definition goto (l : Listener) (p : pc) (es : list effect) : Listener :=
  {| doc := doc l; at_pc := p; effects := effects l ++ es |}.

(** One iteration of the loop, at the place where the listener waits.  A
    tick for which it is not waiting there (an error while it is in
    [<-watcher.Events], say) is not consumed and leaves it as it is. *)
Definition step (t : tick) (l : Listener) : Listener :=
  match at_pc l, t with
  | AtSelect, EventsClosed => goto l Exited []
  | AtSelect, Event op read =>
      if Z.land op Write =? Write then
        match read with
        | inl err => goto l AtSelect [Log "Error reading config file" err]
        | inr data =>
            match unmarshal_map data with
            | inl err => goto l AtSelect [Log "Error unmarshalling config file" err]
            | inr newData =>
                {| doc := newData; at_pc := AtDrain;
                   effects := effects l ++ [Lock; Store newData; Unlock] |}
            end
        end
      else goto l AtDrain []
  | AtSelect, ErrorReceived err =>
      goto l AtSelect [Log "Error receiving fsnotify event" err]
  | AtSelect, ErrorsClosed => goto l AtSelect []
  | AtDrain, Event _ _ => goto l AtSend []
  | AtDrain, EventsClosed => goto l AtSend []
  | AtSend, Taken => goto l AtSelect [Notify]
  | _, _ => l
  end.

(** The listener after a sequence of ticks. *)
Definition steps (ts : list tick) (l : Listener) : Listener :=
  fold_left (λ l t, step t l) ts l.

(** The listener as [Watch] starts it on a handle. *)
Definition listen (h : Config) : Listener :=
  {| doc := c h; at_pc := AtSelect; effects := [] |}.

(** The listener and its channel [watchC].  [step] is the listener while
    [watchC] is open.  [StopWatching] closes the channel, and a listener
    that is in the send [watchC <- struct{}{}] then, or gets there later,
    panics with "send on closed channel"; nothing recovers the panic, which
    ends the program. *)
Inductive life : Type :=
| Live (l : Listener) (chanOpen : bool)
| SendOnClosed (l : Listener).

(** A tick of the listener, or [close(c.watchC)]. *)
Inductive stopTick : Type :=
| Tick (t : tick)
| WatchCClosed.

Definition settle (l : Listener) (chanOpen : bool) : life :=
  if chanOpen then Live l true
  else if bool_decide (at_pc l = AtSend) then SendOnClosed l
  else Live l false.

Definition stepStop (t : stopTick) (s : life) : life :=
  match s with
  | SendOnClosed l => SendOnClosed l
  | Live l chanOpen =>
      match t with
      | Tick t => settle (step t l) chanOpen
      | WatchCClosed => settle l false
      end
  end.

Definition stepsStop (ts : list stopTick) (s : life) : life :=
  fold_left (λ s t, stepStop t s) ts s.

(** What [StopWatching] does to the listener of the handle, in order:
    [c.watcher.Close()] closes [watcher.Events], and after the sleep
    [close(c.watchC)] closes the channel of the notifications. *)
Definition stopTicks : list stopTick := [Tick EventsClosed; WatchCClosed].

Definition notifications (l : Listener) : nat :=
  length (filter (λ e, e = Notify) (effects l)).

Definition stores (l : Listener) : list (gmap string (option string)) :=
  omap (λ e, match e with Store d => Some d | _ => None end) (effects l).

(** What one cycle reads and parses: the new document, or the error of
    [ioutil.ReadFile] or of [json.Unmarshal]. *)
Definition reload (read : result string) : result (gmap string (option string)) :=
  match read with
  | inl err => inl err
  | inr data => unmarshal_map data
  end.

(** [event.Op&fsnotify.Write == fsnotify.Write]. *)
Definition isWrite (op : Z) : bool := Z.land op Write =? Write.

(** A tick that is a write event whose reload succeeds. *)
Definition reloads (t : tick) : bool :=
  match t with
  | Event op read =>
      isWrite op && match reload read with inr _ => true | inl _ => false end
  | _ => false
  end.

(** A tick that completes a receive from [watcher.Events]. *)
Definition fromEvents (t : tick) : bool :=
  match t with
  | Event _ _ | EventsClosed => true
  | _ => false
  end.

(** How far the listener is into the two receives and the send that follow
    an event. *)
Definition phase (l : Listener) : nat :=
  match at_pc l with
  | AtDrain => 1
  | AtSend => 2
  | _ => 0
  end.

(** The items that [watcher.Events] offers in a sequence of ticks, and the
    values taken from [watchC]. *)
Definition eventsOffered (ts : list tick) : nat :=
  length (filter (λ t, fromEvents t = true) ts).

Definition isTaken (t : tick) : bool :=
  match t with
  | Taken => true
  | _ => false
  end.

Definition taken (ts : list tick) : nat :=
  length (filter (λ t, isTaken t = true) ts).

(** What the listener does to the lock and the document, in order. *)
Definition isCritical (e : effect) : bool :=
  match e with
  | Lock | Unlock | Store _ => true
  | Log _ _ | Notify => false
  end.

Definition critical (l : Listener) : list effect :=
  filter (λ e, isCritical e = true) (effects l).

End WithDecoder.
End Json.

(** ** The configuration handle of [config/json/json.go] *)

Module LegacyJson.

(** [type Config struct { c map[string]*json.RawMessage }]. *)
Record Config : Type := mkConfig { c : gmap string (option string) }.

Section WithDecoder.
Context `{Decoder}.

(** [func new(jsonData []byte) (config.Config, error)]. *)
Definition new (jsonData : string) : result Config :=
  match unmarshal_map jsonData with
  | inl err => inl err
  | inr m => inr (mkConfig m)
  end.

Definition New (jsonStr : string) : result Config := new jsonStr.

(** [func (c Config) Section(key string) (config.Config, error)]. *)
Definition Section (key : string) : prog Config :=
  c1 ← load_c;
  deref (index c1 key) (λ raw,
    match unmarshal_map raw with
    | inl err => fail err
    | inr m => mret (mkConfig m)
    end).

(** The body of [getString] and [getInt]:
<<
    if err := json.Unmarshal( *(c.c[key]), &value); err != nil {
        return zero, err
    }
    return value, nil
>> *)
Definition getValue {A} (unmarshal : string → result A) (key : string) : prog A :=
  c1 ← load_c;
  deref (index c1 key) (λ raw,
    match unmarshal raw with
    | inl err => fail err
    | inr value => mret value
    end).

Definition getString : string → prog string := getValue unmarshal_string.
Definition getInt : string → prog Z := getValue unmarshal_int.

Definition getTime (key : string) : prog Time :=
  valueStr ← getString key;
  match time_Parse "2.1.2006" valueStr with
  | inl err => fail err
  | inr value => mret value
  end.

Definition GetString (key defaultVal : string) : prog string :=
  or_default (getString key) defaultVal.
Definition MustGetString (key : string) : prog string := or_panic (getString key).
Definition GetInt (key : string) (defaultVal : Z) : prog Z :=
  or_default (getInt key) defaultVal.
Definition MustGetInt (key : string) : prog Z := or_panic (getInt key).
Definition GetTime (key : string) (defaultVal : Time) : prog Time :=
  or_default (getTime key) defaultVal.
Definition MustGetTime (key : string) : prog Time := or_panic (getTime key).

(** [func Load(filePath string) (config.Config, error)]. *)
Definition Load (readFile : string → result string) (path : string) : result Config :=
  match readFile path with
  | inl err => inl err
  | inr data => new data
  end.

End WithDecoder.
End LegacyJson.

(** ** The earlier text of [json/json.go]

    The file holds a second text of the package (from its line 486 on): the
    revision before locks and watching, with the check of the key in
    [Section] and [SectionAsJSON] only.  All methods have value receivers. *)

Module JsonV1.

(** [type Config struct { c map[string]*json.RawMessage }]. *)
Record Config : Type := mkConfig { c : gmap string (option string) }.

Section WithDecoder.
Context `{Decoder}.

(** [func new(jsonData []byte) (config.Config, error)]. *)
Definition new (jsonData : string) : result Config :=
  match unmarshal_map jsonData with
  | inl err => inl err
  | inr m => inr (mkConfig m)
  end.

Definition New (jsonStr : string) : result Config := new jsonStr.

(** [func Load(filePath string) (config.Config, error)]. *)
Definition Load (readFile : string → result string) (path : string) : result Config :=
  match readFile path with
  | inl err => inl err
  | inr data => new data
  end.

(** [func (c Config) Section(key string) (config.Config, error)]. *)
Definition Section (key : string) : prog Config :=
  c1 ← load_c;
  if negb (has_key c1 key) then
    fail (Json.sectionNotPresent key)
  else
    deref (index c1 key) (λ raw,
      match unmarshal_map raw with
      | inl err => fail err
      | inr m => mret (mkConfig m)
      end).

(** [func (c Config) SectionAsJSON(key string) (string, error)]. *)
Definition SectionAsJSON (key : string) : prog string :=
  c1 ← load_c;
  if negb (has_key c1 key) then
    fail (Json.sectionNotPresent key)
  else
    deref (index c1 key) (λ raw, mret raw).

(** The body of [getBool], [getString], [getInt] and [getStringSlice]:
<<
    if err := json.Unmarshal( *(c.c[key]), &value); err != nil {
        return zero, err
    }
    return value, nil
>> *)
Definition getValue {A} (unmarshal : string → result A) (key : string) : prog A :=
  c1 ← load_c;
  deref (index c1 key) (λ raw,
    match unmarshal raw with
    | inl err => fail err
    | inr value => mret value
    end).

Definition getBool : string → prog bool := getValue unmarshal_bool.
Definition getString : string → prog string := getValue unmarshal_string.
Definition getInt : string → prog Z := getValue unmarshal_int.
Definition getStringSlice : string → prog (list string) := getValue unmarshal_string_slice.

Definition getTime (key : string) : prog Time :=
  valueStr ← getString key;
  match time_Parse "2.1.2006" valueStr with
  | inl err => fail err
  | inr value => mret value
  end.

Definition getDuration (key : string) : prog Z :=
  valueStr ← getString key;
  match time_ParseDuration valueStr with
  | inl err => fail err
  | inr value => mret value
  end.

Definition GetString (key defaultVal : string) : prog string :=
  or_default (getString key) defaultVal.
Definition MustGetString (key : string) : prog string := or_panic (getString key).
Definition GetInt (key : string) (defaultVal : Z) : prog Z :=
  or_default (getInt key) defaultVal.
Definition MustGetInt (key : string) : prog Z := or_panic (getInt key).
Definition GetTime (key : string) (defaultVal : Time) : prog Time :=
  or_default (getTime key) defaultVal.
Definition MustGetTime (key : string) : prog Time := or_panic (getTime key).
Definition GetDuration (key : string) (defaultVal : Z) : prog Z :=
  or_default (getDuration key) defaultVal.
Definition MustGetDuration (key : string) : prog Z := or_panic (getDuration key).
Definition GetStringSlice (key : string) (defaultVal : list string) : prog (list string) :=
  or_default (getStringSlice key) defaultVal.
Definition MustGetStringSlice (key : string) : prog (list string) :=
  or_panic (getStringSlice key).
Definition GetBool (key : string) (defaultVal : bool) : prog bool :=
  or_default (getBool key) defaultVal.
Definition MustGetBool (key : string) : prog bool := or_panic (getBool key).

End WithDecoder.
End JsonV1.

(** ** The decoder of [encoding/json] and the parsers of [time]

    A model of the library functions the package calls, following the
    documented behaviour of [json.Unmarshal], [time.Parse] and
    [time.ParseDuration].  Not modelled: the messages and offsets of syntax
    errors, and the fields [LayoutElem] and [ValueElem] of a
    [time.ParseError]. *)

Module GoJSON.

Definition dquote : ascii := Eval cbv in ascii_of_N 34.
Definition backslash : ascii := Eval cbv in ascii_of_N 92.

Definition code (ch : ascii) : N := N_of_ascii ch.

Definition isSpace (ch : ascii) : bool :=
  let n := code ch in
  ((n =? 32) || (n =? 9) || (n =? 13) || (n =? 10))%N.

Definition isDigit (ch : ascii) : bool :=
  let n := code ch in ((48 <=? n) && (n <=? 57))%N.

Definition isDigit19 (ch : ascii) : bool :=
  let n := code ch in ((49 <=? n) && (n <=? 57))%N.

Definition hexVal (ch : ascii) : option N :=
  let n := code ch in
  if ((48 <=? n) && (n <=? 57))%N then Some (n - 48)%N
  else if ((97 <=? n) && (n <=? 102))%N then Some (n - 87)%N
  else if ((65 <=? n) && (n <=? 70))%N then Some (n - 55)%N
  else None.

Fixpoint skipSpace (s : string) : string :=
  match s with
  | String ch r => if isSpace ch then skipSpace r else s
  | EmptyString => s
  end.

#[local] Set Warnings "-register-all".

(** The parsed form of a JSON text.  A string keeps its contents as written
    (escapes not yet decoded), a number its literal, and every member of an
    object the exact text of its value. *)
Inductive value : Type :=
| Null
| Bool (b : bool)
| Number (lit : string)
| Str (quoted : string)
| Array (vs : list value)
| Object (ms : list (string * string * value)).

(** The characters that may follow a backslash, [u] apart. *)
Definition isEscape (ch : ascii) : bool :=
  let n := code ch in
  ((n =? 34) || (n =? 92) || (n =? 47) || (n =? 98) || (n =? 102) ||
   (n =? 110) || (n =? 114) || (n =? 116))%N.

(** [scanString s] reads a string literal whose opening quote has been
    consumed: the contents up to the closing quote, and the rest. *)
Fixpoint scanString (s : string) : option (string * string) :=
  match s with
  | EmptyString => None
  | String ch r =>
      if (code ch =? 34)%N then Some (EmptyString, r)
      else if (code ch =? 92)%N then
        match r with
        | String e r1 =>
            if isEscape e then
              match scanString r1 with
              | Some (q, rest) => Some (String ch (String e q), rest)
              | None => None
              end
            else if (code e =? 117)%N then
              match r1 with
              | String h1 (String h2 (String h3 (String h4 r2))) =>
                  match hexVal h1, hexVal h2, hexVal h3, hexVal h4 with
                  | Some _, Some _, Some _, Some _ =>
                      match scanString r2 with
                      | Some (q, rest) =>
                          Some (String ch (String e (String h1 (String h2
                                  (String h3 (String h4 q))))), rest)
                      | None => None
                      end
                  | _, _, _, _ => None
                  end
              | _ => None
              end
            else None
        | EmptyString => None
        end
      else if (code ch <? 32)%N then None
      else
        match scanString r with
        | Some (q, rest) => Some (String ch q, rest)
        | None => None
        end
  end.

Fixpoint scanDigits (s : string) : string * string :=
  match s with
  | String ch r =>
      if isDigit ch then let '(d, rest) := scanDigits r in (String ch d, rest)
      else (EmptyString, s)
  | EmptyString => (EmptyString, s)
  end.

(** The integer part of a number: [0], or a non-zero digit and more digits. *)
Definition scanInt (s : string) : option (string * string) :=
  match s with
  | String ch r =>
      if (code ch =? 48)%N then Some (String ch EmptyString, r)
      else if isDigit19 ch then
        let '(d, rest) := scanDigits r in Some (String ch d, rest)
      else None
  | EmptyString => None
  end.

Definition scanFrac (s : string) : option (string * string) :=
  match s with
  | String ch r =>
      if (code ch =? 46)%N then
        match scanDigits r with
        | (EmptyString, _) => None
        | (d, rest) => Some (String ch d, rest)
        end
      else Some (EmptyString, s)
  | EmptyString => Some (EmptyString, s)
  end.

Definition scanExp (s : string) : option (string * string) :=
  match s with
  | String ch r =>
      if ((code ch =? 101) || (code ch =? 69))%N then
        let '(sign, r1) :=
          match r with
          | String sg r' =>
              if ((code sg =? 43) || (code sg =? 45))%N
              then (String sg EmptyString, r') else (EmptyString, r)
          | EmptyString => (EmptyString, r)
          end in
        match scanDigits r1 with
        | (EmptyString, _) => None
        | (d, rest) => Some (String ch (sign +:+ d), rest)
        end
      else Some (EmptyString, s)
  | EmptyString => Some (EmptyString, s)
  end.

Definition scanNumber (s : string) : option (string * string) :=
  let '(sign, s1) :=
    match s with
    | String ch r =>
        if (code ch =? 45)%N then (String ch EmptyString, r) else (EmptyString, s)
    | EmptyString => (EmptyString, s)
    end in
  match scanInt s1 with
  | None => None
  | Some (i, s2) =>
      match scanFrac s2 with
      | None => None
      | Some (f, s3) =>
          match scanExp s3 with
          | None => None
          | Some (e, s4) => Some (sign +:+ i +:+ f +:+ e, s4)
          end
      end
  end.

(** [stripPrefix lit s]: what follows [lit] at the start of [s]. *)
Fixpoint stripPrefix (lit s : string) : option string :=
  match lit, s with
  | EmptyString, _ => Some s
  | String a lit', String b s' =>
      if (code a =? code b)%N then stripPrefix lit' s' else None
  | String _ _, EmptyString => None
  end.

(** The text consumed between [s] and its suffix [rest]. *)
Definition consumed (s rest : string) : string :=
  substring 0 (String.length s - String.length rest) s.

(** The scanner refuses a text in which arrays and objects nest deeper
    than this ([maxNestingDepth] of the scanner): the text is then rejected
    with a syntax error. *)
Definition maxNestingDepth : nat := Z.to_nat 10000.

(** [parseValue n d s] reads one value at the start of [s] (no leading
    space) and returns it with the rest of the input; [n] bounds the number
    of calls, and [d] is the number of arrays and objects that may still be
    opened inside one another. *)
Fixpoint parseValue (n : nat) (d : nat) (s : string) {struct n} : option (value * string) :=
  match n with
  | O => None
  | S n =>
      match s with
      | EmptyString => None
      | String ch r =>
          if (code ch =? 123)%N then
            match d with
            | O => None
            | S d =>
                match skipSpace r with
                | String ch1 r1 =>
                    if (code ch1 =? 125)%N then Some (Object [], r1)
                    else
                      match parseMembers n d (String ch1 r1) with
                      | Some (ms, rest) => Some (Object ms, rest)
                      | None => None
                      end
                | EmptyString => None
                end
            end
          else if (code ch =? 91)%N then
            match d with
            | O => None
            | S d =>
                match skipSpace r with
                | String ch1 r1 =>
                    if (code ch1 =? 93)%N then Some (Array [], r1)
                    else
                      match parseElements n d (String ch1 r1) with
                      | Some (vs, rest) => Some (Array vs, rest)
                      | None => None
                      end
                | EmptyString => None
                end
            end
          else if (code ch =? 34)%N then
            match scanString r with
            | Some (q, rest) => Some (Str q, rest)
            | None => None
            end
          else
            match stripPrefix "true" s with
            | Some rest => Some (Bool true, rest)
            | None =>
            match stripPrefix "false" s with
            | Some rest => Some (Bool false, rest)
            | None =>
            match stripPrefix "null" s with
            | Some rest => Some (Null, rest)
            | None =>
            match scanNumber s with
            | Some (lit, rest) => Some (Number lit, rest)
            | None => None
            end end end end
      end
  end

(** The members of an object after its opening brace, up to and including
    the closing brace; [s] starts at the first key. *)
with parseMembers (n : nat) (d : nat) (s : string) {struct n}
    : option (list (string * string * value) * string) :=
  match n with
  | O => None
  | S n =>
      match s with
      | String ch r =>
          if (code ch =? 34)%N then
            match scanString r with
            | None => None
            | Some (key, s1) =>
                match skipSpace s1 with
                | String colon s2 =>
                    if (code colon =? 58)%N then
                      let s3 := skipSpace s2 in
                      match parseValue n d s3 with
                      | None => None
                      | Some (v, s4) =>
                          let m := (key, consumed s3 s4, v) in
                          match skipSpace s4 with
                          | String sep s5 =>
                              if (code sep =? 125)%N then Some ([m], s5)
                              else if (code sep =? 44)%N then
                                match parseMembers n d (skipSpace s5) with
                                | Some (ms, rest) => Some (m :: ms, rest)
                                | None => None
                                end
                              else None
                          | EmptyString => None
                          end
                      end
                    else None
                | EmptyString => None
                end
            end
          else None
      | EmptyString => None
      end
  end

(** The elements of an array after its opening bracket, up to and including
    the closing bracket; [s] starts at the first element. *)
with parseElements (n : nat) (d : nat) (s : string) {struct n}
    : option (list value * string) :=
  match n with
  | O => None
  | S n =>
      match parseValue n d s with
      | None => None
      | Some (v, s1) =>
          match skipSpace s1 with
          | String sep s2 =>
              if (code sep =? 93)%N then Some ([v], s2)
              else if (code sep =? 44)%N then
                match parseElements n d (skipSpace s2) with
                | Some (vs, rest) => Some (v :: vs, rest)
                | None => None
                end
              else None
          | EmptyString => None
          end
      end
  end.

(** [parse s]: the value of a complete JSON text, with space allowed
    around it, or [None] for a text the scanner rejects. *)
Definition parse (s : string) : option value :=
  let s0 := skipSpace s in
  match parseValue (S (String.length s0)) maxNestingDepth s0 with
  | Some (v, rest) =>
      match skipSpace rest with
      | EmptyString => Some v
      | String _ _ => None
      end
  | None => None
  end.

(** [json.Valid]. *)
Definition Valid (s : string) : bool := bool_decide (is_Some (parse s)).

(** The first byte of a text that is not space: [{] for a text whose top
    level is an object, [[] for an array. *)
Definition topLevel (s : string) : option ascii :=
  match skipSpace s with
  | String ch _ => Some ch
  | EmptyString => None
  end.

(** *** Decoding string literals *)

Definition byte (n : N) : ascii := ascii_of_N n.

(** [utf8.EncodeRune]. *)
Definition encodeRune (r : N) : string :=
  (if r <? 128 then String (byte r) EmptyString
   else if r <? 2048 then
     String (byte (192 + r / 64)) (String (byte (128 + r mod 64)) EmptyString)
   else if r <? 65536 then
     String (byte (224 + r / 4096))
       (String (byte (128 + (r / 64) mod 64))
          (String (byte (128 + r mod 64)) EmptyString))
   else
     String (byte (240 + r / 262144))
       (String (byte (128 + (r / 4096) mod 64))
          (String (byte (128 + (r / 64) mod 64))
             (String (byte (128 + r mod 64)) EmptyString))))%N.

Definition getu4 (h1 h2 h3 h4 : ascii) : option N :=
  match hexVal h1, hexVal h2, hexVal h3, hexVal h4 with
  | Some a, Some b, Some c, Some d => Some (((a * 16 + b) * 16 + c) * 16 + d)%N
  | _, _, _, _ => None
  end.

(** [utf16.IsSurrogate]. *)
Definition isSurrogate (r : N) : bool := ((55296 <=? r) && (r <? 57344))%N.

(** [utf16.DecodeRune]: the code point of a surrogate pair, if it is one. *)
Definition decodeRune (r1 r2 : N) : option N :=
  if ((55296 <=? r1) && (r1 <? 56320) && (56320 <=? r2) && (r2 <? 57344))%N
  then Some ((r1 - 55296) * 1024 + (r2 - 56320) + 65536)%N
  else None.

Definition replacementChar : N := 65533.

Definition unescape (e : ascii) : ascii :=
  let n := code e in
  (if n =? 98 then byte 8
   else if n =? 102 then byte 12
   else if n =? 110 then byte 10
   else if n =? 114 then byte 13
   else if n =? 116 then byte 9
   else e)%N.

(** [utf8.DecodeRune] reads a well-formed encoding of two, three or four
    bytes, told by the first byte; any other byte from 128 up is read alone,
    as [utf8.RuneError].  [utf8Size] is the length that the first byte
    announces (0 for a byte that starts no encoding), [acceptSecond] the
    range of the second byte, and [isCont] that of the later ones. *)
Definition utf8Size (b0 : N) : N :=
  (if (194 <=? b0) && (b0 <=? 223) then 2
   else if (224 <=? b0) && (b0 <=? 239) then 3
   else if (240 <=? b0) && (b0 <=? 244) then 4
   else 0)%N.

Definition acceptSecond (b0 b1 : N) : bool :=
  (let lo := if b0 =? 224 then 160 else if b0 =? 240 then 144 else 128 in
   let hi := if b0 =? 237 then 159 else if b0 =? 244 then 143 else 191 in
   (lo <=? b1) && (b1 <=? hi))%N.

Definition isCont (b : N) : bool := ((128 <=? b) && (b <=? 191))%N.

(** [unquote]: the string denoted by the contents of a literal.  Escapes
    are decoded, and bytes that are not well-formed UTF-8 are replaced by
    the encoding of [utf8.RuneError], one byte at a time. *)
Fixpoint unquote (q : string) : string :=
  match q with
  | EmptyString => EmptyString
  | String ch r =>
      if (code ch =? 92)%N then
        match r with
        | String "u" (String h1 (String h2 (String h3 (String h4 r1)))) =>
            match getu4 h1 h2 h3 h4 with
            | Some rr =>
                if isSurrogate rr then
                  match r1 with
                  | String "\" (String "u" (String k1 (String k2 (String k3
                      (String k4 r2))))) =>
                      match getu4 k1 k2 k3 k4 with
                      | Some rr1 =>
                          match decodeRune rr rr1 with
                          | Some dec => encodeRune dec +:+ unquote r2
                          | None => encodeRune replacementChar +:+ unquote r1
                          end
                      | None => encodeRune replacementChar +:+ unquote r1
                      end
                  | _ => encodeRune replacementChar +:+ unquote r1
                  end
                else encodeRune rr +:+ unquote r1
            | None => EmptyString
            end
        | String e r1 => String (unescape e) (unquote r1)
        | EmptyString => EmptyString
        end
      else if (code ch <? 128)%N then String ch (unquote r)
      else
        let bad := encodeRune replacementChar +:+ unquote r in
        let size := utf8Size (code ch) in
        match r with
        | String b1 r1 =>
            if (size =? 0)%N || negb (acceptSecond (code ch) (code b1)) then bad
            else if (size =? 2)%N then String ch (String b1 (unquote r1))
            else
              match r1 with
              | String b2 r2 =>
                  if negb (isCont (code b2)) then bad
                  else if (size =? 3)%N
                  then String ch (String b1 (String b2 (unquote r2)))
                  else
                    match r2 with
                    | String b3 r3 =>
                        if isCont (code b3)
                        then String ch (String b1 (String b2 (String b3 (unquote r3))))
                        else bad
                    | EmptyString => bad
                    end
              | EmptyString => bad
              end
        | EmptyString => bad
        end
  end.

(** *** Decoding into Go values

    [kindOf v] is the [Value] field of the [UnmarshalTypeError] reported when
    [v] cannot be stored in the destination. *)
Definition kindOf (v : value) : string :=
  match v with
  | Null => "null"
  | Bool _ => "bool"
  | Number _ => "number"
  | Str _ => "string"
  | Array _ => "array"
  | Object _ => "object"
  end.

Definition withValue {A} (s : string) (k : value → result A) : result A :=
  match parse s with
  | None => inl (SyntaxError)
  | Some v => k v
  end.

(** Into [map[string]*json.RawMessage]: each member stores the text of its
    value, a later member replacing an earlier one with the same key; the
    value [null] stores a nil pointer. *)
Definition rawPointer (raw : string) (v : value) : option string :=
  match v with
  | Null => None
  | _ => Some raw
  end.

Fixpoint storeMembers (ms : list (string * string * value))
    (m : gmap string (option string)) : gmap string (option string) :=
  match ms with
  | [] => m
  | (key, raw, v) :: ms => storeMembers ms (<[unquote key := rawPointer raw v]> m)
  end.

(** The destination type as the error prints it: [json.RawMessage] is an
    alias of [jsontext.Value]. *)
Definition mapType : string := "map[string]*jsontext.Value".

Definition unmarshalMap (s : string) : result (gmap string (option string)) :=
  withValue s (λ v,
    match v with
    | Object ms => inr (storeMembers ms ∅)
    | Null => inr ∅
    | _ => inl (UnmarshalTypeError (kindOf v) mapType)
    end).

Definition unmarshalString (s : string) : result string :=
  withValue s (λ v,
    match v with
    | Str q => inr (unquote q)
    | Null => inr EmptyString
    | _ => inl (UnmarshalTypeError (kindOf v) "string")
    end).

Definition unmarshalBool (s : string) : result bool :=
  withValue s (λ v,
    match v with
    | Bool b => inr b
    | Null => inr false
    | _ => inl (UnmarshalTypeError (kindOf v) "bool")
    end).

(** [strconv.ParseUint(s, 10, 64)] without the range check: the number
    written by a non-empty string of digits. *)
Fixpoint digitsValue (s : string) (acc : Z) : option Z :=
  match s with
  | EmptyString => Some acc
  | String ch r =>
      if isDigit ch then digitsValue r (acc * 10 + Z.of_N (code ch - 48))
      else None
  end.

Definition parseUint (s : string) : option Z :=
  match s with
  | EmptyString => None
  | _ => digitsValue s 0
  end.

(** [strconv.ParseInt(s, 10, 64)] without the range check. *)
Definition parseInt (s : string) : option Z :=
  match s with
  | String "-" r => Z.opp <$> parseUint r
  | String "+" r => parseUint r
  | _ => parseUint s
  end.

Definition minInt64 : Z := - 2 ^ 63.
Definition maxInt64 : Z := 2 ^ 63 - 1.
Definition maxUint64 : Z := 2 ^ 64 - 1.

Definition unmarshalInt (s : string) : result Z :=
  withValue s (λ v,
    match v with
    | Number lit =>
        match parseInt lit with
        | Some n =>
            if ((minInt64 <=? n) && (n <=? maxInt64))%Z then inr n
            else inl (UnmarshalTypeError ("number " +:+ lit) "int")
        | None => inl (UnmarshalTypeError ("number " +:+ lit) "int")
        end
    | Null => inr 0
    | _ => inl (UnmarshalTypeError (kindOf v) "int")
    end).

Definition unmarshalUint64 (s : string) : result Z :=
  withValue s (λ v,
    match v with
    | Number lit =>
        match parseUint lit with
        | Some n =>
            if (n <=? maxUint64)%Z then inr n
            else inl (UnmarshalTypeError ("number " +:+ lit) "uint64")
        | None => inl (UnmarshalTypeError ("number " +:+ lit) "uint64")
        end
    | Null => inr 0
    | _ => inl (UnmarshalTypeError (kindOf v) "uint64")
    end).

(** Into [[]string]: every element is stored; the first element that is not
    a string (or [null], which leaves the empty string) makes the error that
    [Unmarshal] returns at the end. *)
Fixpoint storeStrings (vs : list value) : list string * option error :=
  match vs with
  | [] => ([], None)
  | v :: vs =>
      let '(l, e) := storeStrings vs in
      match v with
      | Str q => (unquote q :: l, e)
      | Null => (EmptyString :: l, e)
      | _ => (EmptyString :: l, Some (UnmarshalTypeError (kindOf v) "string"))
      end
  end.

Definition unmarshalStringSlice (s : string) : result (list string) :=
  withValue s (λ v,
    match v with
    | Array vs =>
        match storeStrings vs with
        | (l, None) => inr l
        | (_, Some err) => inl err
        end
    | Null => inr []
    | _ => inl (UnmarshalTypeError (kindOf v) "[]string")
    end).

End GoJSON.

Module GoTime.
Import GoJSON.

Definition digit (ch : ascii) : Z := Z.of_N (code ch - 48).

(** [getnum(s, false)]: one or two leading digits. *)
Definition getnum (s : string) : option (Z * string) :=
  match s with
  | String a r =>
      if isDigit a then
        match r with
        | String b r' =>
            if isDigit b then Some (digit a * 10 + digit b, r')
            else Some (digit a, r)
        | EmptyString => Some (digit a, r)
        end
      else None
  | EmptyString => None
  end.

(** The chunk [2006]: exactly four digits. *)
Definition getyear (s : string) : option (Z * string) :=
  match s with
  | String a (String b (String c (String d r))) =>
      if isDigit a && isDigit b && isDigit c && isDigit d
      then Some (((digit a * 10 + digit b) * 10 + digit c) * 10 + digit d, r)
      else None
  | _ => None
  end.

(** [skip(value, ".")]. *)
Definition skipDot (s : string) : option string :=
  match s with
  | String ch r => if (code ch =? 46)%N then Some r else None
  | EmptyString => None
  end.

Definition isLeap (year : Z) : bool :=
  (year mod 4 =? 0) && (negb (year mod 100 =? 0) || (year mod 400 =? 0)).

Definition daysIn (month year : Z) : Z :=
  if (month =? 2) && isLeap year then 29
  else if month =? 2 then 28
  else if (month =? 4) || (month =? 6) || (month =? 9) || (month =? 11) then 30
  else 31.

Definition layoutDMY : string := "2.1.2006".

Definition bad (value msg : string) : result Time :=
  inl (ParseError layoutDMY value msg).

Definition hexDigit (n : N) : ascii :=
  (if n <? 10 then byte (48 + n) else byte (87 + n))%N.

(** [quote] of package [time]: the string between double quotes, with a
    backslash before a quote and a backslash, and every byte below 32 or
    from 128 up written [\xhh]. *)
Fixpoint quoteBytes (s : string) : string :=
  match s with
  | EmptyString => EmptyString
  | String ch r =>
      let n := code ch in
      if ((n <? 32) || (128 <=? n))%N then
        String backslash (String "x" (String (hexDigit (n / 16))
          (String (hexDigit (n mod 16)) (quoteBytes r))))
      else if ((n =? 34) || (n =? 92))%N then String backslash (String ch (quoteBytes r))
      else String ch (quoteBytes r)
  end.

Definition quote (s : string) : string :=
  String dquote (quoteBytes s +:+ String dquote EmptyString).

(** [time.Parse("2.1.2006", value)]: the chunks of the layout are the day
    ([2]), the month ([1]) and the year ([2006]), each after the literal
    text before it; the day is validated against the month at the end. *)
Definition parseDMY (value : string) : result Time :=
  match getnum value with
  | None => bad value ""
  | Some (day, v1) =>
      match skipDot v1 with
      | None => bad value ""
      | Some v2 =>
          match getnum v2 with
          | None => bad value ""
          | Some (month, v3) =>
              if (month <=? 0) || (12 <? month) then bad value ": month out of range"
              else
                match skipDot v3 with
                | None => bad value ""
                | Some v4 =>
                    match getyear v4 with
                    | None => bad value ""
                    | Some (year, v5) =>
                        match v5 with
                        | String _ _ => bad value (": extra text: " +:+ quote v5)
                        | EmptyString =>
                            if (day <? 1) || (daysIn month year <? day)
                            then bad value ": day out of range"
                            else inr (Date year month day)
                        end
                    end
                end
          end
      end
  end.

(** Only the layout the package uses is modelled. *)
Definition Parse (layout value : string) : result Time :=
  if bool_decide (layout = layoutDMY) then parseDMY value
  else inl (ParseError layout value ": layout not modelled").

(** *** [time.ParseDuration] *)

Definition unitOf (u : string) : option Z :=
  if bool_decide (u = "ns") then Some 1
  else if bool_decide (u = "us") then Some 1000
  else if bool_decide (u = String (byte 194) (String (byte 181) "s")) then Some 1000
  else if bool_decide (u = String (byte 206) (String (byte 188) "s")) then Some 1000
  else if bool_decide (u = "ms") then Some 1000000
  else if bool_decide (u = "s") then Some 1000000000
  else if bool_decide (u = "m") then Some 60000000000
  else if bool_decide (u = "h") then Some 3600000000000
  else None.

Fixpoint scanUnit (s : string) : string * string :=
  match s with
  | String ch r =>
      if (code ch =? 46)%N || isDigit ch then (EmptyString, s)
      else let '(u, rest) := scanUnit r in (String ch u, rest)
  | EmptyString => (EmptyString, s)
  end.

Definition invalidDuration (orig : string) : error :=
  DurationError ("time: invalid duration " +:+ quote orig).

(** [leadingInt]: the number written by the digits at the start of [s],
    with the rest; [None] when the number passes [2^63]. *)
Fixpoint leadingInt (s : string) (x : Z) : option (Z * string) :=
  match s with
  | String ch r =>
      if isDigit ch then
        if 2 ^ 63 / 10 <? x then None
        else
          let x' := x * 10 + digit ch in
          if 2 ^ 63 <? x' then None else leadingInt r x'
      else Some (x, s)
  | EmptyString => Some (x, s)
  end.

(** [leadingFraction]: the digits at the start of [s] as a number [x] and
    the power of ten [scale] that it is a fraction of, with the rest; from
    the digit on that would take [x] past [2^63], the digits are read and
    dropped. *)
Fixpoint leadingFraction (s : string) (x scale : Z) (overflow : bool) : Z * Z * string :=
  match s with
  | String ch r =>
      if isDigit ch then
        if overflow then leadingFraction r x scale true
        else if (2 ^ 63 - 1) / 10 <? x then leadingFraction r x scale true
        else
          let y := x * 10 + digit ch in
          if 2 ^ 63 <? y then leadingFraction r x scale true
          else leadingFraction r y (scale * 10) false
      else (x, scale, s)
  | EmptyString => (x, scale, s)
  end.

(** [float64(z)] for a [uint64], rounded to the nearest, ties to even. *)
Definition float64 (z : Z) : spec_float :=
  match z with
  | Z0 => S754_zero false
  | _ => binary_normalize 53 1024 z 0 false
  end.

(** [uint64(x)] for a float that is not negative: the integer part. *)
Definition truncate (x : spec_float) : Z :=
  match x with
  | S754_finite false m e => if 0 <=? e then Z.pos m * 2 ^ e else Z.pos m / 2 ^ (- e)
  | _ => 0
  end.

(** [uint64(float64(f) * (float64(unit) / scale))]; [scale] is a power of
    ten up to [10^19], which [float64] holds exactly. *)
Definition fractionOf (f unit scale : Z) : Z :=
  truncate (SFmul 53 1024 (float64 f) (SFdiv 53 1024 (float64 unit) (float64 scale))).

(** One pass of the loop of [ParseDuration] for every magnitude and unit;
    [d] is the sum so far, a [uint64]. *)
Fixpoint durationLoop (n : nat) (orig s : string) (d : Z) : result Z :=
  match n, s with
  | _, EmptyString => inr d
  | O, _ => inl (invalidDuration orig)
  | S n, String ch _ =>
      if negb ((code ch =? 46)%N || isDigit ch) then inl (invalidDuration orig)
      else
        match leadingInt s 0 with
        | None => inl (invalidDuration orig)
        | Some (v, s1) =>
            let pre := negb (String.length s =? String.length s1)%nat in
            let '(f, scale, s2) :=
              match s1 with
              | String dot r =>
                  if (code dot =? 46)%N then leadingFraction r 0 1 false else (0, 1, s1)
              | EmptyString => (0, 1, s1)
              end in
            let post :=
              match s1 with
              | String dot r =>
                  (code dot =? 46)%N && negb (String.length r =? String.length s2)%nat
              | EmptyString => false
              end in
            if negb pre && negb post then inl (invalidDuration orig)
            else
              let '(u, s3) := scanUnit s2 in
              if bool_decide (u = EmptyString)
              then inl (DurationError ("time: missing unit in duration " +:+ quote orig))
              else
                match unitOf u with
                | None =>
                    inl (DurationError ("time: unknown unit " +:+ quote u +:+
                                        " in duration " +:+ quote orig))
                | Some unit =>
                    if 2 ^ 63 / unit <? v then inl (invalidDuration orig)
                    else
                      let v' :=
                        if 0 <? f then (v * unit + fractionOf f unit scale) mod 2 ^ 64
                        else v * unit in
                      if (0 <? f) && (2 ^ 63 <? v') then inl (invalidDuration orig)
                      else
                        let d' := (d + v') mod 2 ^ 64 in
                        if 2 ^ 63 <? d' then inl (invalidDuration orig)
                        else durationLoop n orig s3 d'
                end
        end
  end.

(** [time.ParseDuration]; the result is an [int64]. *)
Definition ParseDuration (orig : string) : result Z :=
  let '(neg, s) :=
    match orig with
    | String "-" r => (true, r)
    | String "+" r => (false, r)
    | _ => (false, orig)
    end in
  if bool_decide (s = "0") then inr 0
  else if bool_decide (s = EmptyString) then inl (invalidDuration orig)
  else
    match durationLoop (String.length s) orig s 0 with
    | inl err => inl err
    | inr d =>
        if neg then inr (- d)
        else if 2 ^ 63 - 1 <? d then inl (invalidDuration orig)
        else inr d
    end.

End GoTime.

(** The collaborators as the package uses them. *)
#[global] Instance go_decoder : Decoder := {|
  unmarshal_map := GoJSON.unmarshalMap;
  unmarshal_string := GoJSON.unmarshalString;
  unmarshal_int := GoJSON.unmarshalInt;
  unmarshal_uint64 := GoJSON.unmarshalUint64;
  unmarshal_bool := GoJSON.unmarshalBool;
  unmarshal_string_slice := GoJSON.unmarshalStringSlice;
  time_Parse := GoTime.Parse;
  time_ParseDuration := GoTime.ParseDuration
|}.

(** JSON texts are written below with ['] for the double quote. *)
Fixpoint js (s : string) : string :=
  match s with
  | EmptyString => EmptyString
  | String ch r =>
      String (if (GoJSON.code ch =? 39)%N then GoJSON.dquote else ch) (js r)
  end.

(** ** The layout of dates, as the specification words it

    [D.M.YYYY]: a day of one or two digits, a dot, a month of one or two
    digits, a dot, and a year of four digits; nothing else. *)
Fixpoint allDigits (s : string) : bool :=
  match s with
  | EmptyString => true
  | String ch r => GoJSON.isDigit ch && allDigits r
  end.

Definition oneOrTwoDigits (s : string) : Prop :=
  allDigits s = true ∧ (String.length s = 1%nat ∨ String.length s = 2%nat).

Definition fourDigits (s : string) : Prop :=
  allDigits s = true ∧ String.length s = 4%nat.

Definition inLayoutDMY (s : string) : Prop :=
  ∃ d m y, s = d +:+ "." +:+ m +:+ "." +:+ y ∧
           oneOrTwoDigits d ∧ oneOrTwoDigits m ∧ fourDigits y.

(** The number that a string of digits writes in base ten. *)
Fixpoint numeralFrom (acc : Z) (s : string) : Z :=
  match s with
  | EmptyString => acc
  | String ch r => numeralFrom (acc * 10 + Z.of_N (N_of_ascii ch - 48)) r
  end.

Definition numeral (s : string) : Z := numeralFrom 0 s.

(** The days of the months of the Gregorian calendar, and the dates that
    exist in it. *)
Definition leapYear (y : Z) : bool :=
  (y mod 4 =? 0) && (negb (y mod 100 =? 0) || (y mod 400 =? 0)).

Definition daysOfMonth (m y : Z) : Z :=
  if m =? 2 then (if leapYear y then 29 else 28)
  else if (m =? 4) || (m =? 6) || (m =? 9) || (m =? 11) then 30
  else 31.

Definition isDate (t : Time) : Prop :=
  1 ≤ Month t ≤ 12 ∧ 1 ≤ Day t ≤ daysOfMonth (Month t) (Year t).

(** ** The grammar of JSON texts

    The grammar of RFC 8259, on strings: [jvalue p] says that [p] is a JSON
    value, with no space around it; [jelements] and [jmembers] are the
    elements of an array and the members of an object up to and including
    the closing bracket or brace. *)

Section JSONGrammar.
Import GoJSON.

Definition isHex (ch : ascii) : bool :=
  match hexVal ch with Some _ => true | None => false end.

(** Space between tokens. *)
Inductive jws : string → Prop :=
| jws_nil : jws EmptyString
| jws_cons ch w : isSpace ch = true → jws w → jws (String ch w).

(** The contents of a string literal: bytes from 32 up other than the quote
    and the backslash, and escapes. *)
Inductive jchars : string → Prop :=
| jc_nil : jchars EmptyString
| jc_plain ch q :
    (32 <= code ch)%N → code ch ≠ 34%N → code ch ≠ 92%N → jchars q →
    jchars (String ch q)
| jc_escape e q :
    isEscape e = true → jchars q → jchars (String backslash (String e q))
| jc_unicode h1 h2 h3 h4 q :
    isHex h1 = true → isHex h2 = true → isHex h3 = true → isHex h4 = true →
    jchars q →
    jchars (String backslash (String "u" (String h1 (String h2 (String h3 (String h4 q)))))).

(** Numbers: an optional minus, an integer part without a leading zero, an
    optional fraction and an optional exponent. *)
Definition jdigits (s : string) : Prop := s ≠ EmptyString ∧ allDigits s = true.

Inductive jint : string → Prop :=
| ji_zero : jint "0"
| ji_pos ch ds : isDigit19 ch = true → allDigits ds = true → jint (String ch ds).

Inductive jfrac : string → Prop :=
| jf_none : jfrac EmptyString
| jf_some ds : jdigits ds → jfrac (String "." ds).

Inductive jexp : string → Prop :=
| jx_none : jexp EmptyString
| jx_some e sg ds :
    e = "e"%char ∨ e = "E"%char → sg = EmptyString ∨ sg = "+" ∨ sg = "-" →
    jdigits ds → jexp (String e (sg +:+ ds)).

Inductive jnumber : string → Prop :=
| jn_number sg i f e :
    sg = EmptyString ∨ sg = "-" → jint i → jfrac f → jexp e →
    jnumber (sg +:+ i +:+ f +:+ e).

Inductive jvalue : string → Prop :=
| jv_null : jvalue "null"
| jv_true : jvalue "true"
| jv_false : jvalue "false"
| jv_number s : jnumber s → jvalue s
| jv_string q : jchars q → jvalue (String dquote (q +:+ String dquote EmptyString))
| jv_array_empty w : jws w → jvalue ("[" +:+ w +:+ "]")
| jv_array w es : jws w → jelements es → jvalue ("[" +:+ w +:+ es)
| jv_object_empty w : jws w → jvalue ("{" +:+ w +:+ "}")
| jv_object w ms : jws w → jmembers ms → jvalue ("{" +:+ w +:+ ms)
with jelements : string → Prop :=
| je_last v w : jvalue v → jws w → jelements (v +:+ w +:+ "]")
| je_more v w w' es :
    jvalue v → jws w → jws w' → jelements es →
    jelements (v +:+ w +:+ "," +:+ w' +:+ es)
with jmembers : string → Prop :=
| jm_last k w1 w2 v w3 :
    jchars k → jws w1 → jws w2 → jvalue v → jws w3 →
    jmembers (String dquote (k +:+ String dquote (w1 +:+ ":" +:+ w2 +:+ v +:+ w3 +:+ "}")))
| jm_more k w1 w2 v w3 w4 ms :
    jchars k → jws w1 → jws w2 → jvalue v → jws w3 → jws w4 → jmembers ms →
    jmembers (String dquote (k +:+ String dquote
                (w1 +:+ ":" +:+ w2 +:+ v +:+ w3 +:+ "," +:+ w4 +:+ ms))).

Scheme jvalue_ind' := Minimality for jvalue Sort Prop
  with jelements_ind' := Minimality for jelements Sort Prop
  with jmembers_ind' := Minimality for jmembers Sort Prop.
Combined Scheme jvalue_mutind from jvalue_ind', jelements_ind', jmembers_ind'.

(** A JSON text: one value, with space allowed around it. *)
Definition jsonText (s : string) : Prop :=
  ∃ w1 v w2, s = w1 +:+ v +:+ w2 ∧ jws w1 ∧ jvalue v ∧ jws w2.

(** A text whose top level is an object, respectively an array. *)
Definition isObjectText (s : string) : Prop :=
  jsonText s ∧ topLevel s = Some "{"%char.
Definition isArrayText (s : string) : Prop :=
  jsonText s ∧ topLevel s = Some "["%char.

(** The same grammar with the nesting counted: [jvalueWithin d p] says that
    [p] is a JSON value in which arrays and objects are nested at most [d]
    deep; a number, a string or a literal nests nothing. *)
Inductive jvalueWithin : nat → string → Prop :=
| jw_null d : jvalueWithin d "null"
| jw_true d : jvalueWithin d "true"
| jw_false d : jvalueWithin d "false"
| jw_number d s : jnumber s → jvalueWithin d s
| jw_string d q : jchars q → jvalueWithin d (String dquote (q +:+ String dquote EmptyString))
| jw_array_empty d w : jws w → jvalueWithin (S d) ("[" +:+ w +:+ "]")
| jw_array d w es : jws w → jelementsWithin d es → jvalueWithin (S d) ("[" +:+ w +:+ es)
| jw_object_empty d w : jws w → jvalueWithin (S d) ("{" +:+ w +:+ "}")
| jw_object d w ms : jws w → jmembersWithin d ms → jvalueWithin (S d) ("{" +:+ w +:+ ms)
with jelementsWithin : nat → string → Prop :=
| jwe_last d v w : jvalueWithin d v → jws w → jelementsWithin d (v +:+ w +:+ "]")
| jwe_more d v w w' es :
    jvalueWithin d v → jws w → jws w' → jelementsWithin d es →
    jelementsWithin d (v +:+ w +:+ "," +:+ w' +:+ es)
with jmembersWithin : nat → string → Prop :=
| jwm_last d k w1 w2 v w3 :
    jchars k → jws w1 → jws w2 → jvalueWithin d v → jws w3 →
    jmembersWithin d
      (String dquote (k +:+ String dquote (w1 +:+ ":" +:+ w2 +:+ v +:+ w3 +:+ "}")))
| jwm_more d k w1 w2 v w3 w4 ms :
    jchars k → jws w1 → jws w2 → jvalueWithin d v → jws w3 → jws w4 →
    jmembersWithin d ms →
    jmembersWithin d
      (String dquote (k +:+ String dquote
         (w1 +:+ ":" +:+ w2 +:+ v +:+ w3 +:+ "," +:+ w4 +:+ ms))).

Scheme jvalueWithin_ind' := Minimality for jvalueWithin Sort Prop
  with jelementsWithin_ind' := Minimality for jelementsWithin Sort Prop
  with jmembersWithin_ind' := Minimality for jmembersWithin Sort Prop.
Combined Scheme jvalueWithin_mutind
  from jvalueWithin_ind', jelementsWithin_ind', jmembersWithin_ind'.

(** A JSON text nested at most [d] deep. *)
Definition jsonTextWithin (d : nat) (s : string) : Prop :=
  ∃ w1 v w2, s = w1 +:+ v +:+ w2 ∧ jws w1 ∧ jvalueWithin d v ∧ jws w2.

(** *** Notions used in the proofs about the parser *)

(** A rest that does not go on with a digit. *)
Definition nondigit (r : string) : Prop :=
  match r with String ch _ => isDigit ch = false | EmptyString => True end.

(** What may follow a number: nothing that continues it. *)
Definition stop (r : string) : Prop :=
  match r with
  | String ch _ =>
      isDigit ch = false ∧ code ch ≠ 46%N ∧ code ch ≠ 101%N ∧ code ch ≠ 69%N
  | EmptyString => True
  end.

(** The text kept for every member of an object is a value. *)
Definition rawsOk (ms : list (string * string * value)) : Prop :=
  Forall (λ m, jvalue m.1.2) ms.

(** The same for the members of a parsed object. *)
Definition valueOk (v : value) : Prop :=
  match v with
  | Object ms => rawsOk ms
  | _ => True
  end.

(** The same with the nesting counted: the members of an object read with
    [d] levels left are nested at most [d - 1] deep. *)
Definition rawsWithin (d : nat) (ms : list (string * string * value)) : Prop :=
  Forall (λ m, jvalueWithin d m.1.2) ms.

Definition valueWithin (d : nat) (v : value) : Prop :=
  match v with
  | Object ms => rawsWithin (pred d) ms
  | _ => True
  end.

(** How values, elements and members begin. *)
Definition begins (P : ascii → Prop) (s : string) : Prop :=
  ∃ ch r, s = String ch r ∧ P ch.

Definition valueStart (ch : ascii) : Prop :=
  isSpace ch = false ∧ code ch ≠ 93%N ∧ code ch ≠ 125%N.

(** The bytes that may follow a value or a key. *)
Definition separator (ch : ascii) : Prop :=
  code ch = 93%N ∨ code ch = 44%N ∨ code ch = 125%N ∨ code ch = 58%N.

(** Every raw value of a document is a JSON value. *)
Definition docOk (m : gmap string (option string)) : Prop :=
  ∀ key raw, m !! key = Some (Some raw) → jvalue raw.

(** Every raw value of a document is a JSON value nested at most [d] deep. *)
Definition docWithin (d : nat) (m : gmap string (option string)) : Prop :=
  ∀ key raw, m !! key = Some (Some raw) → jvalueWithin d raw.

End JSONGrammar.

(** ** The documents of [json_test.go] *)

(** Bits of [fsnotify.Op] other than [Write]. *)
Definition Chmod : Z := 16.

Definition personText : string := js
"{
		'id': 1,
		'name': 'qwerty',
		'birthday': '12.09.2018',
		'address': 
		{
			'city': 'Moscow',
			'street': 'Lenina str.'
		}
	}".

Definition personsArrayText : string := js
"[
				{
					'id': 1,
					'name': 'qwerty',
					'birthday': '12.09.2018'
				},
				{
					'id': 2,
					'name': 'asdfgh',
					'birthday': '12.12.2010'
				}
			]".

Definition durationText : string := js
"{
		'id': 1,
		'name': 'qwerty',
		'birthday': '12.09.2018',
		'to_pay_in': '30m'
	}".

Definition nicknamesText : string := js
"{
		'id': 1,
		'name': 'qwerty',
		'birthday': '12.09.2018',
		'to_pay_in': '30m',
		'nicknames': [
			'The Most Brilliant',
			'Mr Awesome',
			'Strange Guy'
		]
	}".

Definition unquotedKeyText : string := js
"{
				qwe: 'qwe'
			}".

(** [n + 1] arrays inside one another, the innermost empty. *)
Fixpoint nestedArrays (n : nat) : string :=
  match n with
  | O => "[]"
  | S n => "[" +:+ nestedArrays n +:+ "]"
  end.

(** The object [{"a":v}] for the [n + 1] arrays [v]: a text nested [n + 2]
    deep. *)
Definition deepObject (n : nat) : string :=
  String "{" (String GoJSON.dquote ("a" +:+ String GoJSON.dquote
    (":" +:+ nestedArrays n +:+ "}"))).

(** With 10000 arrays inside one another, the text is nested 10001 deep; with
    9999 of them, 10000 deep. *)
Definition tooDeepText : string := deepObject (Z.to_nat 9999).
Definition deepestText : string := deepObject (Z.to_nat 9998).

(** The map of a text that parses, and the empty map otherwise. *)
Definition documentOf (s : string) : gmap string (option string) :=
  match GoJSON.unmarshalMap s with
  | inr m => m
  | inl _ => ∅
  end.

(** A handle for the test document, and a world with nothing open. *)
Definition testHandle : Json.Config := Json.configOf (documentOf personText).
Definition emptyWorld : Json.World := Json.mkWorld 0 [] [] [].

(** ** Predicates on outcomes, documents and runs

    The shapes that the properties of the accessors, of the listener and of
    the watch are stated with. *)

(** The kinds of error the decoder and the parsers of [time] return. *)
Definition isTypeError (e : error) : bool :=
  match e with
  | UnmarshalTypeError _ _ => true
  | _ => false
  end.

Definition isParseError (e : error) : bool :=
  match e with
  | ParseError _ _ _ => true
  | _ => false
  end.

Definition isDurationError (e : error) : bool :=
  match e with
  | DurationError _ => true
  | _ => false
  end.

(** No raw value of the document is the text [null]: [json.Unmarshal] stores
    a nil pointer for it. *)
Definition docNoNull (m : gmap string (option string)) : Prop :=
  ∀ key raw, m !! key = Some (Some raw) → GoJSON.topLevel raw ≠ Some "n"%char.

(** The text kept for a member that is not [null] does not begin with [n]. *)
Definition rawsNoNull (ms : list (string * string * GoJSON.value)) : Prop :=
  Forall (λ m, m.2 = GoJSON.Null ∨ GoJSON.topLevel m.1.2 ≠ Some "n"%char) ms.

(** What a getter may return on a document: a value for a key that holds a
    raw value; the error for an absent key, or an error of the decoding,
    which [lib] recognises; and the panic for a key that holds a nil
    pointer. *)
Definition getterOk {A} (lib : error → bool) (key : string)
    (c : gmap string (option string)) (o : outcome A) : Prop :=
  match o with
  | Ret _ => ∃ raw, c !! key = Some (Some raw)
  | Fail e =>
      (c !! key = None ∧ e = Json.keyNotFound key) ∨
      ((∃ raw, c !! key = Some (Some raw)) ∧ lib e = true)
  | Panic p => p = NilDereference ∧ c !! key = Some None
  end.

(** What a call on a section may return: a result that is [found] for the
    raw value of the key; the error that names the key for an absent one, or
    an error for a raw value that is [refused]; and the panic for a nil
    pointer. *)
Definition sectionOk {A} (key : string) (c : gmap string (option string))
    (found : string → A → Prop) (refused : string → error → Prop)
    (o : outcome A) : Prop :=
  match o with
  | Ret a => ∃ raw, c !! key = Some (Some raw) ∧ found raw a
  | Fail e =>
      (c !! key = None ∧ e = Json.sectionNotPresent key) ∨
      (∃ raw, c !! key = Some (Some raw) ∧ refused raw e)
  | Panic p => p = NilDereference ∧ c !! key = Some None
  end.

(** [MustGet] against [Get]: the same value; the default where [MustGet]
    panics with an error; the same panic otherwise. *)
Definition mustAgrees {A} (must : prog A) (get : A → prog A)
    (c : gmap string (option string)) : Prop :=
  match run must c with
  | Ret v => ∀ d, run (get d) c = Ret v
  | Panic (PanicError e) => ∀ d, run (get d) c = Ret d
  | Panic x => ∀ d, run (get d) c = Panic x
  | Fail _ => False
  end.

(** The read locks left by a typed getter entered with [readers] of them:
    one more when the key holds a nil pointer. *)
Definition locksLeft (key : string) (c : gmap string (option string)) (readers : nat) : nat :=
  match c !! key with
  | Some None => S readers
  | _ => readers
  end.

(** [p] returns, while the listener stores, what it returns alone on one of
    the documents. *)
Definition atomic {A} (p : prog A) : Prop :=
  ∀ reloads c, ∃ c', c' ∈ documents c reloads ∧ run_during p reloads 0 c = run p c'.

(** The same, or [p] panics on a nil pointer. *)
Definition atomicOrNil {A} (p : prog A) : Prop :=
  ∀ reloads c,
    (∃ c', c' ∈ documents c reloads ∧ run_during p reloads 0 c = run p c') ∨
    run_during p reloads 0 c = Panic NilDereference.

(** The document that a load without the lock finds: the one the listener
    stores in its turn before the load, if it stores one. *)
Definition loaded (reloads : list (option (gmap string (option string))))
    (c : gmap string (option string)) : gmap string (option string) :=
  match reloads with
  | Some newData :: _ => newData
  | _ => c
  end.

(** The critical section of the listener for one new document. *)
Definition swap (newData : gmap string (option string)) : list Json.effect :=
  [Json.Lock; Json.Store newData; Json.Unlock].

(** A tick of [ts] delivered [newData]: a write event for which
    [ioutil.ReadFile] returned a text that [json.Unmarshal] decodes to it. *)
Definition delivered `{Decoder} (ts : list Json.tick)
    (newData : gmap string (option string)) : Prop :=
  ∃ op data, In (Json.Event op (inr data)) ts ∧ Json.isWrite op = true ∧
             unmarshal_map data = inr newData.

(** The stores the listener can make before the receiver of [watchC] takes
    a value: one while it waits in the [select], none after. *)
Definition credit (l : Json.Listener) : nat :=
  match Json.at_pc l with
  | Json.AtSelect => 1
  | _ => 0
  end.

(** What [c.watcher.Close()] returned, as the result of [StopWatching]. *)
Definition closeResult (closeErr : option error) : outcome unit :=
  match closeErr with
  | Some err => Fail err
  | None => Ret tt
  end.

(** The flag [isBeingWatched] holds 0 or 1. *)
Definition flagOk (h : Json.Config) : Prop :=
  Json.isBeingWatched h = 0 ∨ Json.isBeingWatched h = 1.

(** Two calls that return handles end alike: with the same document, the
    same error or the same panic. *)
Definition sameSection {A B} (docA : A → gmap string (option string))
    (docB : B → gmap string (option string)) (o1 : outcome A) (o2 : outcome B) : Prop :=
  match o1, o2 with
  | Ret a, Ret b => docA a = docB b
  | Fail e1, Fail e2 => e1 = e2
  | Panic p1, Panic p2 => p1 = p2
  | _, _ => False
  end.

(** * Properties *)

(** ** The tests of [json_test.go]

    The model returns what the tests of the package expect. *)

Example TestNew :
  is_inr (Json.newConf personText) = true ∧
  is_inr (Json.newConf personsArrayText) = false ∧
  is_inr (Json.newConf unquotedKeyText) = false.
Proof. repeat split; vm_compute; reflexivity. Qed.

Example TestSection :
  is_Ret (run (Json.Section "address") (documentOf personText)) = true.
Proof. vm_compute. reflexivity. Qed.

Example TestGetString :
  run (Json.getString "name") (documentOf personText) = Ret "qwerty".
Proof. vm_compute. reflexivity. Qed.

Example TestGetInt :
  run (Json.getInt "id") (documentOf personText) = Ret 1.
Proof. vm_compute. reflexivity. Qed.

Example TestGetTime :
  run (Json.getTime "birthday") (documentOf personText) = Ret (Date 2018 9 12).
Proof. vm_compute. reflexivity. Qed.

Example TestGetDuration :
  run (Json.getDuration "to_pay_in") (documentOf durationText)
    = Ret (30 * 60 * 1000000000).
Proof. vm_compute. reflexivity. Qed.

Example TestGetStringSlice :
  run (Json.getStringSlice "nicknames") (documentOf nicknamesText)
    = Ret ["The Most Brilliant"; "Mr Awesome"; "Strange Guy"].
Proof. vm_compute. reflexivity. Qed.

(** ** Running accessors on a fixed document *)

Lemma run_bind {A B} (f : A → prog B) (p : prog A) c :
  run (p ≫= f) c =
  match run p c with
  | Ret a => run (f a) c
  | Fail e => Fail e
  | Panic x => Panic x
  end.
Proof.
  unfold mbind, prog_mbind.
  induction p as [[a|e|x]|k IH|k IH|k IH|k IH]; simpl; auto.
Qed.

Lemma run_or_default {A} (p : prog A) (d : A) c :
  run (or_default p d) c =
  match run p c with
  | Ret a => Ret a
  | Fail _ => Ret d
  | Panic x => Panic x
  end.
Proof. induction p as [[a|e|x]|k IH|k IH|k IH|k IH]; simpl; auto. Qed.

Lemma run_or_panic {A} (p : prog A) c :
  run (or_panic p) c =
  match run p c with
  | Ret a => Ret a
  | Fail e => Panic (PanicError e)
  | Panic x => Panic x
  end.
Proof. induction p as [[a|e|x]|k IH|k IH|k IH|k IH]; simpl; auto. Qed.

Lemma has_key_true c key : has_key c key = true ↔ is_Some (c !! key).
Proof. unfold has_key. apply bool_decide_eq_true. Qed.

Lemma has_key_false c key : has_key c key = false ↔ c !! key = None.
Proof.
  unfold has_key. rewrite bool_decide_eq_false. split.
  - intros Hn. destruct (c !! key) eqn:E; [|done]. exfalso. apply Hn. eauto.
  - intros ->. by intros [? ?].
Qed.

Section Accessors.
Context `{Decoder}.

Lemma Json_run_getValue {A} (unmarshal : string → result A) key c :
  run (Json.getValue unmarshal key) c =
  lookup_outcome c key (Fail (Json.keyNotFound key)) (λ raw, decoded (unmarshal raw)).
Proof.
  unfold Json.getValue, lookup_outcome, index. simpl.
  destruct (has_key c key) eqn:Hk; simpl.
  - apply has_key_true in Hk as [p Hp]. rewrite Hp. simpl.
    destruct p as [raw|]; simpl; [|done].
    destruct (unmarshal raw); done.
  - apply has_key_false in Hk. by rewrite Hk.
Qed.

Lemma Json_run_Section key c :
  run (Json.Section key) c =
  lookup_outcome c key (Fail (Json.sectionNotPresent key))
    (λ raw, decoded (Json.newConf raw)).
Proof.
  unfold Json.Section, lookup_outcome, index, Json.newConf. simpl.
  destruct (has_key c key) eqn:Hk; simpl.
  - apply has_key_true in Hk as [p Hp]. rewrite Hp. simpl.
    destruct p as [raw|]; simpl; [|done].
    destruct (unmarshal_map raw); done.
  - apply has_key_false in Hk. by rewrite Hk.
Qed.

Lemma Json_run_SectionAsJSON key c :
  run (Json.SectionAsJSON key) c =
  lookup_outcome c key (Fail (Json.sectionNotPresent key)) Ret.
Proof.
  unfold Json.SectionAsJSON, lookup_outcome, index. simpl.
  destruct (has_key c key) eqn:Hk; simpl.
  - apply has_key_true in Hk as [p Hp]. rewrite Hp. simpl.
    by destruct p as [raw|].
  - apply has_key_false in Hk. by rewrite Hk.
Qed.

Lemma Legacy_run_getValue {A} (unmarshal : string → result A) key c :
  run (LegacyJson.getValue unmarshal key) c =
  lookup_outcome c key (Panic NilDereference) (λ raw, decoded (unmarshal raw)).
Proof.
  unfold LegacyJson.getValue, lookup_outcome, index. simpl.
  destruct (c !! key) as [[raw|]|]; simpl; try done.
  destruct (unmarshal raw); done.
Qed.

Lemma Legacy_run_Section key c :
  run (LegacyJson.Section key) c =
  lookup_outcome c key (Panic NilDereference) (λ raw, decoded (LegacyJson.new raw)).
Proof.
  unfold LegacyJson.Section, lookup_outcome, index, LegacyJson.new. simpl.
  destruct (c !! key) as [[raw|]|]; simpl; try done.
  destruct (unmarshal_map raw); done.
Qed.

(** In [json/json.go] a defaulting accessor returns the default for an
    absent key, and for a value that does not decode. *)
Lemma Json_Get_absent {A} (unmarshal : string → result A) key (d : A) c :
  c !! key = None →
  run (or_default (Json.getValue unmarshal key) d) c = Ret d.
Proof.
  intros Hk. rewrite run_or_default, Json_run_getValue.
  unfold lookup_outcome. by rewrite Hk.
Qed.

Lemma Json_Get_present {A} (unmarshal : string → result A) key (d : A) c raw :
  c !! key = Some (Some raw) →
  run (or_default (Json.getValue unmarshal key) d) c =
  Ret (match unmarshal raw with inr v => v | inl _ => d end).
Proof.
  intros Hk. rewrite run_or_default, Json_run_getValue.
  unfold lookup_outcome. rewrite Hk. by destruct (unmarshal raw).
Qed.

(** It panics exactly on a key that holds a nil pointer. *)
Lemma Json_Get_total_iff {A} (unmarshal : string → result A) key (d : A) c :
  is_Ret (run (or_default (Json.getValue unmarshal key) d) c) = true ↔
  c !! key ≠ Some None.
Proof.
  rewrite run_or_default, Json_run_getValue. unfold lookup_outcome.
  destruct (c !! key) as [[raw|]|]; simpl.
  - destruct (unmarshal raw); simpl; split; congruence.
  - split; congruence.
  - split; congruence.
Qed.

End Accessors.

(** ** The parser and the grammar *)

Section ParserCorrect.
Import GoJSON.

Lemma sapp_cons ch (s t : string) : String ch s +:+ t = String ch (s +:+ t).
Proof. reflexivity. Qed.
Lemma sapp_nil_l (t : string) : EmptyString +:+ t = t.
Proof. reflexivity. Qed.
Lemma sapp_nil_r (s : string) : s +:+ EmptyString = s.
Proof. induction s as [|ch s IH]; [done|]. by rewrite sapp_cons, IH. Qed.
Lemma sapp_assoc (a b c : string) : (a +:+ b) +:+ c = a +:+ (b +:+ c).
Proof. induction a as [|ch a IH]; [done|]. by rewrite !sapp_cons, IH. Qed.
Lemma slength_app (a b : string) :
  String.length (a +:+ b) = (String.length a + String.length b)%nat.
Proof. induction a as [|ch a IH]; [done|]. rewrite sapp_cons. simpl. by rewrite IH. Qed.

Ltac str_norm := repeat (progress rewrite ?sapp_assoc, ?sapp_cons, ?sapp_nil_l).

Lemma code_inj a b : code a = code b → a = b.
Proof.
  unfold code. intros E. rewrite <- (ascii_N_embedding a), <- (ascii_N_embedding b).
  by rewrite E.
Qed.

Lemma code_eqb a b : (code a =? code b)%N = true → a = b.
Proof. intros E. apply N.eqb_eq in E. by apply code_inj. Qed.

Lemma stripPrefix_Some lit : ∀ s r, stripPrefix lit s = Some r → s = lit +:+ r.
Proof.
  induction lit as [|a lit IH]; intros s r; simpl.
  - by intros [= ->].
  - destruct s as [|b s]; [done|].
    destruct (code a =? code b)%N eqn:E; [|done].
    intros Hs. apply code_eqb in E as ->. rewrite sapp_cons. f_equal. by apply IH.
Qed.

Lemma skipSpace_ws w s : jws w → skipSpace (w +:+ s) = skipSpace s.
Proof. induction 1 as [|ch w Hch Hw IH]; [done|]. rewrite sapp_cons. simpl. by rewrite Hch. Qed.

Lemma skipSpace_nonspace ch r : isSpace ch = false → skipSpace (String ch r) = String ch r.
Proof. intros E. simpl. by rewrite E. Qed.

Lemma skipSpace_sound s : ∃ w, s = w +:+ skipSpace s ∧ jws w.
Proof.
  induction s as [|ch s (w & Hs & Hw)]; [exists EmptyString; split; [done|constructor]|].
  simpl. destruct (isSpace ch) eqn:E.
  - exists (String ch w). rewrite sapp_cons, <- Hs. split; [done|by constructor].
  - exists EmptyString. split; [done|constructor].
Qed.

Lemma scanDigits_sound s : ∀ d r, scanDigits s = (d, r) → s = d +:+ r ∧ allDigits d = true ∧ nondigit r.
Proof.
  induction s as [|ch s IH]; intros d r; simpl.
  - by intros [= <- <-].
  - destruct (isDigit ch) eqn:E.
    + destruct (scanDigits s) as [d' r'] eqn:E'. intros [= <- <-].
      destruct (IH d' r' eq_refl) as (-> & Hd & Hr). rewrite sapp_cons.
      simpl. rewrite E, Hd. done.
    + intros [= <- <-]. simpl. by rewrite E.
Qed.

Lemma scanDigits_complete d : ∀ r, allDigits d = true → nondigit r → scanDigits (d +:+ r) = (d, r).
Proof.
  induction d as [|ch d IH]; intros r Hd Hr.
  - rewrite sapp_nil_l. destruct r as [|a r]; [done|]. simpl in *. by rewrite Hr.
  - simpl in Hd. apply andb_true_iff in Hd as [Hc Hd]. rewrite sapp_cons. simpl.
    rewrite Hc. by rewrite (IH r Hd Hr).
Qed.

Lemma code_is a n : (code a =? n)%N = true → a = ascii_of_N n.
Proof.
  intros E. apply N.eqb_eq in E. unfold code in E.
  by rewrite <- (ascii_N_embedding a), E.
Qed.

Lemma isHex_hexVal h : isHex h = true ↔ is_Some (hexVal h).
Proof. unfold isHex. destruct (hexVal h); split; try done; eauto; by intros [? ?]. Qed.

Lemma scanString_sound n : ∀ s q r,
  (String.length s <= n)%nat → scanString s = Some (q, r) →
  s = q +:+ String dquote r ∧ jchars q.
Proof.
  induction n as [|n IH]; intros s q r Hlen.
  { destruct s; [done|simpl in Hlen; lia]. }
  destruct s as [|ch s]; [done|]. simpl in Hlen. simpl.
  destruct (code ch =? 34)%N eqn:E34.
  { intros [= <- <-]. apply code_is in E34 as ->. split; [done|constructor]. }
  destruct (code ch =? 92)%N eqn:E92.
  { apply code_is in E92 as ->.
    destruct s as [|e s]; [done|]. simpl in Hlen.
    destruct (isEscape e) eqn:Ee.
    { destruct (scanString s) as [[q' r']|] eqn:Es; [|done]. intros [= <- <-].
      destruct (IH s q' r' ltac:(lia) Es) as [-> Hq].
      split; [done|]. by apply jc_escape. }
    destruct (code e =? 117)%N eqn:Eu; [|done].
    apply code_is in Eu as ->.
    destruct s as [|h1 [|h2 [|h3 [|h4 s]]]]; try done. simpl in Hlen.
    destruct (hexVal h1) eqn:H1; [|done].
    destruct (hexVal h2) eqn:H2; [|done].
    destruct (hexVal h3) eqn:H3; [|done].
    destruct (hexVal h4) eqn:H4; [|done].
    destruct (scanString s) as [[q' r']|] eqn:Es; [|done]. intros [= <- <-].
    destruct (IH s q' r' ltac:(lia) Es) as [-> Hq].
    split; [done|]. apply jc_unicode; auto; unfold isHex; by rewrite ?H1, ?H2, ?H3, ?H4. }
  destruct (code ch <? 32)%N eqn:E32; [done|].
  destruct (scanString s) as [[q' r']|] eqn:Es; [|done]. intros [= <- <-].
  destruct (IH s q' r' ltac:(lia) Es) as [-> Hq].
  split; [done|]. apply jc_plain; auto.
  - apply N.ltb_ge in E32. done.
  - by apply N.eqb_neq.
  - by apply N.eqb_neq.
Qed.

Lemma scanString_complete q r : jchars q → scanString (q +:+ String dquote r) = Some (q, r).
Proof.
  induction 1 as [|ch q H32 H34 H92 Hq IH|e q He Hq IH|h1 h2 h3 h4 q H1 H2 H3 H4 Hq IH].
  - reflexivity.
  - rewrite sapp_cons. simpl.
    apply N.eqb_neq in H34, H92. rewrite H34, H92.
    apply N.ltb_ge in H32. rewrite H32. by rewrite IH.
  - rewrite !sapp_cons. simpl. change (code backslash =? 34)%N with false.
    change (code backslash =? 92)%N with true. cbv iota. rewrite He. by rewrite IH.
  - rewrite !sapp_cons. simpl. change (code backslash =? 34)%N with false.
    change (code backslash =? 92)%N with true. cbv iota.
    change (isEscape "u") with false. change (code "u" =? 117)%N with true. cbv iota.
    apply isHex_hexVal in H1 as [? ->], H2 as [? ->], H3 as [? ->], H4 as [? ->].
    by rewrite IH.
Qed.

Ltac char_facts :=
  unfold isDigit, isDigit19, isSpace in *;
  repeat match goal with
  | H : (_ && _) = true |- _ => apply andb_true_iff in H as [? ?]
  | H : (_ || _) = true |- _ => apply orb_true_iff in H as [?|?]
  | H : (_ || _) = false |- _ => apply orb_false_iff in H as [? ?]
  | H : (_ <=? _)%N = true |- _ => apply N.leb_le in H
  | H : (_ <=? _)%N = false |- _ => apply N.leb_gt in H
  | H : (_ =? _)%N = true |- _ => apply N.eqb_eq in H
  | H : (_ =? _)%N = false |- _ => apply N.eqb_neq in H
  | H : (_ <? _)%N = true |- _ => apply N.ltb_lt in H
  | H : (_ <? _)%N = false |- _ => apply N.ltb_ge in H
  end.

Ltac char_solve :=
  char_facts;
  repeat match goal with
  | |- (_ && _) = true => apply andb_true_iff; split
  | |- (_ || _) = false => apply orb_false_iff; split
  | |- (_ && _) = false => apply andb_false_iff
  | |- (_ <=? _)%N = true => apply N.leb_le
  | |- (_ <=? _)%N = false => apply N.leb_gt
  | |- (_ =? _)%N = true => apply N.eqb_eq
  | |- (_ =? _)%N = false => apply N.eqb_neq
  | |- (_ <? _)%N = true => apply N.ltb_lt
  | |- (_ <? _)%N = false => apply N.ltb_ge
  end; try lia.

Lemma scanInt_sound s i r : scanInt s = Some (i, r) → s = i +:+ r ∧ jint i.
Proof.
  unfold scanInt. destruct s as [|ch s]; [done|].
  destruct (code ch =? 48)%N eqn:E0.
  - intros [= <- <-]. apply code_is in E0 as ->. split; [done|constructor].
  - destruct (isDigit19 ch) eqn:E19; [|done].
    destruct (scanDigits s) as [d r'] eqn:Ed. intros [= <- <-].
    apply scanDigits_sound in Ed as (-> & Hd & _). split; [done|by constructor].
Qed.

Lemma scanFrac_sound s f r : scanFrac s = Some (f, r) → s = f +:+ r ∧ jfrac f.
Proof.
  unfold scanFrac. destruct s as [|ch s].
  - intros [= <- <-]. split; [done|constructor].
  - destruct (code ch =? 46)%N eqn:E.
    + apply code_is in E as ->.
      destruct (scanDigits s) as [d r'] eqn:Ed.
      apply scanDigits_sound in Ed as (-> & Hd & _).
      destruct d as [|a d]; [done|]. intros [= <- <-].
      split; [done|]. constructor. split; done.
    + intros [= <- <-]. split; [done|constructor].
Qed.

Lemma scanExp_sound s e r : scanExp s = Some (e, r) → s = e +:+ r ∧ jexp e.
Proof.
  unfold scanExp. destruct s as [|ch s].
  - intros [= <- <-]. split; [done|constructor].
  - destruct ((code ch =? 101) || (code ch =? 69))%N eqn:E.
    + assert (Hch : ch = "e"%char ∨ ch = "E"%char).
      { apply orb_true_iff in E as [E|E]; apply code_is in E; auto. }
      assert (Hsg : ∃ sg r1, s = sg +:+ r1 ∧ (sg = EmptyString ∨ sg = "+" ∨ sg = "-") ∧
                match s with
                | String sg0 r' =>
                    if ((code sg0 =? 43) || (code sg0 =? 45))%N
                    then (String sg0 EmptyString, r') else (EmptyString, s)
                | EmptyString => (EmptyString, s)
                end = (sg, r1)).
      { destruct s as [|sg0 r']; [exists EmptyString, EmptyString; auto|].
        destruct ((code sg0 =? 43) || (code sg0 =? 45))%N eqn:Es.
        - exists (String sg0 EmptyString), r'. split; [done|]. split; [|done].
          apply orb_true_iff in Es as [Es|Es]; apply code_is in Es as ->; auto.
        - exists EmptyString, (String sg0 r'). auto. }
      destruct Hsg as (sg & r1 & -> & Hsg & ->).
      destruct (scanDigits r1) as [d r'] eqn:Ed.
      apply scanDigits_sound in Ed as (-> & Hd & _).
      destruct d as [|a d]; [done|]. intros [= <- <-].
      split; [by str_norm|]. constructor; auto. split; done.
    + intros [= <- <-]. split; [done|constructor].
Qed.

Lemma scanNumber_sound s lit r : scanNumber s = Some (lit, r) → s = lit +:+ r ∧ jnumber lit.
Proof.
  unfold scanNumber.
  assert (Hsg : ∃ sg s1, s = sg +:+ s1 ∧ (sg = EmptyString ∨ sg = "-") ∧
            match s with
            | String ch r0 =>
                if (code ch =? 45)%N then (String ch EmptyString, r0) else (EmptyString, s)
            | EmptyString => (EmptyString, s)
            end = (sg, s1)).
  { destruct s as [|ch r0]; [exists EmptyString, EmptyString; auto|].
    destruct (code ch =? 45)%N eqn:E.
    - apply code_is in E as ->. exists "-", r0. auto.
    - exists EmptyString, (String ch r0). auto. }
  destruct Hsg as (sg & s1 & -> & Hsg & ->).
  destruct (scanInt s1) as [[i s2]|] eqn:Ei; [|done].
  destruct (scanFrac s2) as [[f s3]|] eqn:Ef; [|done].
  destruct (scanExp s3) as [[e s4]|] eqn:Ee; [|done].
  intros [= <- <-].
  apply scanInt_sound in Ei as [-> Hi].
  apply scanFrac_sound in Ef as [-> Hf].
  apply scanExp_sound in Ee as [-> He].
  split; [by str_norm|]. by constructor.
Qed.

Lemma nondigit_stop r : stop r → nondigit r.
Proof. destruct r; [done|]. by intros [? _]. Qed.

Lemma stop_exp e r : jexp e → stop r → e = EmptyString ∨ nondigit (e +:+ r).
Proof.
  intros He Hr. destruct He as [|x sg ds Hx]; [by left|right].
  rewrite sapp_cons. simpl. destruct Hx as [-> | ->]; reflexivity.
Qed.

Lemma scanExp_complete e r : jexp e → stop r → scanExp (e +:+ r) = Some (e, r).
Proof.
  intros He Hr. destruct He as [|x sg ds Hx Hsg [Hne Hds]].
  - rewrite sapp_nil_l. unfold scanExp. destruct r as [|ch r]; [done|].
    destruct Hr as (_ & _ & H1 & H2).
    apply N.eqb_neq in H1, H2. by rewrite H1, H2.
  - rewrite sapp_cons, sapp_assoc. unfold scanExp.
    assert (((code x =? 101) || (code x =? 69))%N = true) as ->.
    { destruct Hx as [-> | ->]; reflexivity. }
    destruct ds as [|d ds]; [done|]. simpl in Hds.
    apply andb_true_iff in Hds as [Hd Hds].
    assert (match sg +:+ String d ds +:+ r with
            | String sg0 r' =>
                if ((code sg0 =? 43) || (code sg0 =? 45))%N
                then (String sg0 EmptyString, r') else (EmptyString, sg +:+ String d ds +:+ r)
            | EmptyString => (EmptyString, sg +:+ String d ds +:+ r)
            end = (sg, String d ds +:+ r)) as ->.
    { destruct Hsg as [-> | [-> | ->]]; try reflexivity.
      rewrite sapp_nil_l, sapp_cons.
      assert (((code d =? 43) || (code d =? 45))%N = false) as ->; [|done].
      char_solve. }
    rewrite (scanDigits_complete (String d ds) r); [done| |by apply nondigit_stop].
    simpl. by rewrite Hd, Hds.
Qed.

Lemma scanFrac_complete f e r :
  jfrac f → jexp e → stop r → scanFrac (f +:+ e +:+ r) = Some (f, e +:+ r).
Proof.
  intros Hf He Hr. destruct Hf as [|ds [Hne Hds]].
  - rewrite sapp_nil_l. unfold scanFrac.
    destruct He as [|x sg ds Hx].
    + rewrite sapp_nil_l. destruct r as [|ch r]; [done|].
      destruct Hr as (_ & H1 & _). apply N.eqb_neq in H1. by rewrite H1.
    + rewrite sapp_cons.
      assert ((code x =? 46)%N = false) as ->; [|done].
      destruct Hx as [-> | ->]; reflexivity.
  - rewrite sapp_cons. unfold scanFrac. change (code "." =? 46)%N with true. cbv iota.
    rewrite (scanDigits_complete ds (e +:+ r)); [|done|].
    + destruct ds; [done|done].
    + destruct (stop_exp e r He Hr) as [-> | ?]; [|done].
      rewrite sapp_nil_l. by apply nondigit_stop.
Qed.

Lemma nondigit_frac f e r : jfrac f → jexp e → stop r → nondigit (f +:+ e +:+ r).
Proof.
  intros Hf He Hr. destruct Hf as [|ds _].
  - rewrite sapp_nil_l. destruct (stop_exp e r He Hr) as [-> | ?]; [|done].
    rewrite sapp_nil_l. by apply nondigit_stop.
  - rewrite sapp_cons. reflexivity.
Qed.

Lemma scanInt_complete i f e r :
  jint i → jfrac f → jexp e → stop r →
  scanInt (i +:+ f +:+ e +:+ r) = Some (i, f +:+ e +:+ r).
Proof.
  intros Hi Hf He Hr. destruct Hi as [|ch ds Hch Hds].
  - reflexivity.
  - rewrite sapp_cons. unfold scanInt.
    assert ((code ch =? 48)%N = false) as -> by char_solve.
    rewrite Hch.
    by rewrite (scanDigits_complete ds _ Hds (nondigit_frac f e r Hf He Hr)).
Qed.

Lemma jint_head i : jint i → ∃ ch ds, i = String ch ds ∧ isDigit ch = true.
Proof.
  intros [|ch ds Hch _]; [by exists "0"%char, EmptyString|].
  exists ch, ds. split; [done|]. char_solve.
Qed.

Lemma scanNumber_complete lit r : jnumber lit → stop r → scanNumber (lit +:+ r) = Some (lit, r).
Proof.
  intros [sg i f e Hsg Hi Hf He] Hr. rewrite !sapp_assoc. unfold scanNumber.
  assert (match sg +:+ i +:+ f +:+ e +:+ r with
          | String ch r0 =>
              if (code ch =? 45)%N then (String ch EmptyString, r0)
              else (EmptyString, sg +:+ i +:+ f +:+ e +:+ r)
          | EmptyString => (EmptyString, sg +:+ i +:+ f +:+ e +:+ r)
          end = (sg, i +:+ f +:+ e +:+ r)) as ->.
  { destruct Hsg as [-> | ->]; [|reflexivity].
    rewrite sapp_nil_l. destruct (jint_head i Hi) as (ch & ds & -> & Hch).
    rewrite sapp_cons.
    assert ((code ch =? 45)%N = false) as -> by char_solve. done. }
  rewrite (scanInt_complete i f e r Hi Hf He Hr).
  rewrite (scanFrac_complete f e r Hf He Hr).
  by rewrite (scanExp_complete e r He Hr).
Qed.

Lemma substring_prefix p : ∀ r, substring 0 (String.length p) (p +:+ r) = p.
Proof.
  induction p as [|ch p IH]; intros r.
  - rewrite sapp_nil_l. by destruct r.
  - rewrite sapp_cons. simpl. by rewrite IH.
Qed.

Lemma consumed_app p r : consumed (p +:+ r) r = p.
Proof.
  unfold consumed. rewrite slength_app.
  replace (String.length p + String.length r - String.length r)%nat
    with (String.length p) by lia.
  apply substring_prefix.
Qed.

(** Forgetting the count, and relaxing it. *)
Lemma within_jvalue :
  (∀ d p, jvalueWithin d p → jvalue p) ∧
  (∀ d p, jelementsWithin d p → jelements p) ∧
  (∀ d p, jmembersWithin d p → jmembers p).
Proof. apply jvalueWithin_mutind; intros; by constructor. Qed.

Lemma within_mono :
  (∀ d p, jvalueWithin d p → ∀ d', (d ≤ d')%nat → jvalueWithin d' p) ∧
  (∀ d p, jelementsWithin d p → ∀ d', (d ≤ d')%nat → jelementsWithin d' p) ∧
  (∀ d p, jmembersWithin d p → ∀ d', (d ≤ d')%nat → jmembersWithin d' p).
Proof.
  apply jvalueWithin_mutind; intros;
    try (by constructor);
    try (destruct d' as [|d']; [lia|]; constructor; auto; apply H1 || apply H0; lia);
    constructor; auto.
Qed.

Lemma jvalueWithin_le d d' p : jvalueWithin d p → (d ≤ d')%nat → jvalueWithin d' p.
Proof. intros Hp Hd. by apply (proj1 within_mono d p). Qed.

(** No value nests deeper than it is long. *)
Ltac len_norm := repeat first [rewrite slength_app | progress cbn [String.length]].

Lemma jvalue_within_length :
  (∀ p, jvalue p → jvalueWithin (String.length p) p) ∧
  (∀ p, jelements p → jelementsWithin (String.length p) p) ∧
  (∀ p, jmembers p → jmembersWithin (String.length p) p).
Proof.
  apply jvalue_mutind.
  - constructor.
  - constructor.
  - constructor.
  - intros lit Hl. by constructor.
  - intros q Hq. by constructor.
  - intros w Hw.
    replace (String.length ("[" +:+ w +:+ "]")) with (S (String.length (w +:+ "]")))
      by (by rewrite !slength_app).
    by constructor.
  - intros w es Hw Hes IH.
    replace (String.length ("[" +:+ w +:+ es)) with (S (String.length (w +:+ es)))
      by (by rewrite !slength_app).
    constructor; [done|]. apply (proj1 (proj2 within_mono) _ _ IH).
    len_norm. lia.
  - intros w Hw.
    replace (String.length ("{" +:+ w +:+ "}")) with (S (String.length (w +:+ "}")))
      by (by rewrite !slength_app).
    by constructor.
  - intros w ms Hw Hms IH.
    replace (String.length ("{" +:+ w +:+ ms)) with (S (String.length (w +:+ ms)))
      by (by rewrite !slength_app).
    constructor; [done|]. apply (proj2 (proj2 within_mono) _ _ IH).
    len_norm. lia.
  - intros v w Hv IHv Hw. constructor; [|done].
    apply (jvalueWithin_le _ _ _ IHv). len_norm. lia.
  - intros v w w' es Hv IHv Hw Hw' Hes IHes. constructor; try done.
    + apply (jvalueWithin_le _ _ _ IHv). len_norm. lia.
    + apply (proj1 (proj2 within_mono) _ _ IHes). len_norm. lia.
  - intros k w1 w2 v w3 Hk Hw1 Hw2 Hv IHv Hw3. constructor; try done.
    apply (jvalueWithin_le _ _ _ IHv). len_norm. lia.
  - intros k w1 w2 v w3 w4 ms Hk Hw1 Hw2 Hv IHv Hw3 Hw4 Hms IHms.
    constructor; try done.
    + apply (jvalueWithin_le _ _ _ IHv). len_norm. lia.
    + apply (proj2 (proj2 within_mono) _ _ IHms). len_norm. lia.
Qed.

Lemma rawsWithin_rawsOk d ms : rawsWithin d ms → rawsOk ms.
Proof.
  unfold rawsWithin, rawsOk. intros Hms. eapply Forall_impl; [exact Hms|].
  intros m Hm. by apply (proj1 within_jvalue d).
Qed.

Lemma rawsWithin_le d d' ms : rawsWithin d ms → (d ≤ d')%nat → rawsWithin d' ms.
Proof.
  unfold rawsWithin. intros Hms Hd. eapply Forall_impl; [exact Hms|].
  intros m Hm. by apply (jvalueWithin_le d).
Qed.

Lemma parse_sound n :
  (∀ d s v r, parseValue n d s = Some (v, r) →
     ∃ p, s = p +:+ r ∧ jvalueWithin d p ∧ valueWithin d v) ∧
  (∀ d s ms r, parseMembers n d s = Some (ms, r) →
     ∃ p, s = p +:+ r ∧ jmembersWithin d p ∧ rawsWithin d ms) ∧
  (∀ d s vs r, parseElements n d s = Some (vs, r) →
     ∃ p, s = p +:+ r ∧ jelementsWithin d p).
Proof.
  induction n as [|n (IHv & IHm & IHe)]; [repeat split; intros; discriminate|].
  repeat split.
  - (* values *)
    intros d s v r. cbn [parseValue]. destruct s as [|ch r0]; [done|].
    destruct (code ch =? 123)%N eqn:Eo.
    { apply code_is in Eo as ->. destruct d as [|d]; [done|].
      destruct (skipSpace_sound r0) as (w & Hr0 & Hw).
      destruct (skipSpace r0) as [|ch1 r1] eqn:Es; [done|].
      destruct (code ch1 =? 125)%N eqn:Ec.
      - apply code_is in Ec as ->. intros [= <- <-].
        exists ("{" +:+ w +:+ "}"). rewrite Hr0.
        split; [by str_norm|split; [by constructor|constructor]].
      - destruct (parseMembers n d (String ch1 r1)) as [[ms rest]|] eqn:Em; [|done].
        intros [= <- <-]. destruct (IHm _ _ _ _ Em) as (pm & Hpm & Hm & Hraws).
        exists ("{" +:+ w +:+ pm). rewrite Hr0, Hpm.
        split; [by str_norm|split; [by constructor|done]]. }
    destruct (code ch =? 91)%N eqn:Ea.
    { apply code_is in Ea as ->. destruct d as [|d]; [done|].
      destruct (skipSpace_sound r0) as (w & Hr0 & Hw).
      destruct (skipSpace r0) as [|ch1 r1] eqn:Es; [done|].
      destruct (code ch1 =? 93)%N eqn:Ec.
      - apply code_is in Ec as ->. intros [= <- <-].
        exists ("[" +:+ w +:+ "]"). rewrite Hr0. split; [by str_norm|split; [by constructor|done]].
      - destruct (parseElements n d (String ch1 r1)) as [[vs rest]|] eqn:Em; [|done].
        intros [= <- <-]. destruct (IHe _ _ _ _ Em) as (pe & Hpe & He).
        exists ("[" +:+ w +:+ pe). rewrite Hr0, Hpe.
        split; [by str_norm|split; [by constructor|done]]. }
    destruct (code ch =? 34)%N eqn:Eq.
    { apply code_is in Eq as ->.
      destruct (scanString r0) as [[q rest]|] eqn:Es; [|done]. intros [= <- <-].
      apply (scanString_sound (String.length r0)) in Es as [-> Hq]; [|done].
      exists (String dquote (q +:+ String dquote EmptyString)).
      split; [by str_norm|split; [by constructor|done]]. }
    destruct (stripPrefix "true" (String ch r0)) as [rest|] eqn:Et.
    { intros [= <- <-]. apply stripPrefix_Some in Et as ->.
      exists "true". split; [done|split; [constructor|done]]. }
    destruct (stripPrefix "false" (String ch r0)) as [rest|] eqn:Ef.
    { intros [= <- <-]. apply stripPrefix_Some in Ef as ->.
      exists "false". split; [done|split; [constructor|done]]. }
    destruct (stripPrefix "null" (String ch r0)) as [rest|] eqn:En.
    { intros [= <- <-]. apply stripPrefix_Some in En as ->.
      exists "null". split; [done|split; [constructor|done]]. }
    destruct (scanNumber (String ch r0)) as [[lit rest]|] eqn:Enum; [|done].
    intros [= <- <-]. apply scanNumber_sound in Enum as [-> Hn].
    exists lit. split; [done|split; [by constructor|done]].
  - (* members *)
    intros d s ms r. cbn [parseMembers]. destruct s as [|ch r0]; [done|].
    destruct (code ch =? 34)%N eqn:Eq; [|done]. apply code_is in Eq as ->.
    destruct (scanString r0) as [[key s1]|] eqn:Ek; [|done].
    apply (scanString_sound (String.length r0)) in Ek as [-> Hk]; [|done].
    destruct (skipSpace_sound s1) as (w1 & Hs1 & Hw1).
    destruct (skipSpace s1) as [|colon s2] eqn:E1; [done|].
    destruct (code colon =? 58)%N eqn:Ecol; [|done]. apply code_is in Ecol as ->.
    destruct (skipSpace_sound s2) as (w2 & Hs2 & Hw2).
    destruct (parseValue n d (skipSpace s2)) as [[v s4]|] eqn:Ev; [|done].
    destruct (IHv _ _ _ _ Ev) as (pv & Hpv & Hv & _).
    destruct (skipSpace_sound s4) as (w3 & Hs4 & Hw3).
    destruct (skipSpace s4) as [|sep s5] eqn:E4; [done|].
    assert (Hraw : consumed (skipSpace s2) s4 = pv).
    { rewrite Hpv. apply consumed_app. }
    destruct (code sep =? 125)%N eqn:Ec.
    { apply code_is in Ec as ->. intros [= <- <-].
      exists (String dquote (key +:+ String dquote
                (w1 +:+ ":" +:+ w2 +:+ pv +:+ w3 +:+ "}"))).
      split; [|split].
      - rewrite Hs1, Hs2, Hpv, Hs4. by str_norm.
      - by constructor.
      - constructor; [|constructor]. simpl. by rewrite Hraw. }
    destruct (code sep =? 44)%N eqn:Ecm; [|done]. apply code_is in Ecm as ->.
    destruct (skipSpace_sound s5) as (w4 & Hs5 & Hw4).
    destruct (parseMembers n d (skipSpace s5)) as [[ms' rest]|] eqn:Em; [|done].
    intros [= <- <-]. destruct (IHm _ _ _ _ Em) as (pm & Hpm & Hm & Hraws).
    exists (String dquote (key +:+ String dquote
              (w1 +:+ ":" +:+ w2 +:+ pv +:+ w3 +:+ "," +:+ w4 +:+ pm))).
    split; [|split].
    + rewrite Hs1, Hs2, Hpv, Hs4, Hs5, Hpm. by str_norm.
    + by constructor.
    + constructor; [|done]. simpl. by rewrite Hraw.
  - (* elements *)
    intros d s vs r. cbn [parseElements].
    destruct (parseValue n d s) as [[v s1]|] eqn:Ev; [|done].
    destruct (IHv _ _ _ _ Ev) as (pv & -> & Hv & _).
    destruct (skipSpace_sound s1) as (w & Hs1 & Hw).
    destruct (skipSpace s1) as [|sep s2] eqn:E1; [done|].
    destruct (code sep =? 93)%N eqn:Ec.
    { apply code_is in Ec as ->. intros [= <- <-].
      exists (pv +:+ w +:+ "]"). split; [rewrite Hs1; by str_norm|by constructor]. }
    destruct (code sep =? 44)%N eqn:Ecm; [|done]. apply code_is in Ecm as ->.
    destruct (skipSpace_sound s2) as (w' & Hs2 & Hw').
    destruct (parseElements n d (skipSpace s2)) as [[vs' rest]|] eqn:Ee; [|done].
    intros [= <- <-]. destruct (IHe _ _ _ _ Ee) as (pe & Hpe & He).
    exists (pv +:+ w +:+ "," +:+ w' +:+ pe).
    split; [rewrite Hs1, Hs2, Hpe; by str_norm|by constructor].
Qed.

(** Equations of the parser. *)
Lemma parseValue_brace_eq n d r0 :
  parseValue (S n) (S d) (String "{" r0) =
  match skipSpace r0 with
  | String ch1 r1 =>
      if (code ch1 =? 125)%N then Some (Object [], r1)
      else match parseMembers n d (String ch1 r1) with
           | Some (ms, rest) => Some (Object ms, rest)
           | None => None
           end
  | EmptyString => None
  end.
Proof. reflexivity. Qed.

Lemma parseValue_bracket_eq n d r0 :
  parseValue (S n) (S d) (String "[" r0) =
  match skipSpace r0 with
  | String ch1 r1 =>
      if (code ch1 =? 93)%N then Some (Array [], r1)
      else match parseElements n d (String ch1 r1) with
           | Some (vs, rest) => Some (Array vs, rest)
           | None => None
           end
  | EmptyString => None
  end.
Proof. reflexivity. Qed.

Lemma parseValue_dquote_eq n d r0 :
  parseValue (S n) d (String dquote r0) =
  match scanString r0 with
  | Some (q, rest) => Some (Str q, rest)
  | None => None
  end.
Proof. reflexivity. Qed.

Lemma parseValue_number_eq n d ch r0 :
  code ch = 45%N ∨ isDigit ch = true →
  parseValue (S n) d (String ch r0) =
  match scanNumber (String ch r0) with
  | Some (lit, rest) => Some (Number lit, rest)
  | None => None
  end.
Proof.
  intros Hch. cbn [parseValue stripPrefix].
  assert ((code ch =? 123)%N = false) as -> by (destruct Hch; char_solve).
  assert ((code ch =? 91)%N = false) as -> by (destruct Hch; char_solve).
  assert ((code ch =? 34)%N = false) as -> by (destruct Hch; char_solve).
  assert ((code "t" =? code ch)%N = false) as ->.
  { change (code "t") with 116%N. destruct Hch; char_solve. }
  assert ((code "f" =? code ch)%N = false) as ->.
  { change (code "f") with 102%N. destruct Hch; char_solve. }
  assert ((code "n" =? code ch)%N = false) as ->.
  { change (code "n") with 110%N. destruct Hch; char_solve. }
  reflexivity.
Qed.

Lemma parseElements_eq n d s :
  parseElements (S n) d s =
  match parseValue n d s with
  | None => None
  | Some (v, s1) =>
      match skipSpace s1 with
      | String sep s2 =>
          if (code sep =? 93)%N then Some ([v], s2)
          else if (code sep =? 44)%N then
            match parseElements n d (skipSpace s2) with
            | Some (vs, rest) => Some (v :: vs, rest)
            | None => None
            end
          else None
      | EmptyString => None
      end
  end.
Proof. reflexivity. Qed.

Lemma parseMembers_eq n d r0 :
  parseMembers (S n) d (String dquote r0) =
  match scanString r0 with
  | None => None
  | Some (key, s1) =>
      match skipSpace s1 with
      | String colon s2 =>
          if (code colon =? 58)%N then
            match parseValue n d (skipSpace s2) with
            | None => None
            | Some (v, s4) =>
                match skipSpace s4 with
                | String sep s5 =>
                    if (code sep =? 125)%N
                    then Some ([(key, consumed (skipSpace s2) s4, v)], s5)
                    else if (code sep =? 44)%N then
                      match parseMembers n d (skipSpace s5) with
                      | Some (ms, rest) =>
                          Some ((key, consumed (skipSpace s2) s4, v) :: ms, rest)
                      | None => None
                      end
                    else None
                | EmptyString => None
                end
            end
          else None
      | EmptyString => None
      end
  end.
Proof. reflexivity. Qed.

Lemma jnumber_head lit :
  jnumber lit → begins (λ ch, code ch = 45%N ∨ isDigit ch = true) lit.
Proof.
  intros [sg i f e Hsg Hi _ _]. destruct Hsg as [-> | ->].
  - destruct (jint_head i Hi) as (ch & ds & -> & Hch).
    exists ch, (ds +:+ f +:+ e). split; [by str_norm|by right].
  - exists "-"%char, (i +:+ f +:+ e). split; [by str_norm|by left].
Qed.

Lemma jvalue_head p : jvalue p → begins valueStart p.
Proof.
  intros [| | |lit Hn|q _|w _|w es _ _|w _|w ms _ _].
  - by exists "n"%char, "ull".
  - by exists "t"%char, "rue".
  - by exists "f"%char, "alse".
  - destruct (jnumber_head lit Hn) as (ch & r & -> & Hch).
    exists ch, r. split; [done|]. unfold valueStart.
    destruct Hch; repeat split; char_solve.
  - by eexists _, _.
  - by exists "["%char, (w +:+ "]").
  - by exists "["%char, (w +:+ es).
  - by exists "{"%char, (w +:+ "}").
  - by exists "{"%char, (w +:+ ms).
Qed.

Lemma jelements_head es : jelements es → begins valueStart es.
Proof.
  intros [v w Hv _|v w w' es' Hv _ _ _];
    destruct (jvalue_head v Hv) as (ch & r & -> & Hch);
    eexists ch, _; (split; [by str_norm|done]).
Qed.

Lemma jmembers_head ms : jmembers ms → ∃ r, ms = String dquote r.
Proof. intros [k w1 w2 v w3|k w1 w2 v w3 w4 ms']; by eexists. Qed.

Lemma skipSpace_value w s : jws w → begins valueStart s → skipSpace (w +:+ s) = s.
Proof.
  intros Hw (ch & r & -> & Hch & _). rewrite skipSpace_ws by done.
  by apply skipSpace_nonspace.
Qed.

Lemma skipSpace_separator w ch r :
  jws w → separator ch → skipSpace (w +:+ String ch r) = String ch r.
Proof.
  intros Hw Hch. rewrite skipSpace_ws by done. apply skipSpace_nonspace.
  destruct Hch as [?|[?|[?|?]]]; char_solve.
Qed.

Lemma stop_code ch r :
  (code ch < 48)%N ∧ code ch ≠ 46%N ∨ code ch = 58%N ∨ code ch = 93%N ∨ code ch = 125%N →
  stop (String ch r).
Proof.
  intros Hch. simpl. unfold isDigit. repeat split; try lia.
  apply andb_false_iff.
  destruct Hch as [[? ?]|[?|[?|?]]]; [left|right..]; char_solve.
Qed.

Lemma stop_ws w r : jws w → stop r → stop (w +:+ r).
Proof.
  intros [|ch w' Hch _] Hr; [done|]. rewrite sapp_cons. apply stop_code.
  left. char_facts; lia.
Qed.

Lemma stop_separator ch r : separator ch → stop (String ch r).
Proof. intros [?|[?|[?|?]]]; apply stop_code; auto; left; lia. Qed.

Lemma stop_jws w : jws w → stop w.
Proof. intros Hw. rewrite <- (sapp_nil_r w). by apply stop_ws. Qed.

Lemma parse_complete :
  (∀ d p, jvalueWithin d p → ∀ n r, (String.length p < n)%nat → stop r →
        ∃ v, parseValue n d (p +:+ r) = Some (v, r)) ∧
  (∀ d p, jelementsWithin d p → ∀ n r, (String.length p < n)%nat →
        ∃ vs, parseElements n d (p +:+ r) = Some (vs, r)) ∧
  (∀ d p, jmembersWithin d p → ∀ n r, (String.length p < n)%nat →
        ∃ ms, parseMembers n d (p +:+ r) = Some (ms, r)).
Proof.
  apply jvalueWithin_mutind.
  - (* null *) intros d [|n] r Hn _; [simpl in Hn; lia|]. eexists. reflexivity.
  - intros d [|n] r Hn _; [simpl in Hn; lia|]. eexists. reflexivity.
  - intros d [|n] r Hn _; [simpl in Hn; lia|]. eexists. reflexivity.
  - (* number *)
    intros d lit Hl [|n] r Hn Hr; [lia|].
    destruct (jnumber_head lit Hl) as (ch & x & -> & Hch).
    rewrite sapp_cons, parseValue_number_eq by done.
    rewrite <- sapp_cons, (scanNumber_complete _ r Hl Hr). eauto.
  - (* string *)
    intros d q Hq [|n] r Hn _; [lia|].
    rewrite sapp_cons, sapp_assoc, sapp_cons, sapp_nil_l, parseValue_dquote_eq.
    rewrite scanString_complete by done. eauto.
  - (* empty array *)
    intros d w Hw [|n] r Hn _; [lia|].
    str_norm. rewrite parseValue_bracket_eq.
    rewrite skipSpace_separator by (done || by left). eauto.
  - (* array *)
    intros d w es Hw Hes IH [|n] r Hn _; [lia|].
    rewrite !slength_app in Hn. simpl in Hn.
    str_norm. rewrite parseValue_bracket_eq.
    apply (proj1 (proj2 within_jvalue)) in Hes.
    destruct (jelements_head es Hes) as (ch & x & -> & Hch).
    rewrite skipSpace_value; [|done|by exists ch, (x +:+ r); rewrite sapp_cons].
    rewrite sapp_cons. destruct Hch as (_ & Hch & _).
    apply N.eqb_neq in Hch. rewrite Hch. rewrite <- sapp_cons.
    destruct (IH n r) as [vs ->]; [lia|]. eauto.
  - (* empty object *)
    intros d w Hw [|n] r Hn _; [lia|].
    str_norm. rewrite parseValue_brace_eq.
    rewrite skipSpace_separator by (done || by right; right; left). eauto.
  - (* object *)
    intros d w ms Hw Hms IH [|n] r Hn _; [lia|].
    rewrite !slength_app in Hn. simpl in Hn.
    str_norm. rewrite parseValue_brace_eq.
    apply (proj2 (proj2 within_jvalue)) in Hms.
    destruct (jmembers_head ms Hms) as (x & ->).
    rewrite sapp_cons, skipSpace_ws, skipSpace_nonspace by done.
    change (code dquote =? 125)%N with false. cbv iota. rewrite <- sapp_cons.
    destruct (IH n r) as [l ->]; [lia|]. eauto.
  - (* last element *)
    intros d v w Hv IHv Hw [|n] r Hn; [lia|].
    rewrite !slength_app in Hn. simpl in Hn.
    rewrite parseElements_eq. str_norm.
    destruct (IHv n (w +:+ String "]" r)) as [v' ->]; [lia| |].
    { apply stop_ws; [done|]. apply stop_separator. by left. }
    rewrite skipSpace_separator by (done || by left). eauto.
  - (* more elements *)
    intros d v w w' es Hv IHv Hw Hw' Hes IHes [|n] r Hn; [lia|].
    apply (proj1 (proj2 within_jvalue)) in Hes.
    rewrite !slength_app in Hn. simpl in Hn.
    rewrite parseElements_eq. str_norm.
    destruct (IHv n (w +:+ String "," (w' +:+ es +:+ r))) as [v' ->]; [lia| |].
    { apply stop_ws; [done|]. apply stop_separator. by right; left. }
    rewrite skipSpace_separator by (done || by right; left).
    change (code "," =? 93)%N with false. change (code "," =? 44)%N with true. cbv iota.
    destruct (jelements_head es Hes) as (ch & x & Hes' & Hch).
    rewrite skipSpace_value; [|done|by exists ch, (x +:+ r); rewrite Hes', sapp_cons].
    destruct (IHes n r) as [vs ->]; [lia|]. eauto.
  - (* last member *)
    intros d k w1 w2 v w3 Hk Hw1 Hw2 Hv IHv Hw3 [|n] r Hn; [lia|].
    apply (proj1 within_jvalue) in Hv.
    simpl in Hn. rewrite !slength_app in Hn. simpl in Hn.
    rewrite !slength_app in Hn. simpl in Hn.
    str_norm. rewrite parseMembers_eq.
    rewrite scanString_complete by done.
    rewrite skipSpace_separator by (done || by right; right; right).
    change (code ":" =? 58)%N with true. cbv iota.
    destruct (jvalue_head v Hv) as (ch & x & Hv' & Hch).
    rewrite skipSpace_value;
      [|done|by exists ch, (x +:+ w3 +:+ String "}" r); rewrite Hv', sapp_cons].
    destruct (IHv n (w3 +:+ String "}" r)) as [v' ->]; [lia| |].
    { apply stop_ws; [done|]. apply stop_separator. by right; right; left. }
    rewrite skipSpace_separator by (done || by right; right; left). eauto.
  - (* more members *)
    intros d k w1 w2 v w3 w4 ms Hk Hw1 Hw2 Hv IHv Hw3 Hw4 Hms IHms [|n] r Hn; [lia|].
    apply (proj1 within_jvalue) in Hv. apply (proj2 (proj2 within_jvalue)) in Hms.
    simpl in Hn. rewrite !slength_app in Hn. simpl in Hn.
    rewrite !slength_app in Hn. simpl in Hn.
    str_norm. rewrite parseMembers_eq.
    rewrite scanString_complete by done.
    rewrite skipSpace_separator by (done || by right; right; right).
    change (code ":" =? 58)%N with true. cbv iota.
    destruct (jvalue_head v Hv) as (ch & x & Hv' & Hch).
    rewrite skipSpace_value;
      [|done|by exists ch, (x +:+ w3 +:+ String "," (w4 +:+ ms +:+ r)); rewrite Hv', sapp_cons].
    destruct (IHv n (w3 +:+ String "," (w4 +:+ ms +:+ r))) as [v' ->]; [lia| |].
    { apply stop_ws; [done|]. apply stop_separator. by right; left. }
    rewrite skipSpace_separator by (done || by right; left).
    change (code "," =? 125)%N with false. change (code "," =? 44)%N with true. cbv iota.
    destruct (jmembers_head ms Hms) as (x' & Hms').
    assert (skipSpace (w4 +:+ ms +:+ r) = ms +:+ r) as ->.
    { rewrite skipSpace_ws by done. rewrite Hms', sapp_cons. by apply skipSpace_nonspace. }
    destruct (IHms n r) as [l ->]; [lia|]. eauto.
Qed.

Lemma jws_skipSpace w : jws w → skipSpace w = EmptyString.
Proof. intros Hw. rewrite <- (sapp_nil_r w). by rewrite skipSpace_ws. Qed.

Lemma skipSpace_empty s : skipSpace s = EmptyString → jws s.
Proof.
  intros Hs. destruct (skipSpace_sound s) as (w & Hw & Hj).
  rewrite Hs, sapp_nil_r in Hw. by subst.
Qed.

Lemma jsonTextWithin_jsonText d s : jsonTextWithin d s → jsonText s.
Proof.
  intros (w1 & p & w2 & -> & Hw1 & Hp & Hw2). exists w1, p, w2.
  repeat split; auto. by apply (proj1 within_jvalue d).
Qed.

Lemma jsonTextWithin_le d d' s : jsonTextWithin d s → (d ≤ d')%nat → jsonTextWithin d' s.
Proof.
  intros (w1 & p & w2 & -> & Hw1 & Hp & Hw2) Hd. exists w1, p, w2.
  repeat split; auto. by apply (jvalueWithin_le d).
Qed.

(** A JSON text nests no deeper than it is long. *)
Lemma jsonText_within_length s : jsonText s → jsonTextWithin (String.length s) s.
Proof.
  intros (w1 & p & w2 & -> & Hw1 & Hp & Hw2). exists w1, p, w2.
  repeat split; auto.
  apply (jvalueWithin_le (String.length p)); [by apply jvalue_within_length|].
  rewrite !slength_app. lia.
Qed.

(** What the parser accepts is a JSON text within the limit of nesting. *)
Lemma parse_sound_within s v :
  parse s = Some v → jsonTextWithin maxNestingDepth s ∧ valueWithin maxNestingDepth v.
Proof.
  unfold parse. destruct (skipSpace_sound s) as (w1 & Hs & Hw1).
  destruct (parseValue _ _ _) as [[v' rest]|] eqn:Ev; [|done].
  destruct (skipSpace rest) eqn:Er; [|done]. intros [= ->].
  destruct (proj1 (parse_sound _) _ _ _ _ Ev) as (p & Hp & Hv & Hok).
  split; [|done]. exists w1, p, rest. split; [by rewrite Hs at 1; rewrite Hp|].
  split; [done|]. split; [done|]. by apply skipSpace_empty.
Qed.

Lemma parse_sound_top s v :
  parse s = Some v → jsonText s ∧ valueOk v.
Proof.
  intros Hp. destruct (parse_sound_within s v Hp) as [Hs Hv].
  split; [by apply (jsonTextWithin_jsonText maxNestingDepth)|].
  destruct v; try done. by apply (rawsWithin_rawsOk (pred maxNestingDepth)).
Qed.

(** And every JSON text within the limit is accepted. *)
Lemma jsonText_parse s : jsonTextWithin maxNestingDepth s → ∃ v, parse s = Some v.
Proof.
  intros (w1 & p & w2 & -> & Hw1 & Hp & Hw2). unfold parse.
  assert (Hs : skipSpace (w1 +:+ p +:+ w2) = p +:+ w2).
  { apply skipSpace_value; [done|].
    destruct (jvalue_head p (proj1 within_jvalue _ _ Hp)) as (ch & r & -> & Hch).
    exists ch, (r +:+ w2). by rewrite sapp_cons. }
  rewrite Hs.
  destruct (proj1 parse_complete _ p Hp (S (String.length (p +:+ w2))) w2) as [v Hv].
  - rewrite slength_app. lia.
  - by apply stop_jws.
  - rewrite Hv, (jws_skipSpace w2 Hw2). eauto.
Qed.

Lemma Valid_within s : Valid s = true ↔ jsonTextWithin maxNestingDepth s.
Proof.
  unfold Valid. rewrite bool_decide_eq_true. split.
  - intros [v Hv]. by apply (parse_sound_within s v).
  - intros Hs. destruct (jsonText_parse s Hs) as [v ->]. eauto.
Qed.

Lemma Valid_jsonText s : Valid s = true → jsonText s.
Proof.
  intros Hv. apply (jsonTextWithin_jsonText maxNestingDepth). by apply Valid_within.
Qed.

(** On a text no longer than the limit, [Valid] decides the grammar. *)
Lemma jsonText_Valid s :
  (String.length s ≤ maxNestingDepth)%nat → jsonText s → Valid s = true.
Proof.
  intros Hl Hs. apply Valid_within.
  by apply (jsonTextWithin_le (String.length s)); [apply jsonText_within_length|].
Qed.

Lemma jvalue_jsonText p : jvalue p → jsonText p.
Proof.
  intros Hp. exists EmptyString, p, EmptyString.
  rewrite sapp_nil_r. repeat split; auto; constructor.
Qed.

Lemma jvalueWithin_jsonTextWithin d p : jvalueWithin d p → jsonTextWithin d p.
Proof.
  intros Hp. exists EmptyString, p, EmptyString.
  rewrite sapp_nil_r. repeat split; auto; constructor.
Qed.

Lemma storeMembers_ok ms : rawsOk ms → ∀ m, docOk m → docOk (storeMembers ms m).
Proof.
  induction 1 as [|[[k raw] v] ms Hm Hms IH]; intros m Hd; [done|].
  simpl. apply IH. intros key raw' Hk.
  destruct (decide (unquote k = key)) as [<-|Hne].
  - rewrite lookup_insert_eq in Hk. destruct v; simpl in *; congruence.
  - rewrite lookup_insert_ne in Hk by done. by apply (Hd key).
Qed.

Lemma unmarshalMap_docOk s m : unmarshalMap s = inr m → docOk m.
Proof.
  unfold unmarshalMap, withValue. destruct (parse s) as [v|] eqn:Ep; [|done].
  destruct (parse_sound_top s v Ep) as [_ Hok].
  destruct v; try done; intros [= <-].
  - intros key raw Hk. by rewrite lookup_empty in Hk.
  - apply storeMembers_ok; [done|]. intros key raw Hk. by rewrite lookup_empty in Hk.
Qed.

Lemma storeMembers_within d ms :
  rawsWithin d ms → ∀ m, docWithin d m → docWithin d (storeMembers ms m).
Proof.
  induction 1 as [|[[k raw] v] ms Hm Hms IH]; intros m Hd; [done|].
  simpl. apply IH. intros key raw' Hk.
  destruct (decide (unquote k = key)) as [<-|Hne].
  - rewrite lookup_insert_eq in Hk. destruct v; simpl in *; congruence.
  - rewrite lookup_insert_ne in Hk by done. by apply (Hd key).
Qed.

(** The raw values of a decoded map are within the limit of nesting, so
    that the decoder accepts each of them again. *)
Lemma unmarshalMap_docWithin s m : unmarshalMap s = inr m → docWithin maxNestingDepth m.
Proof.
  unfold unmarshalMap, withValue. destruct (parse s) as [v|] eqn:Ep; [|done].
  destruct (parse_sound_within s v Ep) as [_ Hok].
  destruct v; try done; intros [= <-].
  - intros key raw Hk. by rewrite lookup_empty in Hk.
  - apply storeMembers_within.
    + apply (rawsWithin_le (pred maxNestingDepth)); [done|lia].
    + intros key raw Hk. by rewrite lookup_empty in Hk.
Qed.

End ParserCorrect.

(** ** The decoder on objects and arrays *)

Section Decoding.
Import GoJSON.

Lemma parseValue_brace n d r v rest :
  parseValue n d (String "{" r) = Some (v, rest) → ∃ ms, v = Object ms.
Proof.
  destruct n as [|n]; [done|]. destruct d as [|d]; [done|]. rewrite parseValue_brace_eq.
  destruct (skipSpace r) as [|ch1 r1]; [done|].
  destruct (code ch1 =? 125)%N.
  - intros [= <- _]. eauto.
  - destruct (parseMembers n d (String ch1 r1)) as [[ms rest']|]; [|done].
    intros [= <- _]. eauto.
Qed.

Lemma parseValue_bracket n d r v rest :
  parseValue n d (String "[" r) = Some (v, rest) → ∃ vs, v = Array vs.
Proof.
  destruct n as [|n]; [done|]. destruct d as [|d]; [done|]. rewrite parseValue_bracket_eq.
  destruct (skipSpace r) as [|ch1 r1]; [done|].
  destruct (code ch1 =? 93)%N.
  - intros [= <- _]. eauto.
  - destruct (parseElements n d (String ch1 r1)) as [[vs rest']|]; [|done].
    intros [= <- _]. eauto.
Qed.

(** Whatever is not a JSON text within the limit of nesting is rejected:
    what is not a JSON text at all, and a JSON text nested deeper. *)
Lemma not_jsonText_parse s : ¬ jsonTextWithin maxNestingDepth s → parse s = None.
Proof.
  intros Hn. destruct (parse s) as [v|] eqn:E; [|done].
  exfalso. apply Hn. by apply (parse_sound_within s v).
Qed.

Lemma parse_object s :
  jsonTextWithin maxNestingDepth s → topLevel s = Some "{"%char →
  ∃ ms, parse s = Some (Object ms).
Proof.
  intros Hv Ht. apply jsonText_parse in Hv as [v Hv]. rewrite Hv.
  unfold parse, topLevel in *.
  destruct (skipSpace s) as [|ch r]; [done|]. injection Ht as ->.
  destruct (parseValue _ _ _) as [[v' rest]|] eqn:E; [|done].
  apply parseValue_brace in E as [ms ->].
  destruct (skipSpace rest); [|done]. injection Hv as <-. eauto.
Qed.

Lemma parse_array s :
  jsonTextWithin maxNestingDepth s → topLevel s = Some "["%char →
  ∃ vs, parse s = Some (Array vs).
Proof.
  intros Hv Ht. apply jsonText_parse in Hv as [v Hv]. rewrite Hv.
  unfold parse, topLevel in *.
  destruct (skipSpace s) as [|ch r]; [done|]. injection Ht as ->.
  destruct (parseValue _ _ _) as [[v' rest]|] eqn:E; [|done].
  apply parseValue_bracket in E as [vs ->].
  destruct (skipSpace rest); [|done]. injection Hv as <-. eauto.
Qed.

Lemma unmarshalMap_object s :
  jsonTextWithin maxNestingDepth s → topLevel s = Some "{"%char →
  ∃ ms, parse s = Some (Object ms) ∧ unmarshalMap s = inr (storeMembers ms ∅).
Proof.
  intros Hv Ht. destruct (parse_object s Hv Ht) as [ms Hp]. exists ms. split; [done|].
  unfold unmarshalMap, withValue. by rewrite Hp.
Qed.

Lemma unmarshalMap_array s :
  jsonTextWithin maxNestingDepth s → topLevel s = Some "["%char →
  unmarshalMap s = inl (UnmarshalTypeError "array" mapType).
Proof.
  intros Hv Ht. destruct (parse_array s Hv Ht) as [vs Hp].
  unfold unmarshalMap, withValue. by rewrite Hp.
Qed.

Lemma unmarshalMap_invalid s :
  ¬ jsonTextWithin maxNestingDepth s → unmarshalMap s = inl (SyntaxError).
Proof.
  intros Hv. apply not_jsonText_parse in Hv.
  unfold unmarshalMap, withValue. by rewrite Hv.
Qed.

(** A raw value of a parsed document that begins with a brace is the text
    of an object. *)
Lemma parsed_object_raw s m key raw :
  unmarshalMap s = inr m → m !! key = Some (Some raw) →
  topLevel raw = Some "{"%char → isObjectText raw.
Proof.
  intros Hm Hk Ht. split; [|done].
  apply jvalue_jsonText. by apply (unmarshalMap_docOk s m Hm key).
Qed.

(** Every raw value of a parsed document is a JSON text within the limit. *)
Lemma parsed_raw_within s m key raw :
  unmarshalMap s = inr m → m !! key = Some (Some raw) →
  jsonTextWithin maxNestingDepth raw.
Proof.
  intros Hm Hk. apply jvalueWithin_jsonTextWithin.
  by apply (unmarshalMap_docWithin s m Hm key).
Qed.

End Decoding.

(** ** Defaulting accessors (C1) *)

(** In [config/json/json.go] no accessor checks that the key is present:
    on an absent key it dereferences the nil pointer the map returns. *)
Lemma Legacy_Get_absent_panics `{Decoder} {A} (unmarshal : string → result A)
    key (d : A) c :
  c !! key = None →
  run (or_default (LegacyJson.getValue unmarshal key) d) c = Panic NilDereference.
Proof.
  intros Hk. rewrite run_or_default, Legacy_run_getValue.
  unfold lookup_outcome. by rewrite Hk.
Qed.

(** C1.  The defaulting accessors are not total.  On the document
    [{"id": 1}], which has no key [missing], [GetInt("missing", 42)] of
    [config/json/json.go] panics with a nil pointer dereference instead of
    returning 42, and so does [GetString]; [GetInt("missing", 42)] of
    [json/json.go] returns 42 there, but on [{"id": null}] its
    [GetInt("id", 42)] panics in the same way, the key being present with a
    nil pointer. *)
Theorem Get_default_panics :
  documentOf (js "{'id': 1}") !! "missing" = None ∧
  run (LegacyJson.GetInt "missing" 42) (documentOf (js "{'id': 1}"))
    = Panic NilDereference ∧
  run (LegacyJson.GetString "missing" "x") (documentOf (js "{'id': 1}"))
    = Panic NilDereference ∧
  run (Json.GetInt "missing" 42) (documentOf (js "{'id': 1}")) = Ret 42 ∧
  run (Json.GetInt "id" 42) (documentOf (js "{'id': 1}")) = Ret 1 ∧
  documentOf (js "{'id': null}") !! "id" = Some None ∧
  run (Json.GetInt "id" 42) (documentOf (js "{'id': null}")) = Panic NilDereference.
Proof. repeat split; vm_compute; reflexivity. Qed.

(** ** Sections (C2) *)

Lemma Json_Section_absent `{Decoder} key c :
  c !! key = None →
  run (Json.Section key) c =
  Fail (Errorf ("section " +:+ key +:+ " not present in config")).
Proof.
  intros Hk. rewrite Json_run_Section. unfold lookup_outcome. by rewrite Hk.
Qed.

Lemma Json_Section_object key c raw :
  c !! key = Some (Some raw) → isObjectText raw →
  jsonTextWithin GoJSON.maxNestingDepth raw →
  ∃ ms, GoJSON.parse raw = Some (GoJSON.Object ms) ∧
        run (Json.Section key) c = Ret (Json.configOf (GoJSON.storeMembers ms ∅)).
Proof.
  intros Hk [_ Ht] Hw. destruct (unmarshalMap_object raw Hw Ht) as (ms & Hp & Hm).
  exists ms. split; [done|].
  rewrite Json_run_Section. unfold lookup_outcome. rewrite Hk.
  unfold Json.newConf. simpl. by rewrite Hm.
Qed.

Lemma Legacy_Section_absent_panics `{Decoder} key c :
  c !! key = None → run (LegacyJson.Section key) c = Panic NilDereference.
Proof.
  intros Hk. rewrite Legacy_run_Section. unfold lookup_outcome. by rewrite Hk.
Qed.

(** C2.  [Section] on an absent key does not always fail with an error:
    in [config/json/json.go] it has no check of the key and panics with a
    nil pointer dereference on the document [{"id": 1}] and the key
    [address].  [Section] of [json/json.go] fails there with the error that
    names the key, and returns the nested document of the test text. *)
Theorem Section_absent_key_panics :
  documentOf (js "{'id': 1}") !! "address" = None ∧
  run (LegacyJson.Section "address") (documentOf (js "{'id': 1}"))
    = Panic NilDereference ∧
  run (Json.Section "address") (documentOf (js "{'id': 1}"))
    = Fail (Errorf "section address not present in config") ∧
  match run (Json.Section "address") (documentOf personText) with
  | Ret section => run (Json.GetString "city" "") (Json.c section) = Ret "Moscow"
  | _ => False
  end.
Proof. repeat split; vm_compute; reflexivity. Qed.

(** ** Parsing a document (C7) *)

(** C7.  [newConf] (and [new] of [config/json/json.go]) accepts every JSON
    text whose top level is an object and in which arrays and objects are
    nested at most [maxNestingDepth] = 10000 deep, returning the map of its
    members; rejects every such text whose top level is an array with an
    [UnmarshalTypeError]; and rejects every other text with a [SyntaxError],
    which is a different error: a text that is not a JSON text, and a JSON
    text nested deeper than the limit.  A JSON text no longer than the limit
    is always within it. *)
Theorem newConf_object_array_invalid (s : string) :
  (isObjectText s → jsonTextWithin GoJSON.maxNestingDepth s →
     ∃ ms, GoJSON.parse s = Some (GoJSON.Object ms) ∧
           Json.newConf s = inr (Json.configOf (GoJSON.storeMembers ms ∅)) ∧
           LegacyJson.new s = inr (LegacyJson.mkConfig (GoJSON.storeMembers ms ∅))) ∧
  (isArrayText s → jsonTextWithin GoJSON.maxNestingDepth s →
     Json.newConf s = inl (UnmarshalTypeError "array" GoJSON.mapType) ∧
     LegacyJson.new s = inl (UnmarshalTypeError "array" GoJSON.mapType)) ∧
  (¬ jsonText s →
     Json.newConf s = inl (SyntaxError) ∧
     LegacyJson.new s = inl (SyntaxError)) ∧
  (jsonText s → ¬ jsonTextWithin GoJSON.maxNestingDepth s →
     Json.newConf s = inl (SyntaxError) ∧
     LegacyJson.new s = inl (SyntaxError)) ∧
  (jsonText s → (String.length s ≤ GoJSON.maxNestingDepth)%nat →
     jsonTextWithin GoJSON.maxNestingDepth s) ∧
  SyntaxError ≠ UnmarshalTypeError "array" GoJSON.mapType.
Proof.
  unfold Json.newConf, LegacyJson.new. simpl.
  split; [|split; [|split; [|split; [|split]]]].
  - intros [_ Ht] Hw. destruct (unmarshalMap_object s Hw Ht) as (ms & Hp & Hm).
    exists ms. by rewrite Hm.
  - intros [_ Ht] Hw. by rewrite (unmarshalMap_array s Hw Ht).
  - intros Hn. rewrite (unmarshalMap_invalid s); [done|].
    intros Hw. apply Hn. by apply (jsonTextWithin_jsonText GoJSON.maxNestingDepth).
  - intros _ Hn. by rewrite (unmarshalMap_invalid s).
  - intros Hs Hl. apply (jsonTextWithin_le (String.length s)); [|done].
    by apply jsonText_within_length.
  - discriminate.
Qed.

(** The texts of [TestNew]: an object is accepted, the array and the text
    with an unquoted key are rejected, with different errors. *)
Lemma newConf_object_array_invalid_witness :
  (isObjectText personText ∧
   ∃ ms, GoJSON.parse personText = Some (GoJSON.Object ms) ∧
         Json.newConf personText = inr (Json.configOf (GoJSON.storeMembers ms ∅)) ∧
         LegacyJson.new personText
           = inr (LegacyJson.mkConfig (GoJSON.storeMembers ms ∅))) ∧
  (isArrayText personsArrayText ∧
   Json.newConf personsArrayText = inl (UnmarshalTypeError "array" GoJSON.mapType) ∧
   LegacyJson.new personsArrayText = inl (UnmarshalTypeError "array" GoJSON.mapType)) ∧
  (¬ jsonText unquotedKeyText ∧
   Json.newConf unquotedKeyText = inl (SyntaxError) ∧
   LegacyJson.new unquotedKeyText = inl (SyntaxError)).
Proof.
  assert (Hwo : jsonTextWithin GoJSON.maxNestingDepth personText).
  { apply Valid_within. vm_compute. reflexivity. }
  assert (Hwa : jsonTextWithin GoJSON.maxNestingDepth personsArrayText).
  { apply Valid_within. vm_compute. reflexivity. }
  assert (Ho : isObjectText personText).
  { split; [by apply (jsonTextWithin_jsonText GoJSON.maxNestingDepth)|].
    vm_compute. reflexivity. }
  assert (Ha : isArrayText personsArrayText).
  { split; [by apply (jsonTextWithin_jsonText GoJSON.maxNestingDepth)|].
    vm_compute. reflexivity. }
  assert (Hi : ¬ jsonText unquotedKeyText).
  { intros Hj. apply jsonText_Valid in Hj.
    - vm_compute in Hj. discriminate Hj.
    - apply Nat.leb_le. vm_compute. reflexivity. }
  split; [|split].
  - split; [exact Ho|].
    exact (proj1 (newConf_object_array_invalid personText) Ho Hwo).
  - split; [exact Ha|].
    exact (proj1 (proj2 (newConf_object_array_invalid personsArrayText)) Ha Hwa).
  - split; [exact Hi|].
    exact (proj1 (proj2 (proj2 (newConf_object_array_invalid unquotedKeyText))) Hi).
Defined.

Lemma jvalue_nestedArrays n : jvalue (nestedArrays n).
Proof.
  induction n as [|n IH].
  - apply (jv_array_empty EmptyString). constructor.
  - apply (jv_array EmptyString (nestedArrays n +:+ "]")); [constructor|].
    apply (je_last (nestedArrays n) EmptyString); [done|constructor].
Qed.

Lemma isObjectText_deepObject n : isObjectText (deepObject n).
Proof.
  split; [|reflexivity].
  exists EmptyString, (deepObject n), EmptyString.
  split; [by rewrite sapp_nil_r|]. split; [constructor|]. split; [|constructor].
  apply (jv_object EmptyString
           (String GoJSON.dquote ("a" +:+ String GoJSON.dquote
              (EmptyString +:+ ":" +:+ EmptyString +:+
               nestedArrays n +:+ EmptyString +:+ "}"))));
    [constructor|].
  apply (jm_last "a" EmptyString EmptyString (nestedArrays n) EmptyString);
    [|constructor|constructor|apply jvalue_nestedArrays|constructor].
  apply (jc_plain "a" EmptyString); [done|done|done|constructor].
Qed.

(** C7 fails as stated for well-formed texts nested deeper than the
    scanner allows.  The text [{"a":[[...[]...]]}] with 10000 arrays inside
    one another is a JSON text whose top level is an object, and [newConf]
    rejects it, with the same [SyntaxError] as a text that is not JSON; with
    one array less it is accepted. *)
Lemma deep_object_rejected :
  isObjectText tooDeepText ∧
  Json.newConf tooDeepText = inl (SyntaxError) ∧
  LegacyJson.new tooDeepText = inl (SyntaxError) ∧
  isObjectText deepestText ∧
  is_inr (Json.newConf deepestText) = true.
Proof.
  split; [apply isObjectText_deepObject|].
  split; [vm_compute; reflexivity|].
  split; [vm_compute; reflexivity|].
  split; [apply isObjectText_deepObject|].
  vm_compute. reflexivity.
Qed.

(** ** Dates (C8) *)

Section Dates.
Import GoJSON GoTime.

Lemma getnum_digits s n r :
  getnum s = Some (n, r) → ∃ d, s = d +:+ r ∧ oneOrTwoDigits d.
Proof.
  unfold getnum, oneOrTwoDigits.
  destruct s as [|a s]; [done|].
  destruct (isDigit a) eqn:Ha; [|done].
  destruct s as [|b s].
  - intros [= _ <-]. exists (String a EmptyString). simpl. rewrite Ha. auto.
  - destruct (isDigit b) eqn:Hb.
    + intros [= _ <-]. exists (String a (String b EmptyString)). simpl.
      rewrite Ha, Hb. auto.
    + intros [= _ <-]. exists (String a EmptyString). simpl. rewrite Ha. auto.
Qed.

Lemma getyear_digits s n r :
  getyear s = Some (n, r) → ∃ y, s = y +:+ r ∧ fourDigits y.
Proof.
  unfold getyear, fourDigits.
  destruct s as [|a [|b [|c [|d s]]]]; try done.
  destruct (isDigit a) eqn:Ha; [|done].
  destruct (isDigit b) eqn:Hb; [|done].
  destruct (isDigit c) eqn:Hc; [|done].
  destruct (isDigit d) eqn:Hd; [|done].
  simpl. intros [= _ <-].
  exists (String a (String b (String c (String d EmptyString)))). simpl.
  rewrite Ha, Hb, Hc, Hd. auto.
Qed.

Lemma skipDot_dot s r : skipDot s = Some r → s = "." +:+ r.
Proof.
  unfold skipDot. destruct s as [|ch s]; [done|].
  destruct (code ch =? 46)%N eqn:E; [|done]. intros [= <-].
  apply N.eqb_eq in E. unfold code in E.
  rewrite <- (ascii_N_embedding ch), E. reflexivity.
Qed.

(** A string that [time.Parse] accepts for the layout is in the layout. *)
Lemma parseDMY_inLayout s t : parseDMY s = inr t → inLayoutDMY s.
Proof.
  unfold parseDMY, bad.
  destruct (getnum s) as [[day v1]|] eqn:E1; [|done].
  destruct (skipDot v1) as [v2|] eqn:E2; [|done].
  destruct (getnum v2) as [[month v3]|] eqn:E3; [|done].
  destruct ((month <=? 0) || (12 <? month)); [done|].
  destruct (skipDot v3) as [v4|] eqn:E4; [|done].
  destruct (getyear v4) as [[year v5]|] eqn:E5; [|done].
  destruct v5 as [|? ?]; [|done]. intros _.
  apply getnum_digits in E1 as (d & -> & Hd).
  apply skipDot_dot in E2 as ->.
  apply getnum_digits in E3 as (m & -> & Hm).
  apply skipDot_dot in E4 as ->.
  apply getyear_digits in E5 as (y & -> & Hy).
  exists d, m, y. split; [|done].
  assert (Hnil : ∀ x : string, x +:+ EmptyString = x).
  { induction x as [|ch x IH]; [reflexivity|].
    change (String ch (x +:+ EmptyString) = String ch x). by rewrite IH. }
  rewrite Hnil. reflexivity.
Qed.

Lemma parseDMY_error s : (∃ t, parseDMY s = inr t) ∨ ∃ msg, parseDMY s = inl (ParseError "2.1.2006" s msg).
Proof.
  unfold parseDMY, bad, layoutDMY.
  repeat match goal with
  | |- context [match ?x with _ => _ end] => destruct x; eauto
  end.
Qed.

End Dates.

Section DatesComplete.
Import GoJSON GoTime.

Lemma getnum_complete d r :
  oneOrTwoDigits d → nondigit r → getnum (d +:+ r) = Some (numeral d, r).
Proof.
  intros [Hd Hl] Hr. unfold getnum, numeral.
  destruct d as [|a [|b [|? ?]]]; simpl in Hl; try (destruct Hl; discriminate).
  - simpl in Hd. rewrite andb_true_r in Hd. rewrite sapp_cons, sapp_nil_l, Hd.
    destruct r as [|ch r]; [done|]. simpl in Hr. by rewrite Hr.
  - simpl in Hd. rewrite andb_true_r in Hd. apply andb_true_iff in Hd as [Ha Hb].
    rewrite !sapp_cons, sapp_nil_l, Ha, Hb. done.
Qed.

Lemma getyear_complete y r : fourDigits y → getyear (y +:+ r) = Some (numeral y, r).
Proof.
  intros [Hd Hl]. unfold getyear, numeral.
  destruct y as [|a [|b [|c [|d [|? ?]]]]]; try discriminate Hl.
  simpl in Hd. rewrite andb_true_r in Hd.
  apply andb_true_iff in Hd as [Ha Hd]. apply andb_true_iff in Hd as [Hb Hd].
  apply andb_true_iff in Hd as [Hc Hd].
  rewrite !sapp_cons, sapp_nil_l, Ha, Hb, Hc, Hd. done.
Qed.

Lemma daysIn_daysOfMonth m y : daysIn m y = daysOfMonth m y.
Proof.
  unfold daysIn, daysOfMonth, isLeap, leapYear.
  destruct (m =? 2); [|done]. by destruct (_ && _).
Qed.

Lemma nondigit_dot r : nondigit ("." +:+ r).
Proof. reflexivity. Qed.

(** [time.Parse] on a string of the layout: the date that the three numbers
    write, if that date exists, and a [ParseError] otherwise. *)
Lemma parseDMY_complete d m y :
  oneOrTwoDigits d → oneOrTwoDigits m → fourDigits y →
  (isDate (Date (numeral y) (numeral m) (numeral d)) →
   parseDMY (d +:+ "." +:+ m +:+ "." +:+ y) = inr (Date (numeral y) (numeral m) (numeral d))) ∧
  (¬ isDate (Date (numeral y) (numeral m) (numeral d)) →
   ∃ msg, parseDMY (d +:+ "." +:+ m +:+ "." +:+ y)
          = inl (ParseError "2.1.2006" (d +:+ "." +:+ m +:+ "." +:+ y) msg)).
Proof.
  intros Hd Hm Hy. unfold parseDMY, isDate. cbn [Year Month Day].
  rewrite (getnum_complete d _ Hd (nondigit_dot _)).
  change (skipDot ("." +:+ m +:+ "." +:+ y)) with (Some (m +:+ "." +:+ y)). cbv iota.
  rewrite (getnum_complete m _ Hm (nondigit_dot _)).
  change (skipDot ("." +:+ y)) with (Some y).
  pose proof (getyear_complete y EmptyString Hy) as Hgy.
  rewrite sapp_nil_r in Hgy. cbv beta iota. rewrite Hgy.
  rewrite daysIn_daysOfMonth. unfold bad, layoutDMY.
  destruct ((numeral m <=? 0) || (12 <? numeral m)) eqn:Em.
  - split; [|eauto]. intros [Hmm _]. apply orb_true_iff in Em as [Em|Em]; lia.
  - apply orb_false_iff in Em as [Em1 Em2].
    destruct ((numeral d <? 1) || (daysOfMonth (numeral m) (numeral y) <? numeral d)) eqn:Ed.
    + split; [|eauto]. intros [_ Hdd]. apply orb_true_iff in Ed as [Ed|Ed]; lia.
    + apply orb_false_iff in Ed as [Ed1 Ed2]. split; [done|].
      intros Hn. exfalso. apply Hn. lia.
Qed.

End DatesComplete.

(** C8.  [getTime] decodes the value as a string and parses the string with
    [time.Parse] and the layout [2.1.2006].  For a key that holds a raw
    value: an error of the string decoding is returned as it is; a string
    [D.M.YYYY] of a date that exists gives that date, the day, month and
    year being the numbers written; one of a date that does not exist, and
    a string that is not of the form [D.M.YYYY], fail with a [ParseError].
    But for a key whose value is [null] the map holds a nil pointer, and
    [getTime] (and with it [GetTime], whatever the default) panics in the
    dereference instead of failing with an error. *)
Theorem getTime_layout (c : gmap string (option string)) (key : string) :
  (c !! key = Some None →
     run (Json.getTime key) c = Panic NilDereference ∧
     ∀ defaultVal, run (Json.GetTime key defaultVal) c = Panic NilDereference) ∧
  (∀ raw, c !! key = Some (Some raw) →
     (∀ err, GoJSON.unmarshalString raw = inl err →
        run (Json.getTime key) c = Fail err) ∧
     (∀ d m y, GoJSON.unmarshalString raw = inr (d +:+ "." +:+ m +:+ "." +:+ y) →
        oneOrTwoDigits d → oneOrTwoDigits m → fourDigits y →
        (isDate (Date (numeral y) (numeral m) (numeral d)) →
         run (Json.getTime key) c = Ret (Date (numeral y) (numeral m) (numeral d))) ∧
        (¬ isDate (Date (numeral y) (numeral m) (numeral d)) →
         ∃ msg, run (Json.getTime key) c
                = Fail (ParseError "2.1.2006" (d +:+ "." +:+ m +:+ "." +:+ y) msg))) ∧
     (∀ s, GoJSON.unmarshalString raw = inr s → ¬ inLayoutDMY s →
        ∃ msg, run (Json.getTime key) c = Fail (ParseError "2.1.2006" s msg))) ∧
  documentOf (js "{'birthday': null}") !! "birthday" = Some None ∧
  run (Json.getTime "birthday") (documentOf (js "{'birthday': null}"))
    = Panic NilDereference.
Proof.
  assert (Hrun : ∀ raw, c !! key = Some (Some raw) →
                 run (Json.getTime key) c =
                 match GoJSON.unmarshalString raw with
                 | inl err => Fail err
                 | inr s => decoded (GoTime.parseDMY s)
                 end).
  { intros raw Hk. unfold Json.getTime. rewrite run_bind. unfold Json.getString.
    rewrite Json_run_getValue. unfold lookup_outcome. rewrite Hk. simpl.
    destruct (GoJSON.unmarshalString raw) as [err|s]; simpl; [done|].
    change (GoTime.Parse "2.1.2006" s) with (GoTime.parseDMY s).
    destruct (GoTime.parseDMY s); done. }
  split; [|split; [|split]].
  - intros Hk.
    assert (Hp : run (Json.getTime key) c = Panic NilDereference).
    { unfold Json.getTime. rewrite run_bind. unfold Json.getString.
      rewrite Json_run_getValue. unfold lookup_outcome. by rewrite Hk. }
    split; [done|]. intros d. unfold Json.GetTime. by rewrite run_or_default, Hp.
  - intros raw Hk. rewrite (Hrun raw Hk). split; [|split].
    + intros err He. by rewrite He.
    + intros d m y Hs Hd Hm Hy. rewrite Hs.
      destruct (parseDMY_complete d m y Hd Hm Hy) as [Hok Hbad]. split.
      * intros Hdate. by rewrite (Hok Hdate).
      * intros Hdate. destruct (Hbad Hdate) as [msg Hmsg]. exists msg. by rewrite Hmsg.
    + intros s Hs Hn. rewrite Hs.
      destruct (parseDMY_error s) as [[t Ht]|[msg Hm]].
      * exfalso. apply Hn. by apply (parseDMY_inLayout s t).
      * exists msg. by rewrite Hm.
  - vm_compute. reflexivity.
  - vm_compute. reflexivity.
Qed.

(** A date written with dashes is not in the layout. *)
Lemma dashes_not_inLayout : ¬ inLayoutDMY "2018-09-12".
Proof.
  intros (d & m & y & Heq & [_ Hl] & _).
  destruct d as [|a [|b [|? ?]]]; simpl in Hl; destruct Hl as [Hl|Hl];
    try discriminate Hl; vm_compute in Heq; discriminate Heq.
Qed.

(** The birthday of the test document gives the day 12, the month 9 and the
    year 2018; the 29th of February exists in 2020 and not in 2019; and a
    date written with dashes fails with a [ParseError]. *)
Lemma getTime_layout_witness :
  run (Json.getTime "birthday") (documentOf personText) = Ret (Date 2018 9 12) ∧
  run (Json.getTime "birthday") (documentOf (js "{'birthday': '29.2.2020'}"))
    = Ret (Date 2020 2 29) ∧
  (∃ msg, run (Json.getTime "birthday") (documentOf (js "{'birthday': '29.02.2019'}"))
           = Fail (ParseError "2.1.2006" "29.02.2019" msg)) ∧
  ∃ msg, run (Json.getTime "birthday") (documentOf (js "{'birthday': '2018-09-12'}"))
           = Fail (ParseError "2.1.2006" "2018-09-12" msg).
Proof.
  assert (Hk1 : documentOf personText !! "birthday" = Some (Some (js "'12.09.2018'")))
    by (vm_compute; reflexivity).
  assert (Hk2 : documentOf (js "{'birthday': '29.2.2020'}") !! "birthday"
                = Some (Some (js "'29.2.2020'")))
    by (vm_compute; reflexivity).
  assert (Hk3 : documentOf (js "{'birthday': '29.02.2019'}") !! "birthday"
                = Some (Some (js "'29.02.2019'")))
    by (vm_compute; reflexivity).
  assert (Hk4 : documentOf (js "{'birthday': '2018-09-12'}") !! "birthday"
                = Some (Some (js "'2018-09-12'")))
    by (vm_compute; reflexivity).
  destruct (proj1 (proj2 (getTime_layout (documentOf personText) "birthday")) _ Hk1)
    as (_ & H1 & _).
  destruct (proj1 (proj2 (getTime_layout _ "birthday")) _ Hk2) as (_ & H2 & _).
  destruct (proj1 (proj2 (getTime_layout _ "birthday")) _ Hk3) as (_ & H3 & _).
  destruct (proj1 (proj2 (getTime_layout _ "birthday")) _ Hk4) as (_ & _ & H4).
  assert (D2 : oneOrTwoDigits "12" ∧ oneOrTwoDigits "09" ∧ oneOrTwoDigits "29" ∧
               oneOrTwoDigits "2" ∧ oneOrTwoDigits "02" ∧
               fourDigits "2018" ∧ fourDigits "2020" ∧ fourDigits "2019").
  { unfold oneOrTwoDigits, fourDigits. repeat split; auto. }
  destruct D2 as (D12 & D09 & D29 & D2 & D02 & Y18 & Y20 & Y19).
  split; [|split; [|split]].
  - apply (H1 "12" "09" "2018" ltac:(vm_compute; reflexivity) D12 D09 Y18).
    unfold isDate. vm_compute. repeat split; discriminate.
  - apply (H2 "29" "2" "2020" ltac:(vm_compute; reflexivity) D29 D2 Y20).
    unfold isDate. vm_compute. repeat split; discriminate.
  - apply (H3 "29" "02" "2019" ltac:(vm_compute; reflexivity) D29 D02 Y19).
    unfold isDate. vm_compute. intros [_ [_ Hd]]. by apply Hd.
  - apply (H4 "2018-09-12"); [vm_compute; reflexivity|].
    exact dashes_not_inLayout.
Defined.

(** ** The text of a section (C9) *)

(** Whatever the decoder does with it: parsing the text that
    [SectionAsJSON] returns is what [Section] does for the same key. *)
Lemma SectionAsJSON_New `{Decoder} c key text :
  run (Json.SectionAsJSON key) c = Ret text →
  run (Json.Section key) c = decoded (Json.New text).
Proof.
  rewrite Json_run_SectionAsJSON, Json_run_Section. unfold lookup_outcome, Json.New.
  destruct (c !! key) as [[raw|]|]; [|done..]. by intros [= ->].
Qed.

(** C9.  For a key whose value is a nested object, [SectionAsJSON] returns
    its text, [New] accepts that text, [Section] succeeds for the key, and
    the two documents are equal.  The raw value is within the limit of
    nesting, as every raw value of a document that [newConf] returned is
    ([parsed_raw_within]). *)
Theorem SectionAsJSON_roundtrip (c : gmap string (option string)) (key raw : string) :
  c !! key = Some (Some raw) → isObjectText raw →
  jsonTextWithin GoJSON.maxNestingDepth raw →
  ∃ text cfg section,
    run (Json.SectionAsJSON key) c = Ret text ∧
    Json.New text = inr cfg ∧
    run (Json.Section key) c = Ret section ∧
    Json.c cfg = Json.c section ∧ cfg = section.
Proof.
  intros Hk Ho Hw.
  destruct (Json_Section_object key c raw Hk Ho Hw) as (ms & Hp & Hs).
  destruct (unmarshalMap_object raw Hw (proj2 Ho)) as (ms' & Hp' & Hm).
  assert (ms' = ms) as -> by congruence.
  exists raw, (Json.configOf (GoJSON.storeMembers ms ∅)),
         (Json.configOf (GoJSON.storeMembers ms ∅)).
  repeat split; [|by unfold Json.New, Json.newConf; simpl; rewrite Hm|done].
  rewrite Json_run_SectionAsJSON. unfold lookup_outcome. by rewrite Hk.
Qed.

(** The section [address] of the test document. *)
Lemma SectionAsJSON_roundtrip_witness :
  ∃ text cfg section,
    run (Json.SectionAsJSON "address") (documentOf personText) = Ret text ∧
    Json.New text = inr cfg ∧
    run (Json.Section "address") (documentOf personText) = Ret section ∧
    Json.c cfg = Json.c section ∧ cfg = section.
Proof.
  refine (SectionAsJSON_roundtrip (documentOf personText) "address"
            (js "{
			'city': 'Moscow',
			'street': 'Lenina str.'
		}") _ _ _).
  - vm_compute. reflexivity.
  - split; [apply Valid_jsonText|]; vm_compute; reflexivity.
  - apply Valid_within. vm_compute. reflexivity.
Defined.

(** ** Starting and stopping the watch (C3, C10) *)

Section Lifecycle.
Import Json.

Lemma Watch_busy e h w :
  isBeingWatched h = 1 → Watch e h w = (Fail ErrAlreadyBeingWatched, h, w).
Proof. unfold Watch. by intros ->. Qed.

Lemma StopWatching_idle e h w :
  isBeingWatched h = 0 → StopWatching e h w = (Fail ErrNotBeingWatched, h, w).
Proof. unfold StopWatching. by intros ->. Qed.

Lemma Watch_idle h w :
  isBeingWatched h = 0 →
  Watch None h w =
  (Ret (nextId w),
   {| c := c h; filePath := filePath h; isBeingWatched := 1;
      watcher := Some (S (nextId w)); watchC := Some (nextId w) |},
   {| nextId := S (S (nextId w));
      openWatchers := S (nextId w) :: openWatchers w;
      openChans := nextId w :: openChans w;
      listeners := (S (nextId w), nextId w) :: listeners w |}).
Proof. unfold Watch. by intros ->. Qed.

Lemma remove_fresh x l : Forall (λ y, (y < x)%nat) l → remove x (x :: l) = l.
Proof.
  intros Hl. unfold remove. rewrite filter_cons_False by (intros Hx; by apply Hx).
  induction Hl as [|y l Hy Hl IH]; [done|].
  rewrite filter_cons_True by lia. by rewrite IH.
Qed.

(** One round: [Watch] succeeds on an idle handle and [StopWatching] brings
    the handle and the open watchers and channels back. *)
Lemma Watch_StopWatching h w :
  isBeingWatched h = 0 → idsBelow w →
  ∃ w', StopWatching None (Watch None h w).1.2 (Watch None h w).2
          = (Ret tt, setWatcher h None None, w') ∧
        openWatchers w' = openWatchers w ∧ openChans w' = openChans w ∧
        listeners w' = (S (nextId w), nextId w) :: listeners w ∧
        idsBelow w'.
Proof.
  intros Hi [Hw Hc]. rewrite (Watch_idle h w Hi). simpl.
  unfold StopWatching. simpl. eexists. split.
  { unfold setWatcher, setWatching. simpl. rewrite Hi. reflexivity. }
  simpl. split; [|split; [|split]].
  - apply remove_fresh. eapply Forall_impl; [exact Hw|]. simpl. lia.
  - apply remove_fresh. exact Hc.
  - done.
  - split; simpl.
    + rewrite remove_fresh by (eapply Forall_impl; [exact Hw|]; simpl; lia).
      eapply Forall_impl; [exact Hw|]. simpl. lia.
    + rewrite remove_fresh by exact Hc.
      eapply Forall_impl; [exact Hc|]. simpl. lia.
Qed.

Lemma cycles_succeed n : ∀ h w,
  isBeingWatched h = 0 → idsBelow w →
  ∃ os1 os2 h' w',
    cycles n h w = (os1, os2, h', w') ∧
    length os1 = n ∧ length os2 = n ∧
    Forall (λ o, is_Ret o = true) os1 ∧ Forall (λ o, is_Ret o = true) os2 ∧
    isBeingWatched h' = 0 ∧ c h' = c h ∧
    openWatchers w' = openWatchers w ∧ openChans w' = openChans w.
Proof.
  induction n as [|n IH]; intros h w Hi Hw; simpl.
  - exists [], [], h, w. repeat split; auto.
  - destruct (Watch_StopWatching h w Hi Hw) as (w2 & HS & Ho & Hc & _ & Hw2).
    rewrite (Watch_idle h w Hi) in HS |- *. simpl in HS. rewrite HS.
    destruct (IH (setWatcher h None None) w2)
      as (os1 & os2 & h' & w' & -> & ? & ? & ? & ? & ? & ? & ? & ?); [done|done|].
    eexists _, _, _, _. split; [reflexivity|]. simpl.
    repeat split; auto; try congruence.
Qed.

(** C3.  On a handle that is being watched [Watch] fails with
    [ErrAlreadyBeingWatched] and changes neither the handle nor the world;
    on a handle that is not, [StopWatching] fails with [ErrNotBeingWatched]
    in the same way.  [Watch] on an idle handle opens exactly one watcher,
    and a second [Watch] leaves that one.  Any number of rounds of [Watch]
    and [StopWatching] succeed, and end with the handle not watched and the
    open watchers as before. *)
Theorem Watch_lifecycle (h : Config) (w : World) :
  (isBeingWatched h = 1 →
     ∀ e, Watch e h w = (Fail ErrAlreadyBeingWatched, h, w)) ∧
  (isBeingWatched h = 0 →
     (∀ e, StopWatching e h w = (Fail ErrNotBeingWatched, h, w)) ∧
     (∃ ch h1 w1,
        Watch None h w = (Ret ch, h1, w1) ∧ isBeingWatched h1 = 1 ∧
        length (openWatchers w1) = S (length (openWatchers w)) ∧
        ∀ e, Watch e h1 w1 = (Fail ErrAlreadyBeingWatched, h1, w1)) ∧
     (idsBelow w → ∀ n, ∃ os1 os2 h' w',
        cycles n h w = (os1, os2, h', w') ∧
        length os1 = n ∧ length os2 = n ∧
        Forall (λ o, is_Ret o = true) os1 ∧ Forall (λ o, is_Ret o = true) os2 ∧
        isBeingWatched h' = 0 ∧ c h' = c h ∧
        openWatchers w' = openWatchers w ∧ openChans w' = openChans w)).
Proof.
  split; [|intros Hi; split; [|split]].
  - intros Hb e. by apply Watch_busy.
  - intros e. by apply StopWatching_idle.
  - rewrite (Watch_idle h w Hi). eexists _, _, _. split; [reflexivity|].
    simpl. repeat split; auto.
  - intros Hw n. by apply cycles_succeed.
Qed.

(** The handle of the test document in a world with nothing open. *)
Lemma Watch_lifecycle_witness :
  (∀ e, Watch e (Watch None testHandle emptyWorld).1.2 (Watch None testHandle emptyWorld).2
        = (Fail ErrAlreadyBeingWatched, (Watch None testHandle emptyWorld).1.2,
           (Watch None testHandle emptyWorld).2)) ∧
  length (openWatchers (Watch None testHandle emptyWorld).2) = 1%nat ∧
  (∀ e, StopWatching e testHandle emptyWorld
        = (Fail ErrNotBeingWatched, testHandle, emptyWorld)) ∧
  ∃ os1 os2 h' w',
    cycles 3 testHandle emptyWorld = (os1, os2, h', w') ∧
    length os1 = 3%nat ∧ length os2 = 3%nat ∧
    Forall (λ o, is_Ret o = true) os1 ∧ Forall (λ o, is_Ret o = true) os2 ∧
    isBeingWatched h' = 0 ∧ c h' = c testHandle ∧
    openWatchers w' = openWatchers emptyWorld ∧ openChans w' = openChans emptyWorld.
Proof.
  assert (Hi : isBeingWatched testHandle = 0) by reflexivity.
  assert (Hb : isBeingWatched (Watch None testHandle emptyWorld).1.2 = 1) by reflexivity.
  assert (Hw : idsBelow emptyWorld) by (split; constructor).
  split; [|split; [|split]].
  - exact (proj1 (Watch_lifecycle _ _) Hb).
  - reflexivity.
  - exact (proj1 (proj2 (Watch_lifecycle testHandle emptyWorld) Hi)).
  - exact (proj2 (proj2 (proj2 (Watch_lifecycle testHandle emptyWorld) Hi)) Hw 3%nat).
Defined.

(** C10.  When [fsnotify.NewWatcher] fails on an idle handle, [Watch]
    returns its error and leaves [isBeingWatched] set, with no watcher
    opened, no listener started and [c.watcher] nil.  From then on every
    [Watch] fails with [ErrAlreadyBeingWatched], and [StopWatching] resets
    the flag and calls [Close] on the nil watcher, which panics. *)
Theorem Watch_error_leaves_flag (err : error) (h : Config) (w : World) :
  idle h →
  ∃ h1 w1,
    Watch (Some err) h w = (Fail err, h1, w1) ∧
    isBeingWatched h1 = 1 ∧ watcher h1 = None ∧ watchC h1 = None ∧
    openWatchers w1 = openWatchers w ∧ listeners w1 = listeners w ∧
    (∀ e w', Watch e h1 w' = (Fail ErrAlreadyBeingWatched, h1, w')) ∧
    (∀ e w', StopWatching e h1 w' = (Panic NilDereference, setWatching h1 0, w')).
Proof.
  intros (Hi & Hw & Hc). unfold Watch. rewrite Hi. simpl.
  eexists _, _. split; [reflexivity|]. simpl.
  repeat split; auto.
  intros e w'. unfold StopWatching. simpl. by rewrite Hw.
Qed.

Lemma Watch_error_leaves_flag_witness :
  ∃ h1 w1,
    Watch (Some (OSError "too many open files")) testHandle emptyWorld
      = (Fail (OSError "too many open files"), h1, w1) ∧
    isBeingWatched h1 = 1 ∧ watcher h1 = None ∧ watchC h1 = None ∧
    openWatchers w1 = openWatchers emptyWorld ∧ listeners w1 = listeners emptyWorld ∧
    (∀ e w', Watch e h1 w' = (Fail ErrAlreadyBeingWatched, h1, w')) ∧
    (∀ e w', StopWatching e h1 w' = (Panic NilDereference, setWatching h1 0, w')).
Proof.
  apply (Watch_error_leaves_flag (OSError "too many open files") testHandle emptyWorld).
  repeat split; reflexivity.
Defined.

End Lifecycle.

(** ** The listener (C4, C5) *)

Section ListenerFacts.
Context `{Decoder}.
Import Json.

Lemma steps_cons t ts l : steps (t :: ts) l = steps ts (step t l).
Proof. reflexivity. Qed.

(** A tick that is not a successful reload leaves the document and adds no
    [Store]. *)
Lemma stores_goto l p es :
  (∀ d, Store d ∉ es) → stores (goto l p es) = stores l.
Proof.
  intros Hes. unfold stores, goto. simpl. rewrite omap_app.
  assert (omap (λ e, match e with Store d => Some d | _ => None end) es = []) as ->.
  { induction es as [|e es IH]; [done|]. simpl.
    destruct e as [msg err| |d| |]; try (apply IH; intros d' Hd; apply (Hes d'); by right).
    exfalso. apply (Hes d). by left. }
  by rewrite app_nil_r.
Qed.

Lemma step_keeps_document t l :
  reloads t = false → doc (step t l) = doc l ∧ stores (step t l) = stores l.
Proof.
  intros Hr. unfold step.
  assert (Hg : ∀ p es, (∀ d, Store d ∉ es) →
            doc (goto l p es) = doc l ∧ stores (goto l p es) = stores l).
  { intros p es Hes. split; [done|]. by apply stores_goto. }
  assert (Hnil : ∀ d, Store d ∉ []) by (intros d Hd; inversion Hd).
  assert (Hlog : ∀ msg err d, Store d ∉ [Log msg err]).
  { intros msg err d Hd. apply list_elem_of_singleton in Hd. discriminate. }
  assert (Hnot : ∀ d, Store d ∉ [Notify]).
  { intros d Hd. apply list_elem_of_singleton in Hd. discriminate. }
  destruct t as [op read| | | |]; destruct (at_pc l); auto.
  unfold reloads, isWrite, reload in Hr.
  destruct (Z.land op Write =? Write); [|auto].
  destruct read as [err|data]; [auto|].
  destruct (unmarshal_map data); [auto|discriminate].
Qed.

(** The listener ends only when it finds [watcher.Events] closed. *)
Lemma step_exits t l :
  at_pc (step t l) = Exited → at_pc l = Exited ∨ t = EventsClosed.
Proof.
  unfold step, goto.
  destruct t as [op read| | | |]; destruct (at_pc l) eqn:E; simpl; auto;
    try discriminate; try (intros ?; congruence).
  destruct (Z.land op Write =? Write); [|discriminate].
  destruct read as [err|data]; [discriminate|].
  destruct (unmarshal_map data); discriminate.
Qed.

Lemma steps_exits ts : ∀ l,
  at_pc (steps ts l) = Exited → at_pc l = Exited ∨ In EventsClosed ts.
Proof.
  induction ts as [|t ts IH]; intros l; [by left|].
  rewrite steps_cons. intros Hx. destruct (IH _ Hx) as [Hs|Hin].
  - destruct (step_exits t l Hs) as [?| ->]; [by left|right; by left].
  - right. by right.
Qed.

Lemma steps_keep_document ts : ∀ l,
  forallb (λ t, negb (reloads t)) ts = true →
  doc (steps ts l) = doc l ∧ stores (steps ts l) = stores l.
Proof.
  induction ts as [|t ts IH]; intros l Hts; [done|].
  simpl in Hts. apply andb_true_iff in Hts as [Ht Hts].
  apply negb_true_iff in Ht.
  rewrite steps_cons. destruct (IH (step t l) Hts) as [-> ->].
  by apply step_keeps_document.
Qed.

(** C4.  A cycle whose read or parse fails leaves the document as it was:
    the listener logs the error and is back in its [select], with nothing
    stored and nothing sent.  Over any sequence of ticks without a
    successful reload the document stays the same, and the listener can
    only have ended by finding the event stream closed. *)
Theorem failed_reload_keeps_document (l : Listener) (op : Z) (read : result string)
    (err : error) (ts : list tick) :
  at_pc l = AtSelect → isWrite op = true → reload read = inl err →
  (doc (step (Event op read) l) = doc l ∧
   at_pc (step (Event op read) l) = AtSelect ∧
   stores (step (Event op read) l) = stores l ∧
   notifications (step (Event op read) l) = notifications l ∧
   ∃ msg e, effects (step (Event op read) l) = (effects l ++ [Log msg e])%list) ∧
  (forallb (λ t, negb (reloads t)) ts = true →
   doc (steps ts l) = doc l ∧ stores (steps ts l) = stores l ∧
   (at_pc (steps ts l) = Exited → In EventsClosed ts)).
Proof.
  intros Hpc Hw Hr. split.
  - assert (Hn : reloads (Event op read) = false).
    { unfold reloads. rewrite Hw, Hr. reflexivity. }
    destruct (step_keeps_document (Event op read) l Hn) as [Hd Hs].
    split; [done|]. unfold step, goto, notifications in *. rewrite Hpc in *.
    unfold isWrite in Hw. rewrite Hw in *. unfold reload in Hr.
    destruct read as [e|data]; simpl in *.
    + rewrite filter_app. simpl. rewrite filter_cons_False by discriminate.
      rewrite filter_nil, app_nil_r. eauto 10.
    + rewrite Hr in *. simpl in *.
      rewrite filter_app. simpl. rewrite filter_cons_False by discriminate.
      rewrite filter_nil, app_nil_r. eauto 10.
  - intros Hts. destruct (steps_keep_document ts l Hts) as [Hd Hs].
    split; [done|]. split; [done|].
    intros Hx. destruct (steps_exits ts l Hx) as [Hl|Hin]; [|done].
    rewrite Hpc in Hl. discriminate.
Qed.

End ListenerFacts.

(** A file that cannot be read, then a file with an unquoted key, then an
    error of the watcher, then a change of mode and what follows it. *)
Lemma failed_reload_keeps_document_witness :
  (Json.doc (Json.step (Json.Event Json.Write (inr unquotedKeyText))
               (Json.listen testHandle))
     = documentOf personText ∧
   Json.at_pc (Json.step (Json.Event Json.Write (inr unquotedKeyText))
                 (Json.listen testHandle)) = Json.AtSelect) ∧
  Json.doc (Json.steps [Json.Event Json.Write (inl (OSError "no such file"));
                        Json.Event Json.Write (inr unquotedKeyText);
                        Json.ErrorReceived (OSError "overflow");
                        Json.Event Chmod (inr personText);
                        Json.Event Json.Write (inr unquotedKeyText);
                        Json.Taken]
              (Json.listen testHandle))
    = documentOf personText.
Proof.
  pose proof (@failed_reload_keeps_document go_decoder (Json.listen testHandle) Json.Write
                (inr unquotedKeyText) (SyntaxError)
                [Json.Event Json.Write (inl (OSError "no such file"));
                 Json.Event Json.Write (inr unquotedKeyText);
                 Json.ErrorReceived (OSError "overflow");
                 Json.Event Chmod (inr personText);
                 Json.Event Json.Write (inr unquotedKeyText);
                 Json.Taken]
                eq_refl eq_refl ltac:(vm_compute; reflexivity)) as [H1 H2].
  split.
  - split; [exact (proj1 H1)|exact (proj1 (proj2 H1))].
  - exact (proj1 (H2 ltac:(vm_compute; reflexivity))).
Defined.

Section Notifications.
Context `{Decoder}.
Import Json.

Lemma notifications_goto l p es :
  notifications (goto l p es) = (notifications l + length (filter (λ e, e = Notify) es))%nat.
Proof. unfold notifications, goto. simpl. by rewrite filter_app, length_app. Qed.

Lemma notifications_mk d p es0 es :
  notifications (mkListener d p (es0 ++ es)) =
  (length (filter (λ e, e = Notify) es0) + length (filter (λ e, e = Notify) es))%nat.
Proof. unfold notifications. simpl. by rewrite filter_app, length_app. Qed.

Lemma no_Notify_in_swap newData :
  filter (λ e, e = Notify) [Lock; Store newData; Unlock] = [].
Proof. by rewrite !filter_cons_False, filter_nil by discriminate. Qed.

(** C5, as the code has it, for a write event by the place where the
    listener is.  Received in the [select], a write event whose reload
    succeeds replaces the document between [Lock] and [Unlock] and leaves
    the listener in the receive [<-watcher.Events]: nothing is sent yet, and
    nothing but a further item (or the closing) of the event stream moves it
    on; that item is dropped unexamined, so the document stays.  After that
    receive the one notification of the cycle is sent, when the receiver
    takes it.  A cycle whose reload fails sends nothing.  Received in the
    receive [<-watcher.Events] that follows an earlier event, a write event
    is dropped: nothing is read or stored, whatever the file holds, and the
    listener goes on to send the notification of the earlier event.  In the
    send, or once it has returned, the listener receives no event. *)
Theorem successful_reload_notifies (l : Listener) (op : Z) (read : result string) :
  isWrite op = true →
  (at_pc l = AtSelect →
     (∀ newData, reload read = inr newData →
        doc (step (Event op read) l) = newData ∧
        effects (step (Event op read) l)
          = (effects l ++ [Lock; Store newData; Unlock])%list ∧
        at_pc (step (Event op read) l) = AtDrain ∧
        notifications (step (Event op read) l) = notifications l ∧
        (∀ t, fromEvents t = false →
           step t (step (Event op read) l) = step (Event op read) l) ∧
        (∀ t, fromEvents t = true →
           at_pc (step t (step (Event op read) l)) = AtSend ∧
           doc (step t (step (Event op read) l)) = newData ∧
           notifications (step t (step (Event op read) l)) = notifications l ∧
           effects (step Taken (step t (step (Event op read) l)))
             = (effects l ++ [Lock; Store newData; Unlock] ++ [Notify])%list ∧
           at_pc (step Taken (step t (step (Event op read) l))) = AtSelect ∧
           doc (step Taken (step t (step (Event op read) l))) = newData)) ∧
     (∀ err, reload read = inl err →
        notifications (step (Event op read) l) = notifications l ∧
        at_pc (step (Event op read) l) = AtSelect)) ∧
  (at_pc l = AtDrain →
     doc (step (Event op read) l) = doc l ∧
     effects (step (Event op read) l) = effects l ∧
     at_pc (step (Event op read) l) = AtSend) ∧
  (at_pc l = AtSend ∨ at_pc l = Exited → step (Event op read) l = l).
Proof.
  intros Hw. unfold isWrite in Hw. split; [intros Hpc; split|split].
  - intros newData Hr.
    assert (Hs : step (Event op read) l =
                 {| doc := newData; at_pc := AtDrain;
                    effects := effects l ++ [Lock; Store newData; Unlock] |}).
    { unfold step. rewrite Hpc, Hw. unfold reload in Hr.
      destruct read as [e|data]; [discriminate|]. by rewrite Hr. }
    rewrite Hs. simpl.
    assert (Hn : notifications
                   (mkListener newData AtDrain (effects l ++ [Lock; Store newData; Unlock]))
                 = notifications l).
    { rewrite notifications_mk, no_Notify_in_swap. simpl.
      unfold notifications. lia. }
    split; [done|]. split; [done|]. split; [done|]. split; [exact Hn|]. split.
    + intros t Ht. by destruct t.
    + intros t Ht.
      assert (Ht' : step t (mkListener newData AtDrain
                              (effects l ++ [Lock; Store newData; Unlock]))
                    = mkListener newData AtSend
                        (effects l ++ [Lock; Store newData; Unlock])).
      { destruct t; try discriminate; unfold step, goto; simpl;
          by rewrite app_nil_r. }
      rewrite Ht'. split; [done|]. split; [done|]. split.
      { rewrite notifications_mk, no_Notify_in_swap. simpl.
        unfold notifications. lia. }
      unfold step, goto. simpl. by rewrite <- app_assoc.
  - intros err Hr. unfold step. rewrite Hpc, Hw. unfold reload in Hr.
    destruct read as [e|data].
    + rewrite notifications_goto. simpl. split; [lia|done].
    + rewrite Hr. rewrite notifications_goto. simpl. split; [lia|done].
  - intros Hpc. unfold step. rewrite Hpc. unfold goto. simpl.
    by rewrite app_nil_r.
  - intros [Hpc|Hpc]; unfold step; by rewrite Hpc.
Qed.

End Notifications.

(** C5 fails as stated, three times.  After a successful reload the
    listener sends nothing while no further event arrives, even with the
    receiver waiting; an event that is not a write, followed by any other
    event, makes it send a notification though nothing was reloaded; and a
    write of [{"id": 3}] that arrives while the listener is in its second
    receive is not reloaded: the one notification is sent with the document
    still [{"id": 2}]. *)
Lemma notification_counterexample :
  (Json.doc (Json.steps [Json.Event Json.Write (inr (js "{'id': 2}"))]
               (Json.listen testHandle)) = documentOf (js "{'id': 2}") ∧
   Json.notifications
     (Json.steps [Json.Event Json.Write (inr (js "{'id': 2}")); Json.Taken;
                  Json.ErrorReceived (OSError "overflow"); Json.Taken]
        (Json.listen testHandle)) = 0%nat) ∧
  (Json.stores (Json.steps [Json.Event Chmod (inr personText);
                            Json.Event Chmod (inr personText); Json.Taken]
                  (Json.listen testHandle)) = [] ∧
   Json.notifications
     (Json.steps [Json.Event Chmod (inr personText);
                  Json.Event Chmod (inr personText); Json.Taken]
        (Json.listen testHandle)) = 1%nat) ∧
  (GoJSON.unmarshalMap (js "{'id': 3}") = inr (documentOf (js "{'id': 3}")) ∧
   documentOf (js "{'id': 3}") ≠ documentOf (js "{'id': 2}") ∧
   Json.doc (Json.steps [Json.Event Json.Write (inr (js "{'id': 2}"));
                         Json.Event Json.Write (inr (js "{'id': 3}")); Json.Taken]
               (Json.listen testHandle)) = documentOf (js "{'id': 2}") ∧
   Json.notifications
     (Json.steps [Json.Event Json.Write (inr (js "{'id': 2}"));
                  Json.Event Json.Write (inr (js "{'id': 3}")); Json.Taken]
        (Json.listen testHandle)) = 1%nat).
Proof. repeat split; try (vm_compute; reflexivity). by vm_compute. Qed.

(** The file changes to [{"id": 2}]; the next event is a second write. *)
Lemma successful_reload_notifies_witness :
  Json.doc (Json.step (Json.Event Json.Write (inr (js "{'id': 2}")))
              (Json.listen testHandle)) = documentOf (js "{'id': 2}") ∧
  Json.at_pc (Json.step (Json.Event Json.Write (inr (js "{'id': 2}")))
                (Json.listen testHandle)) = Json.AtDrain ∧
  Json.effects
    (Json.step Json.Taken
       (Json.step (Json.Event Json.Write (inr (js "{'id': 2}")))
          (Json.step (Json.Event Json.Write (inr (js "{'id': 2}")))
             (Json.listen testHandle))))
    = [Json.Lock; Json.Store (documentOf (js "{'id': 2}")); Json.Unlock; Json.Notify] ∧
  Json.notifications
    (Json.step (Json.Event Json.Write (inr unquotedKeyText)) (Json.listen testHandle))
    = 0%nat.
Proof.
  destruct (proj1 (@successful_reload_notifies go_decoder (Json.listen testHandle)
                     Json.Write (inr (js "{'id': 2}")) eq_refl) eq_refl) as [Hok _].
  destruct (Hok (documentOf (js "{'id': 2}")) ltac:(vm_compute; reflexivity))
    as (Hd & _ & Hp & _ & _ & Hnext).
  destruct (Hnext (Json.Event Json.Write (inr (js "{'id': 2}"))) eq_refl)
    as (_ & _ & _ & He & _ & _).
  destruct (proj1 (@successful_reload_notifies go_decoder (Json.listen testHandle)
                     Json.Write (inr unquotedKeyText) eq_refl) eq_refl) as [_ Hfail].
  destruct (Hfail (SyntaxError) ltac:(vm_compute; reflexivity))
    as [Hn _].
  split; [exact Hd|]. split; [exact Hp|]. split; [exact He|exact Hn].
Defined.

(** ** Reading while the document is replaced (C6) *)

Lemma no_load_run {A} (p : prog A) :
  no_load p → ∀ reloads n c c', run_during p reloads n c = run p c'.
Proof.
  induction 1 as [o|k Hk IH]; intros reloads n c c'.
  - by destruct reloads as [|[?|] ?].
  - simpl. apply IH.
Qed.

(** While the read lock is held the listener cannot store: the program
    sees one document. *)
Lemma held_run {A} (p : prog A) :
  held p → ∀ reloads n c, run_during p reloads (S n) c = run p c.
Proof.
  induction 1 as [o|k Hk IH|k Hk]; intros reloads n c.
  - by destruct reloads as [|[?|] ?].
  - simpl. destruct reloads as [|[d|] reloads]; simpl; apply IH.
  - simpl. by apply no_load_run.
Qed.

(** A program that keeps the lock discipline returns what it returns alone
    on one of the documents: the one it found when it took the lock. *)
Lemma guarded_run {A} (p : prog A) :
  guarded p → ∀ reloads c,
  ∃ c', c' ∈ documents c reloads ∧ run_during p reloads 0 c = run p c'.
Proof.
  intros [k Hk] reloads c. unfold documents.
  destruct reloads as [|[d|] reloads]; simpl.
  - exists c. split; [set_solver|]. by apply held_run.
  - exists d. split; [set_solver|]. by apply held_run.
  - exists c. split; [set_solver|]. by apply held_run.
Qed.

(** A method on a copy of the handle works on the one document it copied,
    with the copy's mutex as the listener left the handle's at that
    moment. *)
Lemma on_copy_run {A} (p : prog A) reloads c :
  run_during (on_copy p) reloads 0 c =
  match tail reloads with
  | Some _ :: _ => run_locked p (loaded reloads c)
  | _ => run p (loaded reloads c)
  end.
Proof.
  unfold on_copy, loaded.
  by destruct reloads as [|[d|] [|[d'|] reloads]].
Qed.

Lemma loaded_documents reloads c : loaded reloads c ∈ documents c reloads.
Proof. unfold loaded, documents. destruct reloads as [|[d|] reloads]; set_solver. Qed.

Lemma no_load_bind {A B} (f : A → prog B) (p : prog A) :
  no_load p → (∀ a, no_load (f a)) → no_load (p ≫= f).
Proof.
  intros Hp Hf. unfold mbind, prog_mbind.
  induction Hp as [[a|e|x]|k Hk IH]; simpl; try constructor; auto.
Qed.

Lemma held_bind {A B} (f : A → prog B) (p : prog A) :
  held p → (∀ a, no_load (f a)) → held (p ≫= f).
Proof.
  intros Hp Hf. unfold mbind, prog_mbind.
  induction Hp as [[a|e|x]|k Hk IH|k Hk]; simpl.
  - destruct (Hf a); constructor; auto.
  - constructor.
  - constructor.
  - constructor. auto.
  - constructor. by apply (no_load_bind f k).
Qed.

Lemma guarded_bind {A B} (f : A → prog B) (p : prog A) :
  guarded p → (∀ a, no_load (f a)) → guarded (p ≫= f).
Proof. intros [k Hk] Hf. constructor. by apply (held_bind f k). Qed.

Lemma no_load_or_default {A} (p : prog A) d : no_load p → no_load (or_default p d).
Proof. induction 1 as [[a|e|x]|k Hk IH]; simpl; constructor; auto. Qed.

Lemma guarded_or_default {A} (p : prog A) d : guarded p → guarded (or_default p d).
Proof.
  intros [k Hk]. simpl. constructor.
  induction Hk as [[a|e|x]|k Hk IH|k Hk]; simpl; constructor; auto.
  by apply no_load_or_default.
Qed.

Lemma no_load_or_panic {A} (p : prog A) : no_load p → no_load (or_panic p).
Proof. induction 1 as [[a|e|x]|k Hk IH]; simpl; constructor; auto. Qed.

Lemma guarded_or_panic {A} (p : prog A) : guarded p → guarded (or_panic p).
Proof.
  intros [k Hk]. simpl. constructor.
  induction Hk as [[a|e|x]|k Hk IH|k Hk]; simpl; constructor; auto.
  by apply no_load_or_panic.
Qed.

Section Locking.
Context `{Decoder}.

Lemma guarded_getValue {A} (unmarshal : string → result A) key :
  guarded (Json.getValue unmarshal key).
Proof.
  unfold Json.getValue. constructor. simpl. constructor. intros c1.
  destruct (has_key c1 key); simpl.
  - constructor. intros c2. unfold deref.
    destruct (index c2 key) as [raw|]; [|constructor].
    destruct (unmarshal raw); simpl; repeat constructor.
  - repeat constructor.
Qed.

Lemma guarded_SectionAsJSON key : guarded (Json.SectionAsJSON key).
Proof.
  unfold Json.SectionAsJSON. constructor. simpl. constructor. intros c1.
  destruct (has_key c1 key); simpl.
  - unfold deref. destruct (index c1 key); repeat constructor.
  - repeat constructor.
Qed.

Lemma guarded_getTime key : guarded (Json.getTime key).
Proof.
  unfold Json.getTime. apply guarded_bind; [apply guarded_getValue|].
  intros s. destruct (time_Parse "2.1.2006" s); constructor.
Qed.

Lemma guarded_getDuration key : guarded (Json.getDuration key).
Proof.
  unfold Json.getDuration. apply guarded_bind; [apply guarded_getValue|].
  intros s. destruct (time_ParseDuration s); constructor.
Qed.

(** [Section] and [UnmarshalSection] load [c.c] without the lock. *)
Lemma Section_not_guarded key : ¬ guarded (Json.Section key).
Proof. intros Hg. inversion Hg. Qed.

Lemma UnmarshalSection_not_guarded {A} (unmarshal : string → result A) key :
  ¬ guarded (Json.UnmarshalSection unmarshal key).
Proof. intros Hg. inversion Hg. Qed.

(** The typed accessors and [SectionAsJSON] see one document, whenever the
    listener stores. *)
Lemma locked_accessors_atomic key reloads c :
  (∀ d, ∃ c', c' ∈ documents c reloads ∧
        run_during (Json.GetInt key d) reloads 0 c = run (Json.GetInt key d) c') ∧
  (∀ d, ∃ c', c' ∈ documents c reloads ∧
        run_during (Json.GetString key d) reloads 0 c = run (Json.GetString key d) c') ∧
  (∀ d, ∃ c', c' ∈ documents c reloads ∧
        run_during (Json.GetUint64 key d) reloads 0 c = run (Json.GetUint64 key d) c') ∧
  (∀ d, ∃ c', c' ∈ documents c reloads ∧
        run_during (Json.GetBool key d) reloads 0 c = run (Json.GetBool key d) c') ∧
  (∀ d, ∃ c', c' ∈ documents c reloads ∧
        run_during (Json.GetStringSlice key d) reloads 0 c
          = run (Json.GetStringSlice key d) c') ∧
  (∀ d, ∃ c', c' ∈ documents c reloads ∧
        run_during (Json.GetTime key d) reloads 0 c = run (Json.GetTime key d) c') ∧
  (∀ d, ∃ c', c' ∈ documents c reloads ∧
        run_during (Json.GetDuration key d) reloads 0 c
          = run (Json.GetDuration key d) c') ∧
  (∃ c', c' ∈ documents c reloads ∧
         run_during (Json.SectionAsJSON key) reloads 0 c
           = run (Json.SectionAsJSON key) c').
Proof.
  unfold Json.GetInt, Json.GetString, Json.GetUint64, Json.GetBool,
    Json.GetStringSlice, Json.GetTime, Json.GetDuration,
    Json.getInt, Json.getString, Json.getUint64, Json.getBool, Json.getStringSlice.
  repeat split; intros; apply guarded_run;
    try apply guarded_or_default;
    first [apply guarded_getValue | apply guarded_getTime
          | apply guarded_getDuration | apply guarded_SectionAsJSON].
Qed.

End Locking.

(** C6.  Not every accessor reads under the lock.  [MustGetTime] copies the
    handle without it and locks the mutex of the copy; [Section] and
    [UnmarshalSection] load [c.c] twice without taking any lock.  With the
    document [{"address": {"city": "Moscow"}}] replaced by [{"id": 2}]
    between the two loads, [Section("address")] finds the key in the old
    document and dereferences the nil pointer of the new one: it panics,
    though it returns a section on the old document alone and an error on
    the new one alone.  [GetString] on the same schedule returns what it
    returns on the old document. *)
Theorem Section_reads_without_lock :
  (∀ key, ¬ guarded (Json.MustGetTime key)) ∧
  (∀ key, ¬ guarded (Json.Section key)) ∧
  (∀ key, ¬ guarded (Json.UnmarshalSection GoJSON.unmarshalString key)) ∧
  is_Ret (run (Json.Section "address") (documentOf (js "{'address': {'city': 'Moscow'}}")))
    = true ∧
  run (Json.Section "address") (documentOf (js "{'id': 2}"))
    = Fail (Errorf "section address not present in config") ∧
  run_during (Json.Section "address") [None; Some (documentOf (js "{'id': 2}"))] 0
    (documentOf (js "{'address': {'city': 'Moscow'}}")) = Panic NilDereference ∧
  run_during (Json.UnmarshalSection GoJSON.unmarshalString "address")
    [None; Some (documentOf (js "{'id': 2}"))] 0
    (documentOf (js "{'address': {'city': 'Moscow'}}")) = Panic NilDereference ∧
  run_during (Json.GetString "address" "none") [None; Some (documentOf (js "{'id': 2}"))] 0
    (documentOf (js "{'address': {'city': 'Moscow'}}"))
    = run (Json.GetString "address" "none")
        (documentOf (js "{'address': {'city': 'Moscow'}}")).
Proof.
  split; [intros key Hg; inversion Hg|].
  split; [intros key; apply Section_not_guarded|].
  split; [intros key; apply UnmarshalSection_not_guarded|].
  repeat split; vm_compute; reflexivity.
Qed.

(** ** Sections of parsed documents *)

(** In a document that [newConf] returned, every key whose raw value begins
    with a brace has a section, and the section is again such a document. *)
Lemma Section_of_parsed_document s cfg key raw :
  Json.newConf s = inr cfg → Json.c cfg !! key = Some (Some raw) →
  GoJSON.topLevel raw = Some "{"%char →
  ∃ section, run (Json.Section key) (Json.c cfg) = Ret section ∧
             Json.New raw = inr section ∧ docOk (Json.c section).
Proof.
  intros Hn Hk Ht. unfold Json.newConf in Hn.
  change (unmarshal_map s) with (GoJSON.unmarshalMap s) in Hn.
  destruct (GoJSON.unmarshalMap s) as [err|m] eqn:Hm; [done|].
  injection Hn as <-. simpl in Hk.
  assert (Hw : jsonTextWithin GoJSON.maxNestingDepth raw)
    by (by apply (parsed_raw_within s m key)).
  destruct (unmarshalMap_object raw Hw Ht) as (ms & Hp & Hraw).
  exists (Json.configOf (GoJSON.storeMembers ms ∅)). split; [|split].
  - rewrite Json_run_Section. unfold lookup_outcome. simpl. rewrite Hk.
    unfold Json.newConf. simpl. by rewrite Hraw.
  - unfold Json.New, Json.newConf. simpl. by rewrite Hraw.
  - simpl. by apply (unmarshalMap_docOk raw).
Qed.

(** * Further properties *)

(** ** Documents that [newConf] returned *)

Section Parsed.
Import GoJSON.

Lemma parseValue_n n d r v rest :
  parseValue n d (String "n" r) = Some (v, rest) → v = Null.
Proof.
  destruct n as [|n]; [done|]. cbn [parseValue].
  change (code "n" =? 123)%N with false. change (code "n" =? 91)%N with false.
  change (code "n" =? 34)%N with false. cbv iota.
  change (stripPrefix "true" (String "n" r)) with (@None string).
  change (stripPrefix "false" (String "n" r)) with (@None string). cbv iota.
  destruct (stripPrefix "null" (String "n" r)); [by intros [= <- _]|].
  unfold scanNumber. change (code "n" =? 45)%N with false. cbv iota.
  unfold scanInt. change (code "n" =? 48)%N with false.
  change (isDigit19 "n") with false. done.
Qed.

Lemma topLevel_value p ch r : begins valueStart p → p = String ch r → topLevel p = Some ch.
Proof.
  intros (a & x & -> & Ha & _) [= -> ->]. unfold topLevel.
  by rewrite skipSpace_nonspace.
Qed.

Lemma parse_noNull n :
  ∀ d s ms r, parseMembers n d s = Some (ms, r) → rawsNoNull ms.
Proof.
  induction n as [|n IH]; intros d s ms r; [done|].
  destruct s as [|ch r0]; [done|]. cbn [parseMembers].
  destruct (code ch =? 34)%N; [|done].
  destruct (scanString r0) as [[key s1]|]; [|done].
  destruct (skipSpace s1) as [|colon s2]; [done|].
  destruct (code colon =? 58)%N; [|done].
  destruct (parseValue n d (skipSpace s2)) as [[v s4]|] eqn:Ev; [|done].
  assert (Hm : v = Null ∨ topLevel (consumed (skipSpace s2) s4) ≠ Some "n"%char).
  { destruct (proj1 (parse_sound n) _ _ _ _ Ev) as (pv & Hpv & Hv & _).
    rewrite Hpv, consumed_app. apply (proj1 within_jvalue) in Hv.
    destruct (jvalue_head pv Hv) as (a & x & -> & Ha).
    destruct (decide (a = "n"%char)) as [->|Hne].
    - left. rewrite Hpv, sapp_cons in Ev. by apply parseValue_n in Ev.
    - right. rewrite (topLevel_value (String a x) a x); [congruence| |done].
      by exists a, x. }
  destruct (skipSpace s4) as [|sep s5]; [done|].
  destruct (code sep =? 125)%N.
  { intros [= <- _]. by constructor. }
  destruct (code sep =? 44)%N; [|done].
  destruct (parseMembers n d (skipSpace s5)) as [[ms' rest]|] eqn:Em; [|done].
  intros [= <- _]. constructor; [done|]. by apply (IH _ _ _ _ Em).
Qed.

Lemma parse_Object_noNull s ms : parse s = Some (Object ms) → rawsNoNull ms.
Proof.
  unfold parse. destruct (parseValue _ _ _) as [[v rest]|] eqn:Ev; [|done].
  destruct (skipSpace rest); [|done]. intros [= ->].
  destruct (skipSpace s) as [|ch r0]; [done|]. cbn [parseValue] in Ev.
  destruct (code ch =? 123)%N.
  - destruct maxNestingDepth as [|d]; [done|].
    destruct (skipSpace r0) as [|ch1 r1]; [done|].
    destruct (code ch1 =? 125)%N; [injection Ev as <- _; constructor|].
    destruct (parseMembers _ _ _) as [[ms' rest']|] eqn:Em; [|done].
    injection Ev as <- _. by apply (parse_noNull _ _ _ _ _ Em).
  - destruct (code ch =? 91)%N.
    { destruct maxNestingDepth as [|d]; [done|].
      destruct (skipSpace r0) as [|ch1 r1]; [done|].
      destruct (code ch1 =? 93)%N; [done|].
      by destruct (parseElements _ _ _) as [[? ?]|]. }
    destruct (code ch =? 34)%N; [by destruct (scanString r0) as [[? ?]|]|].
    destruct (stripPrefix "true" _); [done|].
    destruct (stripPrefix "false" _); [done|].
    destruct (stripPrefix "null" _); [done|].
    by destruct (scanNumber _) as [[? ?]|].
Qed.

Lemma storeMembers_noNull ms : rawsNoNull ms → ∀ m, docNoNull m → docNoNull (storeMembers ms m).
Proof.
  induction 1 as [|[[k raw] v] ms Hm Hms IH]; intros m Hd; [done|].
  simpl. apply IH. intros key raw' Hk.
  destruct (decide (unquote k = key)) as [<-|Hne].
  - rewrite lookup_insert_eq in Hk. simpl in Hm.
    destruct Hm as [-> | Hm]; [done|]. destruct v; simpl in Hk; congruence.
  - rewrite lookup_insert_ne in Hk by done. by apply (Hd key).
Qed.

(** The raw values of a decoded map are JSON values other than [null]. *)
Lemma unmarshalMap_noNull s m : unmarshalMap s = inr m → docNoNull m.
Proof.
  unfold unmarshalMap, withValue. destruct (parse s) as [v|] eqn:Ep; [|done].
  destruct v; try done; intros [= <-].
  - intros key raw Hk. by rewrite lookup_empty in Hk.
  - apply storeMembers_noNull; [by apply (parse_Object_noNull s)|].
    intros key raw Hk. by rewrite lookup_empty in Hk.
Qed.

(** The first byte of a text tells whether its value is an object, and
    whether it is [null]. *)
Lemma parse_kind s v :
  parse s = Some v →
  (topLevel s = Some "{"%char ↔ ∃ ms, v = Object ms) ∧
  (topLevel s = Some "n"%char ↔ v = Null).
Proof.
  unfold parse, topLevel.
  destruct (parseValue _ _ _) as [[v' rest]|] eqn:Ev; [|done].
  destruct (skipSpace rest); [|done]. intros [= ->].
  destruct (skipSpace s) as [|ch r0]; [done|]. cbn [parseValue] in Ev.
  destruct (code ch =? 123)%N eqn:Eo.
  { apply code_is in Eo as ->.
    assert (∃ ms, v = Object ms) as [ms ->].
    { destruct maxNestingDepth as [|d]; [done|].
      destruct (skipSpace r0) as [|ch1 r1]; [done|].
      destruct (code ch1 =? 125)%N; [injection Ev as <- _; eauto|].
      destruct (parseMembers _ _ _) as [[ms' rest']|]; [|done].
      injection Ev as <- _. eauto. }
    split; split; eauto; try done. }
  assert (Hno : Some ch ≠ Some "{"%char).
  { intros [= ->]. discriminate Eo. }
  destruct (code ch =? 91)%N eqn:Ea.
  { apply code_is in Ea as ->. destruct maxNestingDepth as [|d]; [done|].
    destruct (skipSpace r0) as [|ch1 r1]; [done|].
    destruct (code ch1 =? 93)%N.
    - injection Ev as <- _. split; split; try done; by intros [? ?].
    - destruct (parseElements _ _ _) as [[? ?]|]; [|done].
      injection Ev as <- _. split; split; try done; by intros [? ?]. }
  destruct (code ch =? 34)%N eqn:Eq.
  { apply code_is in Eq as ->. destruct (scanString r0) as [[? ?]|]; [|done].
    injection Ev as <- _. split; split; try done; by intros [? ?]. }
  destruct (stripPrefix "true" _) eqn:Et.
  { injection Ev as <- _. apply stripPrefix_Some in Et. injection Et as -> _.
    split; split; try done; by intros [? ?]. }
  destruct (stripPrefix "false" _) eqn:Ef.
  { injection Ev as <- _. apply stripPrefix_Some in Ef. injection Ef as -> _.
    split; split; try done; by intros [? ?]. }
  destruct (stripPrefix "null" _) eqn:En.
  { injection Ev as <- _. apply stripPrefix_Some in En. injection En as -> _.
    split; split; try done; by intros [? ?]. }
  destruct (scanNumber _) as [[lit rest']|] eqn:Enum; [|done].
  injection Ev as <- _. split; split; try done; try by intros [? ?].
  intros [= ->]. exfalso. revert Enum. unfold scanNumber.
  change (code "n" =? 45)%N with false. cbv iota.
  unfold scanInt. change (code "n" =? 48)%N with false.
  change (isDigit19 "n") with false. done.
Qed.

Lemma parsed_value raw : jvalueWithin maxNestingDepth raw → ∃ v, parse raw = Some v.
Proof. intros Hv. apply jsonText_parse. by apply jvalueWithin_jsonTextWithin. Qed.

(** On a text that parses, the typed decoders fail with type errors only. *)
Lemma typed_decoders raw v :
  parse raw = Some v →
  match unmarshalInt raw with inl e => isTypeError e = true | inr _ => True end ∧
  match unmarshalUint64 raw with inl e => isTypeError e = true | inr _ => True end ∧
  match unmarshalString raw with inl e => isTypeError e = true | inr _ => True end ∧
  match unmarshalBool raw with inl e => isTypeError e = true | inr _ => True end ∧
  match unmarshalStringSlice raw with inl e => isTypeError e = true | inr _ => True end ∧
  match unmarshalMap raw with inl e => isTypeError e = true | inr _ => True end.
Proof.
  intros Hp. unfold unmarshalInt, unmarshalUint64, unmarshalString, unmarshalBool,
    unmarshalStringSlice, unmarshalMap, withValue. rewrite Hp.
  split; [|split; [|split; [|split; [|split]]]];
    destruct v as [|b|lit|q|vs|ms]; simpl; try done.
  - destruct (parseInt lit); [|done]. by destruct (_ && _).
  - destruct (parseUint lit); [|done]. by destruct (_ <=? _).
  - assert (∀ l o, storeStrings vs = (l, Some o) → isTypeError o = true) as Hs.
    { clear. induction vs as [|v vs IH]; intros l o; simpl; [done|].
      destruct (storeStrings vs) as [l' e].
      destruct v; intros Heq; injection Heq as _ He; subst;
        first [done | by eapply IH]. }
    destruct (storeStrings vs) as [l [o|]] eqn:E; [|done]. by apply (Hs l).
Qed.

End Parsed.

Lemma getterOk_getValue `{Decoder} {A} (unmarshal : string → result A) lib key c :
  (∀ raw, c !! key = Some (Some raw) →
          match unmarshal raw with inl e => lib e = true | inr _ => True end) →
  getterOk lib key c (run (Json.getValue unmarshal key) c).
Proof.
  intros Hu. rewrite Json_run_getValue. unfold lookup_outcome, getterOk.
  destruct (c !! key) as [[raw|]|] eqn:Hk; [|done|by left].
  specialize (Hu raw eq_refl). destruct (unmarshal raw); simpl; eauto.
Qed.

Lemma getterOk_bind {A B} (f : A → result B) (p : prog A) (lib lib' : error → bool) key c :
  getterOk lib key c (run p c) →
  (∀ e, lib e = true → lib' e = true) →
  (∀ a, match f a with inl e => lib' e = true | inr _ => True end) →
  getterOk lib' key c
    (run (p ≫= λ a, match f a with inl e => fail e | inr v => mret v end) c).
Proof.
  intros Hp Hl Hf. rewrite run_bind. destruct (run p c) as [a|e|x]; simpl in *.
  - specialize (Hf a). destruct (f a); simpl; [by right|done].
  - destruct Hp as [?|[? He]]; [by left|right]. split; [done|]. by apply Hl.
  - done.
Qed.

Lemma durationLoop_error n : ∀ orig s d e,
  GoTime.durationLoop n orig s d = inl e → isDurationError e = true.
Proof.
  induction n as [|n IH]; intros orig s d e; simpl.
  - destruct s; [done|by intros [= <-]].
  - destruct s as [|ch r]; [done|].
    destruct (negb _); [by intros [= <-]|].
    destruct (GoTime.leadingInt (String ch r) 0) as [[v s1]|]; [|by intros [= <-]].
    destruct (match s1 with String dot r0 => _ | EmptyString => _ end) as [[f scale] s2].
    destruct (_ && _); [by intros [= <-]|].
    destruct (GoTime.scanUnit s2) as [u s3].
    destruct (bool_decide _); [by intros [= <-]|].
    destruct (GoTime.unitOf u); [|by intros [= <-]].
    destruct (_ <? _); [by intros [= <-]|].
    destruct (_ && _); [by intros [= <-]|].
    destruct (_ <? _); [by intros [= <-]|]. apply IH.
Qed.

Lemma ParseDuration_error str e :
  GoTime.ParseDuration str = inl e → isDurationError e = true.
Proof.
  unfold GoTime.ParseDuration.
  destruct (match str with String "-" r => _ | String "+" r => _ | _ => _ end)
    as [neg s0].
  destruct (bool_decide _); [done|]. destruct (bool_decide _); [by intros [= <-]|].
  destruct (GoTime.durationLoop _ _ _ _) as [e1|d1] eqn:El.
  - intros [= <-]. by apply (durationLoop_error _ _ _ _ _ El).
  - destruct neg; [done|]. destruct (_ <? _); [by intros [= <-]|done].
Qed.

(** X1.  On a document that [newConf] returned, a typed getter returns a
    value only for a key that holds a raw value; it fails either with the
    error that names the absent key, or, for a key that holds a raw value,
    with an [UnmarshalTypeError] of the decoder ([getTime] also with a
    [ParseError] of [time.Parse], [getDuration] also with an error of
    [time.ParseDuration]); and it panics only on a nil pointer, stored for
    the value [null].  It never fails with a syntax error. *)
Theorem getters_on_parsed_document (s : string) (cfg : Json.Config) (key : string) :
  Json.newConf s = inr cfg →
  getterOk isTypeError key (Json.c cfg) (run (Json.getInt key) (Json.c cfg)) ∧
  getterOk isTypeError key (Json.c cfg) (run (Json.getUint64 key) (Json.c cfg)) ∧
  getterOk isTypeError key (Json.c cfg) (run (Json.getString key) (Json.c cfg)) ∧
  getterOk isTypeError key (Json.c cfg) (run (Json.getBool key) (Json.c cfg)) ∧
  getterOk isTypeError key (Json.c cfg) (run (Json.getStringSlice key) (Json.c cfg)) ∧
  getterOk (λ e, isTypeError e || isParseError e) key (Json.c cfg)
    (run (Json.getTime key) (Json.c cfg)) ∧
  getterOk (λ e, isTypeError e || isDurationError e) key (Json.c cfg)
    (run (Json.getDuration key) (Json.c cfg)).
Proof.
  intros Hn. unfold Json.newConf in Hn.
  change (unmarshal_map s) with (GoJSON.unmarshalMap s) in Hn.
  destruct (GoJSON.unmarshalMap s) as [err|m] eqn:Hm; [done|]. injection Hn as <-.
  change (Json.c (Json.configOf m)) with m.
  pose proof (unmarshalMap_docWithin s m Hm) as Hok.
  assert (Hd : ∀ raw, m !! key = Some (Some raw) → ∃ v, GoJSON.parse raw = Some v).
  { intros raw Hk. apply parsed_value. by apply (Hok key). }
  assert (Hstr : getterOk isTypeError key m (run (Json.getString key) m)).
  { apply getterOk_getValue. intros raw Hk. destruct (Hd raw Hk) as [v Hv].
    apply (typed_decoders raw v Hv). }
  split; [|split; [|split; [|split; [|split; [|split]]]]].
  - apply getterOk_getValue. intros raw Hk. destruct (Hd raw Hk) as [v Hv].
    apply (typed_decoders raw v Hv).
  - apply getterOk_getValue. intros raw Hk. destruct (Hd raw Hk) as [v Hv].
    apply (typed_decoders raw v Hv).
  - exact Hstr.
  - apply getterOk_getValue. intros raw Hk. destruct (Hd raw Hk) as [v Hv].
    apply (typed_decoders raw v Hv).
  - apply getterOk_getValue. intros raw Hk. destruct (Hd raw Hk) as [v Hv].
    apply (typed_decoders raw v Hv).
  - apply (getterOk_bind (time_Parse "2.1.2006") _ isTypeError); [exact Hstr| |].
    + intros e ->. done.
    + intros str. change (time_Parse "2.1.2006" str) with (GoTime.parseDMY str).
      destruct (parseDMY_error str) as [[t Ht]|[msg Ht]]; by rewrite Ht.
  - apply (getterOk_bind time_ParseDuration _ isTypeError); [exact Hstr| |].
    + intros e ->. done.
    + intros str. change (time_ParseDuration str) with (GoTime.ParseDuration str).
      destruct (GoTime.ParseDuration str) as [e|d] eqn:Ed; [|done].
      rewrite (ParseDuration_error str e Ed). apply orb_true_r.
Qed.

(** [getInt] on the key of an object, and [getTime] on the key of a date, in
    the test document. *)
Lemma getters_on_parsed_document_witness :
  getterOk isTypeError "address" (Json.c testHandle)
    (run (Json.getInt "address") (Json.c testHandle)) ∧
  getterOk (λ e, isTypeError e || isParseError e) "birthday" (Json.c testHandle)
    (run (Json.getTime "birthday") (Json.c testHandle)).
Proof.
  split.
  - exact (proj1 (getters_on_parsed_document personText testHandle "address"
                    ltac:(vm_compute; reflexivity))).
  - exact (proj1 (proj2 (proj2 (proj2 (proj2 (proj2
             (getters_on_parsed_document personText testHandle "birthday"
                ltac:(vm_compute; reflexivity)))))))).
Defined.

(** X2.  On a document that [newConf] returned, [Section] returns a section
    exactly for a key whose raw value is an object (it begins with a brace),
    and the section is again a document of JSON values other than [null];
    it fails with the error that names the key when the key is absent, and
    with an [UnmarshalTypeError] when the raw value is not an object; it
    panics only on a nil pointer. *)
Theorem Section_on_parsed_document (s : string) (cfg : Json.Config) (key : string) :
  Json.newConf s = inr cfg →
  sectionOk key (Json.c cfg)
    (λ raw section, GoJSON.topLevel raw = Some "{"%char ∧
                    docOk (Json.c section) ∧ docNoNull (Json.c section))
    (λ raw e, GoJSON.topLevel raw ≠ Some "{"%char ∧ isTypeError e = true)
    (run (Json.Section key) (Json.c cfg)).
Proof.
  intros Hn. unfold Json.newConf in Hn.
  change (unmarshal_map s) with (GoJSON.unmarshalMap s) in Hn.
  destruct (GoJSON.unmarshalMap s) as [err|m] eqn:Hm; [done|]. injection Hn as <-.
  change (Json.c (Json.configOf m)) with m.
  rewrite Json_run_Section. unfold lookup_outcome, sectionOk.
  destruct (m !! key) as [[raw|]|] eqn:Hk; [|done|by left].
  assert (Hv : jvalueWithin GoJSON.maxNestingDepth raw)
    by (by apply (unmarshalMap_docWithin s m Hm key)).
  destruct (parsed_value raw Hv) as [v Hp].
  destruct (parse_kind raw v Hp) as [Hobj Hnull].
  assert (Hnn : v ≠ GoJSON.Null).
  { intros ->. apply (unmarshalMap_noNull s m Hm key raw Hk). by apply Hnull. }
  unfold Json.newConf. change (unmarshal_map raw) with (GoJSON.unmarshalMap raw).
  destruct (GoJSON.unmarshalMap raw) as [e|m'] eqn:Hm'; simpl.
  - right. exists raw. split; [done|]. split.
    + intros Ht. apply Hobj in Ht as [ms ->].
      unfold GoJSON.unmarshalMap, GoJSON.withValue in Hm'. by rewrite Hp in Hm'.
    + pose proof (typed_decoders raw v Hp) as (_ & _ & _ & _ & _ & Ht).
      by rewrite Hm' in Ht.
  - exists raw. split; [done|]. split; [|split].
    + apply Hobj. unfold GoJSON.unmarshalMap, GoJSON.withValue in Hm'.
      rewrite Hp in Hm'. destruct v; try done. eauto.
    + by apply (unmarshalMap_docOk raw).
    + by apply (unmarshalMap_noNull raw).
Qed.

Lemma Section_on_parsed_document_witness :
  sectionOk "address" (Json.c testHandle)
    (λ raw section, GoJSON.topLevel raw = Some "{"%char ∧
                    docOk (Json.c section) ∧ docNoNull (Json.c section))
    (λ raw e, GoJSON.topLevel raw ≠ Some "{"%char ∧ isTypeError e = true)
    (run (Json.Section "address") (Json.c testHandle)).
Proof.
  exact (Section_on_parsed_document personText testHandle "address"
           ltac:(vm_compute; reflexivity)).
Defined.

(** X3.  On a document that [newConf] returned, [SectionAsJSON] returns the
    raw value of the key, which is a JSON value ([json.Valid] accepts it)
    other than [null]; its only error is the one that names an absent key,
    and it panics only on a nil pointer. *)
Theorem SectionAsJSON_on_parsed_document (s : string) (cfg : Json.Config) (key : string) :
  Json.newConf s = inr cfg →
  sectionOk key (Json.c cfg)
    (λ raw text, text = raw ∧ jvalue text ∧ GoJSON.Valid text = true ∧
                 GoJSON.topLevel text ≠ Some "n"%char)
    (λ _ _, False)
    (run (Json.SectionAsJSON key) (Json.c cfg)).
Proof.
  intros Hn. unfold Json.newConf in Hn.
  change (unmarshal_map s) with (GoJSON.unmarshalMap s) in Hn.
  destruct (GoJSON.unmarshalMap s) as [err|m] eqn:Hm; [done|]. injection Hn as <-.
  change (Json.c (Json.configOf m)) with m.
  rewrite Json_run_SectionAsJSON. unfold lookup_outcome, sectionOk.
  destruct (m !! key) as [[raw|]|] eqn:Hk; [|done|by left].
  assert (Hv : jvalue raw) by (by apply (unmarshalMap_docOk s m Hm key)).
  exists raw. repeat split; try done.
  - apply Valid_within. by apply (parsed_raw_within s m key).
  - by apply (unmarshalMap_noNull s m Hm key).
Qed.

Lemma SectionAsJSON_on_parsed_document_witness :
  sectionOk "address" (Json.c testHandle)
    (λ raw text, text = raw ∧ jvalue text ∧ GoJSON.Valid text = true ∧
                 GoJSON.topLevel text ≠ Some "n"%char)
    (λ _ _, False)
    (run (Json.SectionAsJSON "address") (Json.c testHandle)).
Proof.
  exact (SectionAsJSON_on_parsed_document personText testHandle "address"
           ltac:(vm_compute; reflexivity)).
Defined.

(** ** How the accessors compose *)

Lemma Json_run_UnmarshalSection `{Decoder} {A} (unmarshal : string → result A) key c :
  run (Json.UnmarshalSection unmarshal key) c =
  lookup_outcome c key (Fail (Json.sectionNotPresent key)) (λ raw, decoded (unmarshal raw)).
Proof.
  unfold Json.UnmarshalSection, lookup_outcome, index. simpl.
  destruct (has_key c key) eqn:Hk; simpl.
  - apply has_key_true in Hk as [p Hp]. rewrite Hp. simpl.
    destruct p as [raw|]; simpl; [|done].
    destruct (unmarshal raw); done.
  - apply has_key_false in Hk. by rewrite Hk.
Qed.

(** X4.  On one document, [UnmarshalSection(key, dest)] is [SectionAsJSON(key)]
    followed by [json.Unmarshal] of the text into [dest], with the same
    error and the same panic; and [Section(key)] is [UnmarshalSection] into
    the map of a new handle. *)
Theorem UnmarshalSection_SectionAsJSON `{Decoder} {A} (unmarshal : string → result A)
    (key : string) (c : gmap string (option string)) :
  run (Json.UnmarshalSection unmarshal key) c =
    match run (Json.SectionAsJSON key) c with
    | Ret text => decoded (unmarshal text)
    | Fail e => Fail e
    | Panic p => Panic p
    end ∧
  run (Json.Section key) c =
    match run (Json.UnmarshalSection unmarshal_map key) c with
    | Ret m => Ret (Json.configOf m)
    | Fail e => Fail e
    | Panic p => Panic p
    end.
Proof.
  rewrite !Json_run_UnmarshalSection, Json_run_SectionAsJSON, Json_run_Section.
  unfold lookup_outcome, Json.newConf.
  destruct (c !! key) as [[raw|]|]; try done.
  split; [done|]. by destruct (unmarshal_map raw).
Qed.

Lemma mustAgrees_getter {A} (p : prog A) c :
  (∀ e, run p c ≠ Panic (PanicError e)) →
  mustAgrees (or_panic p) (or_default p) c.
Proof.
  intros Hp. unfold mustAgrees. rewrite run_or_panic.
  destruct (run p c) as [a|e|x] eqn:E.
  - intros d. by rewrite run_or_default, E.
  - intros d. by rewrite run_or_default, E.
  - destruct x as [| |e| |]; try (intros d; by rewrite run_or_default, E).
    by destruct (Hp e).
Qed.

Lemma getValue_no_PanicError `{Decoder} {A} (unmarshal : string → result A) key c e :
  run (Json.getValue unmarshal key) c ≠ Panic (PanicError e).
Proof.
  rewrite Json_run_getValue. unfold lookup_outcome.
  destruct (c !! key) as [[raw|]|]; try done. by destruct (unmarshal raw).
Qed.

Lemma bind_no_PanicError {A B} (f : A → result B) (p : prog A) c e :
  (∀ e', run p c ≠ Panic (PanicError e')) →
  run (p ≫= λ a, match f a with inl err => fail err | inr v => mret v end) c
    ≠ Panic (PanicError e).
Proof.
  intros Hp. rewrite run_bind. destruct (run p c) as [a|e'|x] eqn:E; try done.
  - by destruct (f a).
  - intros [= ->]. by apply (Hp e).
Qed.

(** X5.  Every [MustGet] agrees with its [Get] on every document: where
    [MustGet] returns a value, [Get] returns that value for every default;
    where [MustGet] panics with an error, [Get] returns the default; and
    where [MustGet] panics on a nil pointer, so does [Get]. *)
Theorem MustGet_agrees_with_Get `{Decoder} (key : string) (c : gmap string (option string)) :
  mustAgrees (Json.MustGetString key) (Json.GetString key) c ∧
  mustAgrees (Json.MustGetInt key) (Json.GetInt key) c ∧
  mustAgrees (Json.MustGetUint64 key) (Json.GetUint64 key) c ∧
  mustAgrees (Json.MustGetBool key) (Json.GetBool key) c ∧
  mustAgrees (Json.MustGetStringSlice key) (Json.GetStringSlice key) c ∧
  mustAgrees (Json.MustGetDuration key) (Json.GetDuration key) c ∧
  mustAgrees (Json.MustGetTime key) (Json.GetTime key) c.
Proof.
  repeat split; try (apply mustAgrees_getter; intros e; apply getValue_no_PanicError).
  - apply mustAgrees_getter. intros e. apply bind_no_PanicError.
    intros e'. apply getValue_no_PanicError.
  - assert (Hm : mustAgrees (or_panic (Json.getTime key)) (Json.GetTime key) c).
    { apply mustAgrees_getter. intros e. apply bind_no_PanicError.
      intros e'. apply getValue_no_PanicError. }
    exact Hm.
Qed.

(** ** The read lock on every path *)

Lemma locks_after_bind {A B} (f : A → prog B) (p : prog A) c : ∀ n,
  locks_after (p ≫= f) c n =
  match locks_after p c n, run p c with
  | Some m, Ret a => locks_after (f a) c m
  | r, _ => r
  end.
Proof.
  unfold mbind, prog_mbind.
  induction p as [[a|e|x]|k IH|k IH|k IH|k IH]; intros n; simpl; try done.
  destruct n; [done|]. apply IH.
Qed.

Lemma locks_after_or_default {A} (p : prog A) d c : ∀ n,
  locks_after (or_default p d) c n = locks_after p c n.
Proof.
  induction p as [[a|e|x]|k IH|k IH|k IH|k IH]; intros n; simpl; try done.
  destruct n; [done|]. apply IH.
Qed.

Lemma locks_after_or_panic {A} (p : prog A) c : ∀ n,
  locks_after (or_panic p) c n = locks_after p c n.
Proof.
  induction p as [[a|e|x]|k IH|k IH|k IH|k IH]; intros n; simpl; try done.
  destruct n; [done|]. apply IH.
Qed.

Lemma locks_after_getValue `{Decoder} {A} (unmarshal : string → result A) key c n :
  locks_after (Json.getValue unmarshal key) c n = Some (locksLeft key c n).
Proof.
  unfold Json.getValue, locksLeft, index. simpl.
  destruct (has_key c key) eqn:Hk; simpl.
  - apply has_key_true in Hk as [p Hp]. rewrite Hp. simpl.
    destruct p as [raw|]; simpl; [|done]. by destruct (unmarshal raw).
  - apply has_key_false in Hk. by rewrite Hk.
Qed.

Lemma locks_after_parse `{Decoder} {B} (f : string → result B) key c n :
  locks_after (Json.getString key ≫= λ s,
                 match f s with inl err => fail err | inr v => mret v end) c n
  = Some (locksLeft key c n).
Proof.
  rewrite locks_after_bind. unfold Json.getString.
  rewrite locks_after_getValue.
  destruct (run (Json.getValue unmarshal_string key) c) as [s|e|x]; try done.
  by destruct (f s).
Qed.

(** X6.  Every typed getter, called with any number of read locks held,
    never unlocks a lock it does not hold, and returns with the read lock
    released on every path but one: when the key holds a nil pointer it
    panics in the dereference with the read lock still held.  The [Get] and
    [MustGet] built on a getter leave the lock as the getter does.
    [SectionAsJSON] releases the lock before it dereferences, so it leaves
    no lock even when it panics; [Section] and [MustGetTime] do not touch
    the lock of the handle. *)
Theorem read_lock_released `{Decoder} (key : string) (c : gmap string (option string))
    (readers : nat) :
  (locks_after (Json.getBool key) c readers = Some (locksLeft key c readers) ∧
   locks_after (Json.getString key) c readers = Some (locksLeft key c readers) ∧
   locks_after (Json.getInt key) c readers = Some (locksLeft key c readers) ∧
   locks_after (Json.getUint64 key) c readers = Some (locksLeft key c readers) ∧
   locks_after (Json.getStringSlice key) c readers = Some (locksLeft key c readers) ∧
   locks_after (Json.getTime key) c readers = Some (locksLeft key c readers) ∧
   locks_after (Json.getDuration key) c readers = Some (locksLeft key c readers)) ∧
  (∀ d, locks_after (Json.GetString key d) c readers = Some (locksLeft key c readers)) ∧
  locks_after (Json.MustGetString key) c readers = Some (locksLeft key c readers) ∧
  locks_after (Json.SectionAsJSON key) c readers = Some readers ∧
  locks_after (Json.Section key) c readers = Some readers ∧
  locks_after (Json.MustGetTime key) c readers = Some readers ∧
  (c !! key ≠ Some None → locksLeft key c readers = readers) ∧
  (c !! key = Some None →
   locksLeft key c readers = S readers ∧
   run (Json.getString key) c = Panic NilDereference ∧
   run (Json.SectionAsJSON key) c = Panic NilDereference).
Proof.
  split; [|split; [|split; [|split; [|split; [|split; [|split]]]]]].
  - repeat split; try apply locks_after_getValue; apply locks_after_parse.
  - intros d. unfold Json.GetString. rewrite locks_after_or_default.
    apply locks_after_getValue.
  - unfold Json.MustGetString. rewrite locks_after_or_panic. apply locks_after_getValue.
  - unfold Json.SectionAsJSON, index. simpl.
    destruct (has_key c key) eqn:Hk; simpl; [|done].
    apply has_key_true in Hk as [p Hp]. rewrite Hp. simpl. by destruct p.
  - unfold Json.Section, index. simpl.
    destruct (has_key c key) eqn:Hk; simpl; [|done].
    apply has_key_true in Hk as [p Hp]. rewrite Hp. simpl.
    destruct p as [raw|]; simpl; [|done]. by destruct (unmarshal_map raw).
  - done.
  - intros Hk. unfold locksLeft. by destruct (c !! key) as [[?|]|].
  - intros Hk. unfold locksLeft, Json.getString.
    rewrite Json_run_getValue, Json_run_SectionAsJSON. unfold lookup_outcome.
    by rewrite Hk.
Qed.

(** ** Reading while the document is replaced, continued *)

Lemma guarded_atomic {A} (p : prog A) : guarded p → atomic p.
Proof. intros Hg reloads c. by apply guarded_run. Qed.

(** X7.  The six [MustGet] with pointer receivers, run while the listener
    stores new documents at any moments, return (or panic with) what they
    do alone on one of the documents, because they hold the read lock
    across their loads.  [MustGetTime] has a value receiver and works on
    the copy of the handle made at the call, mutex included: when the copy
    is taken while the listener is in [Lock] or inside its critical
    section, the copy's mutex stays closed to readers and the call never
    returns; otherwise it returns (or panics with) what it does alone on
    the document it copied, one of the documents. *)
Theorem MustGet_during_reloads `{Decoder} (key : string) :
  atomic (Json.MustGetString key) ∧ atomic (Json.MustGetInt key) ∧
  atomic (Json.MustGetUint64 key) ∧ atomic (Json.MustGetBool key) ∧
  atomic (Json.MustGetStringSlice key) ∧ atomic (Json.MustGetDuration key) ∧
  ∀ reloads c,
    loaded reloads c ∈ documents c reloads ∧
    run_during (Json.MustGetTime key) reloads 0 c =
    match tail reloads with
    | Some _ :: _ => Panic Blocked
    | _ => run (Json.MustGetTime key) (loaded reloads c)
    end.
Proof.
  unfold Json.MustGetString, Json.MustGetInt, Json.MustGetUint64, Json.MustGetBool,
    Json.MustGetStringSlice, Json.MustGetDuration,
    Json.getInt, Json.getString, Json.getUint64, Json.getBool, Json.getStringSlice.
  repeat (split; [apply guarded_atomic, guarded_or_panic;
    first [apply guarded_getValue | apply guarded_getDuration]|]).
  intros reloads c. split; [apply loaded_documents|].
  unfold Json.MustGetTime. rewrite on_copy_run.
  destruct (tail reloads) as [|[d|] rest]; reflexivity.
Qed.

Lemma run_during_Done {A} (o : outcome A) reloads n c :
  run_during (Done o) reloads n c = o.
Proof. by destruct reloads as [|[?|] ?]. Qed.

Lemma run_during_LoadC {A} (k : gmap string (option string) → prog A) reloads c :
  run_during (LoadC k) reloads 0 c
  = run_during (k (loaded reloads c)) (tail reloads) 0 (loaded reloads c).
Proof. by destruct reloads as [|[?|] ?]. Qed.

Lemma loaded_twice reloads c :
  loaded (tail reloads) (loaded reloads c) ∈ documents c reloads.
Proof.
  unfold documents. destruct reloads as [|[d|] [|[d'|] ?]]; simpl; set_solver.
Qed.

(** A check of the key and a dereference on two loads without the lock. *)
Lemma two_loads_race {A} (absent : error) (k : string → prog A) key :
  (∀ raw, ∃ o, k raw = Done o) →
  atomicOrNil (LoadC (λ c1, if negb (has_key c1 key) then Done (Fail absent)
                            else LoadC (λ c2, deref (index c2 key) k))).
Proof.
  intros Hk reloads c. rewrite run_during_LoadC. cbv beta.
  destruct (has_key (loaded reloads c) key) eqn:H1; cbn [negb].
  - rewrite run_during_LoadC. cbv beta. unfold index.
    destruct (loaded (tail reloads) (loaded reloads c) !! key) as [[raw|]|] eqn:H2;
      cbn [default deref id].
    + left. eexists. split; [apply loaded_twice|].
      assert (Hh : has_key (loaded (tail reloads) (loaded reloads c)) key = true)
        by (apply has_key_true; by rewrite H2).
      cbn [run]. rewrite Hh. cbn [negb run]. unfold index. rewrite H2. cbn [default deref].
      change (deref (id (Some raw)) k) with (k raw).
      destruct (Hk raw) as [o ->]. by rewrite run_during_Done.
    + right. by rewrite run_during_Done.
    + right. by rewrite run_during_Done.
  - left. eexists. split; [apply loaded_documents|].
    cbn [run]. rewrite H1. cbn [negb run]. by rewrite run_during_Done.
Qed.

(** X8.  [Section] and [UnmarshalSection] read [c.c] twice without the
    lock.  Run while the listener stores new documents at any moments, each
    of them returns what it returns alone on one of the documents, or else
    panics on a nil pointer: the panic is the only result of the race that
    no single document explains. *)
Theorem Section_race `{Decoder} (key : string) :
  atomicOrNil (Json.Section key) ∧
  (∀ A (unmarshal : string → result A), atomicOrNil (Json.UnmarshalSection unmarshal key)).
Proof.
  split; [|intros A unmarshal].
  - apply (two_loads_race (Json.sectionNotPresent key)
             (λ raw, match unmarshal_map raw with
                     | inl err => fail err
                     | inr m => mret (Json.configOf m)
                     end)).
    intros raw. destruct (unmarshal_map raw); eauto.
  - apply (two_loads_race (Json.sectionNotPresent key)
             (λ raw, match unmarshal raw with
                     | inl err => fail err
                     | inr v => mret v
                     end)).
    intros raw. destruct (unmarshal raw); eauto.
Qed.

(** ** The listener over any sequence of ticks *)

Section ListenerInvariants.
Context `{Decoder}.
Import Json.

Lemma step_events t l :
  (2 * notifications (step t l) + phase (step t l)
   ≤ 2 * notifications l + phase l + (if fromEvents t then 1 else 0))%nat ∧
  (notifications (step t l) ≤ notifications l + (if isTaken t then 1 else 0))%nat.
Proof.
  unfold step, phase.
  destruct (at_pc l) eqn:Hpc; destruct t as [op read| | | |];
    rewrite ?notifications_goto; simpl; rewrite ?Hpc; try lia.
  destruct (Z.land op Write =? Write); [|rewrite notifications_goto; simpl; lia].
  destruct read as [err|data]; [rewrite notifications_goto; simpl; lia|].
  destruct (unmarshal_map data) as [err|newData];
    [rewrite notifications_goto; simpl; lia|].
  rewrite notifications_mk, no_Notify_in_swap. simpl. unfold notifications. lia.
Qed.

Lemma eventsOffered_cons t ts :
  eventsOffered (t :: ts) = ((if fromEvents t then 1 else 0) + eventsOffered ts)%nat.
Proof.
  unfold eventsOffered. destruct (fromEvents t) eqn:E.
  - by rewrite filter_cons_True.
  - rewrite filter_cons_False; [done|]. by rewrite E.
Qed.

Lemma taken_cons t ts :
  taken (t :: ts) = ((if isTaken t then 1 else 0) + taken ts)%nat.
Proof.
  unfold taken. destruct (isTaken t) eqn:E.
  - by rewrite filter_cons_True.
  - rewrite filter_cons_False; [done|]. by rewrite E.
Qed.

Lemma steps_events ts : ∀ l,
  (2 * notifications (steps ts l) + phase (steps ts l)
   ≤ 2 * notifications l + phase l + eventsOffered ts)%nat ∧
  (notifications (steps ts l) ≤ notifications l + taken ts)%nat.
Proof.
  induction ts as [|t ts IH]; intros l.
  - unfold eventsOffered, taken. simpl. lia.
  - rewrite steps_cons, eventsOffered_cons, taken_cons.
    destruct (IH (step t l)) as [IH1 IH2].
    destruct (step_events t l) as [H1 H2]. lia.
Qed.

(** X9.  Every notification costs the listener two items of the event
    stream, the event of the cycle and the one it receives before the send:
    over any ticks, twice the notifications sent, plus the receives of the
    cycle under way, never exceed the items that [watcher.Events] offered.
    No notification is sent that the receiver of [watchC] did not take. *)
Theorem notifications_bounded (ts : list tick) (l : Listener) (h : Config) :
  (2 * notifications (steps ts l) + phase (steps ts l)
   ≤ 2 * notifications l + phase l + eventsOffered ts)%nat ∧
  (notifications (steps ts l) ≤ notifications l + taken ts)%nat ∧
  (2 * notifications (steps ts (listen h)) ≤ eventsOffered ts)%nat ∧
  (notifications (steps ts (listen h)) ≤ taken ts)%nat.
Proof.
  destruct (steps_events ts l) as [H1 H2].
  destruct (steps_events ts (listen h)) as [H3 H4].
  change (notifications (listen h)) with 0%nat in *.
  change (phase (listen h)) with 0%nat in *. lia.
Qed.

Lemma step_cases t l :
  (step t l = l) ∨
  (∃ p, step t l = goto l p []) ∨
  (∃ msg err, step t l = goto l AtSelect [Log msg err]) ∨
  (step t l = goto l AtSelect [Notify]) ∨
  (∃ op data newData, t = Event op (inr data) ∧ isWrite op = true ∧
     unmarshal_map data = inr newData ∧ at_pc l = AtSelect ∧
     step t l = mkListener newData AtDrain (effects l ++ [Lock; Store newData; Unlock])).
Proof.
  unfold step, isWrite.
  destruct (at_pc l) eqn:Hpc; destruct t as [op read| | | |]; eauto 10.
  destruct (Z.land op Write =? Write) eqn:Hw; [|eauto 10].
  destruct read as [err|data]; [eauto 10|].
  destruct (unmarshal_map data) as [err|newData] eqn:Hu; [eauto 10|].
  right. right. right. right. exists op, data, newData. by rewrite Hw.
Qed.

Lemma stores_app_swap l d p :
  stores (mkListener d p (effects l ++ [Lock; Store d; Unlock])) = (stores l ++ [d])%list.
Proof. unfold stores. simpl. by rewrite omap_app. Qed.

Lemma critical_goto l p es :
  critical (goto l p es) = (critical l ++ filter (λ e, isCritical e = true) es)%list.
Proof. unfold critical, goto. simpl. by rewrite filter_app. Qed.

Lemma no_Store_nil d : Store d ∉ [].
Proof. intros Hd. inversion Hd. Qed.

Lemma no_Store_Log msg err d : Store d ∉ [Log msg err].
Proof. intros Hd. apply list_elem_of_singleton in Hd. discriminate. Qed.

Lemma no_Store_Notify d : Store d ∉ [Notify].
Proof. intros Hd. apply list_elem_of_singleton in Hd. discriminate. Qed.

Lemma step_document t l :
  (doc (step t l) = doc l ∧ stores (step t l) = stores l ∧
   critical (step t l) = critical l) ∨
  (∃ op data, t = Event op (inr data) ∧ isWrite op = true ∧ at_pc l = AtSelect ∧
     unmarshal_map data = inr (doc (step t l)) ∧
     stores (step t l) = (stores l ++ [doc (step t l)])%list ∧
     critical (step t l) = (critical l ++ swap (doc (step t l)))%list).
Proof.
  destruct (step_cases t l) as [->|[(p & ->)|[(msg & err & ->)|[->|
    (op & data & newData & -> & Hw & Hu & Hpc & ->)]]]].
  - by left.
  - left. split; [done|]. split; [apply stores_goto, no_Store_nil|].
    rewrite critical_goto. simpl. by rewrite app_nil_r.
  - left. split; [done|]. split; [apply stores_goto; intros d; apply no_Store_Log|].
    rewrite critical_goto. simpl. by rewrite app_nil_r.
  - left. split; [done|]. split; [apply stores_goto, no_Store_Notify|].
    rewrite critical_goto. simpl. by rewrite app_nil_r.
  - right. exists op, data. simpl. repeat split; try done.
    + apply stores_app_swap.
    + unfold critical. simpl. by rewrite filter_app.
Qed.

Lemma steps_document ts : ∀ l d0 seen,
  doc l = default d0 (last (stores l)) →
  critical l = flat_map swap (stores l) →
  (∀ newData, In newData (stores l) → delivered seen newData) →
  doc (steps ts l) = default d0 (last (stores (steps ts l))) ∧
  critical (steps ts l) = flat_map swap (stores (steps ts l)) ∧
  ∀ newData, In newData (stores (steps ts l)) → delivered (seen ++ ts) newData.
Proof.
  induction ts as [|t ts IH]; intros l d0 seen Hd Hc Hs.
  - rewrite app_nil_r. done.
  - rewrite steps_cons.
    replace (seen ++ t :: ts)%list with ((seen ++ [t]) ++ ts)%list
      by (by rewrite <- app_assoc).
    apply IH.
    + destruct (step_document t l) as [(-> & -> & _)|(op & data & _ & _ & _ & _ & -> & _)];
        [done|]. by rewrite last_snoc.
    + destruct (step_document t l) as [(_ & -> & ->)|(op & data & _ & _ & _ & _ & -> & ->)];
        [done|]. by rewrite flat_map_app, Hc.
    + intros newData Hin.
      destruct (step_document t l) as [(_ & Hst & _)|(op & data & -> & Hw & _ & Hu & Hst & _)];
        rewrite Hst in Hin.
      * destruct (Hs newData Hin) as (op & data & Hin' & Hw & Hu).
        exists op, data. split; [|done]. apply in_or_app. by left.
      * apply in_app_or in Hin as [Hin|[<-|[]]].
        -- destruct (Hs newData Hin) as (op' & data' & Hin' & Hw' & Hu').
           exists op', data'. split; [|done]. apply in_or_app. by left.
        -- exists op, data. split; [|done]. apply in_or_app. right. by left.
Qed.

Lemma listen_document ts h :
  doc (steps ts (listen h)) = default (c h) (last (stores (steps ts (listen h)))) ∧
  critical (steps ts (listen h)) = flat_map swap (stores (steps ts (listen h))) ∧
  ∀ newData, In newData (stores (steps ts (listen h))) → delivered ts newData.
Proof. apply (steps_document ts (listen h) (c h) []); done. Qed.

(** X10.  After any ticks the document of the listener is the last one it
    stored, or the document of the handle at [Watch] if it stored none; and
    every document it stored is what [json.Unmarshal] made of the file
    contents read for one of the write events among the ticks. *)
Theorem document_is_last_store (ts : list tick) (h : Config) :
  doc (steps ts (listen h)) = default (c h) (last (stores (steps ts (listen h)))) ∧
  ∀ newData, In newData (stores (steps ts (listen h))) → delivered ts newData.
Proof.
  destruct (listen_document ts h) as (Hd & _ & Hs). by split.
Qed.

(** X11.  What the listener does to the lock and the document is, over any
    ticks, a sequence of whole critical sections [Lock; Store d; Unlock],
    one for each document it stored and in that order: it never stores
    outside the write lock and never leaves the lock taken. *)
Theorem critical_sections (ts : list tick) (h : Config) :
  critical (steps ts (listen h)) = flat_map swap (stores (steps ts (listen h))).
Proof. apply (listen_document ts h). Qed.

Lemma length_stores_step t l :
  (length (stores (step t l)) + credit (step t l)
   ≤ length (stores l) + credit l + (if isTaken t then 1 else 0))%nat.
Proof.
  assert (Hg : ∀ p es, (∀ d, Store d ∉ es) →
            (length (stores (goto l p es)) + credit (goto l p es)
             ≤ length (stores l) + (match p with AtSelect => 1 | _ => 0 end))%nat).
  { intros p es Hes. rewrite stores_goto by done. unfold credit. simpl. lia. }
  pose proof no_Store_nil as Hnil.
  pose proof no_Store_Log as Hlog.
  pose proof no_Store_Notify as Hnot.
  unfold step.
  destruct (at_pc l) eqn:Hpc; destruct t as [op read| | | |];
    try (unfold credit; rewrite Hpc; simpl; lia);
    try (etransitivity; [apply Hg; auto|]; unfold credit; rewrite Hpc; simpl; lia).
  destruct (Z.land op Write =? Write);
    [|etransitivity; [apply Hg; auto|]; unfold credit; rewrite Hpc; simpl; lia].
  destruct read as [err|data];
    [etransitivity; [apply Hg; auto|]; unfold credit; rewrite Hpc; simpl; lia|].
  destruct (unmarshal_map data) as [err|newData];
    [etransitivity; [apply Hg; auto|]; unfold credit; rewrite Hpc; simpl; lia|].
  rewrite stores_app_swap, length_app. unfold credit. simpl. rewrite Hpc. lia.
Qed.

Lemma length_stores_steps ts : ∀ l,
  (length (stores (steps ts l)) + credit (steps ts l)
   ≤ length (stores l) + credit l + taken ts)%nat.
Proof.
  induction ts as [|t ts IH]; intros l.
  - unfold taken. simpl. lia.
  - rewrite steps_cons, taken_cons.
    pose proof (IH (step t l)). pose proof (length_stores_step t l). lia.
Qed.

(** X13.  The listener reloads only as fast as its notifications are
    taken: after a cycle it waits in the send on [watchC], so over any ticks
    it stores at most one document more than the receiver took values.  If
    nobody receives from the channel, at most one reload ever takes
    effect. *)
Theorem reloads_need_receiver (ts : list tick) (l : Listener) (h : Config) :
  (length (stores (steps ts l)) + credit (steps ts l)
   ≤ length (stores l) + credit l + taken ts)%nat ∧
  (length (stores (steps ts (listen h))) ≤ S (taken ts))%nat ∧
  (taken ts = 0%nat → (length (stores (steps ts (listen h))) ≤ 1)%nat).
Proof.
  pose proof (length_stores_steps ts l) as H1.
  pose proof (length_stores_steps ts (listen h)) as H2.
  change (stores (listen h)) with (@nil (gmap string (option string))) in H2.
  change (credit (listen h)) with 1%nat in H2. simpl in H2.
  split; [exact H1|]. split; [lia|]. intros Ht. lia.
Qed.

Lemma steps_Exited ts : ∀ l, at_pc l = Exited → steps ts l = l.
Proof.
  induction ts as [|t ts IH]; intros l Hx; [done|].
  rewrite steps_cons.
  assert (Hs : step t l = l) by (unfold step; rewrite Hx; by destruct t).
  rewrite Hs. by apply IH.
Qed.

(** X14.  Once the listener has ended, no tick changes anything.  It ends,
    with nothing stored, logged or sent, when it finds [watcher.Events]
    closed while it waits in the [select].  Found closed in the receive that
    follows an event, the stream only completes that receive: the listener
    goes on to send the notification. *)
Theorem listener_stops (ts : list tick) (l : Listener) :
  (at_pc l = Exited → steps ts l = l) ∧
  (at_pc l = AtSelect →
     at_pc (steps (EventsClosed :: ts) l) = Exited ∧
     doc (steps (EventsClosed :: ts) l) = doc l ∧
     effects (steps (EventsClosed :: ts) l) = effects l) ∧
  (at_pc l = AtDrain →
     at_pc (steps [EventsClosed; Taken] l) = AtSelect ∧
     effects (steps [EventsClosed; Taken] l) = (effects l ++ [Notify])%list).
Proof.
  split; [apply steps_Exited|]. split; intros Hpc.
  - rewrite steps_cons.
    assert (Hs : step EventsClosed l = goto l Exited [])
      by (unfold step; by rewrite Hpc).
    rewrite Hs. rewrite (steps_Exited ts (goto l Exited [])); [|reflexivity].
    simpl. by rewrite app_nil_r.
  - assert (Hs : step EventsClosed l = goto l AtSend [])
      by (unfold step; by rewrite Hpc).
    unfold steps. simpl. rewrite Hs. unfold step, goto. simpl.
    by rewrite app_nil_r.
Qed.

End ListenerInvariants.

(** X12.  With [encoding/json] as the decoder, a handle whose raw values
    are JSON values other than [null] keeps such a document through every
    sequence of events, errors and reloads: whatever the file held at the
    failed reloads, the accessors always find well-formed raw values. *)
Theorem reloaded_document_wellformed (ts : list Json.tick) (h : Json.Config) :
  docOk (Json.c h) → docNoNull (Json.c h) →
  docOk (Json.doc (Json.steps ts (Json.listen h))) ∧
  docNoNull (Json.doc (Json.steps ts (Json.listen h))).
Proof.
  intros Hok Hnn.
  destruct (listen_document ts h) as (Hd & _ & Hs). rewrite Hd.
  destruct (last (Json.stores (Json.steps ts (Json.listen h)))) as [d|] eqn:Hl; [|done].
  simpl. apply last_Some in Hl as [l' Hl].
  destruct (Hs d) as (op & data & _ & _ & Hu).
  { rewrite Hl. apply in_or_app. right. by left. }
  change (unmarshal_map data) with (GoJSON.unmarshalMap data) in Hu.
  split; [by apply (unmarshalMap_docOk data)|by apply (unmarshalMap_noNull data)].
Qed.

(** The test document; the file changes to [{"id": 2}], its mode changes,
    and it is then written with an unquoted key. *)
Lemma reloaded_document_wellformed_witness :
  docOk (Json.doc (Json.steps [Json.Event Json.Write (inr (js "{'id': 2}"));
                               Json.Event Chmod (inr personText); Json.Taken;
                               Json.Event Json.Write (inr unquotedKeyText)]
                     (Json.listen testHandle))) ∧
  docNoNull (Json.doc (Json.steps [Json.Event Json.Write (inr (js "{'id': 2}"));
                                   Json.Event Chmod (inr personText); Json.Taken;
                                   Json.Event Json.Write (inr unquotedKeyText)]
                         (Json.listen testHandle))).
Proof.
  apply (reloaded_document_wellformed _ testHandle).
  - apply (unmarshalMap_docOk personText). vm_compute. reflexivity.
  - apply (unmarshalMap_noNull personText). vm_compute. reflexivity.
Defined.

(** ** Stopping the watch, and what the two calls keep *)

Section WatchFacts.
Import Json.

Lemma elem_of_remove x y l : x ∈ remove y l ↔ x ∈ l ∧ x ≠ y.
Proof. unfold remove. rewrite list_elem_of_filter. tauto. Qed.

(** X15.  [StopWatching] on a handle that is being watched, with its
    watcher and its channel, returns what [c.watcher.Close()] returned, and
    also when that is an error it has reset the flag, closed the watcher and
    the channel and set both fields to nil.  Exactly that watcher and that
    channel are closed; the document and the path are as before, and a
    second [StopWatching] fails with [ErrNotBeingWatched].  The call itself
    ends no listener.  A listener that waits in its [select] returns when it
    finds [watcher.Events] closed.  A listener that is past an event does
    not: in the receive [<-watcher.Events] the closing moves it on to the
    send, and in the send it panics with "send on closed channel" when
    [StopWatching] closes the channel; it ends without a panic only if the
    receiver takes the value before that. *)
Theorem StopWatching_closes `{Decoder} (closeErr : option error) (h : Config) (w : World)
    (wid ch : nat) :
  isBeingWatched h = 1 → watcher h = Some wid → watchC h = Some ch →
  ∃ h' w',
    StopWatching closeErr h w = (closeResult closeErr, h', w') ∧
    idle h' ∧ c h' = c h ∧ filePath h' = filePath h ∧
    (∀ x, x ∈ openWatchers w' ↔ x ∈ openWatchers w ∧ x ≠ wid) ∧
    (∀ x, x ∈ openChans w' ↔ x ∈ openChans w ∧ x ≠ ch) ∧
    listeners w' = listeners w ∧
    (∀ e, StopWatching e h' w' = (Fail ErrNotBeingWatched, h', w')) ∧
    ∀ l : Listener,
      stepsStop stopTicks (Live l true) =
        match at_pc l with
        | AtSelect => Live (goto l Exited []) false
        | AtDrain => SendOnClosed (goto l AtSend [])
        | AtSend => SendOnClosed l
        | Exited => Live l false
        end ∧
      (at_pc l = AtSend →
         stepsStop (Tick Taken :: stopTicks) (Live l true)
         = Live (goto (goto l AtSelect [Notify]) Exited []) false).
Proof.
  intros Hb Hw Hc. unfold StopWatching. rewrite Hb. simpl. rewrite Hw, Hc.
  eexists _, _. split; [reflexivity|].
  split; [done|]. split; [done|]. split; [done|]. simpl.
  split; [intros x; apply elem_of_remove|].
  split; [intros x; apply elem_of_remove|].
  split; [done|]. split; [done|].
  intros [d p es]. split.
  - destruct p; reflexivity.
  - simpl. intros ->. reflexivity.
Qed.

Lemma Forall_remove (P : nat → Prop) x l : Forall P l → Forall P (remove x l).
Proof.
  rewrite !Forall_forall. intros Hl y Hy. apply elem_of_remove in Hy as [Hy _]. auto.
Qed.

Lemma Forall_lt_S n l : Forall (λ x, (x < n)%nat) l → Forall (λ x, (x < S n)%nat) l.
Proof. intros Hl. eapply Forall_impl; [exact Hl|]. simpl. lia. Qed.

(** X16.  Whatever they return, [Watch] and [StopWatching] leave the
    document and the path of the handle as they were, keep the flag
    [isBeingWatched] at 0 or 1, and keep every open watcher and channel
    below the next unused identifier; [StopWatching] makes no new
    identifier. *)
Theorem watch_calls_keep (e : option error) (h : Config) (w : World) :
  (c (Watch e h w).1.2 = c h ∧ filePath (Watch e h w).1.2 = filePath h ∧
   c (StopWatching e h w).1.2 = c h ∧ filePath (StopWatching e h w).1.2 = filePath h) ∧
  (flagOk h → flagOk (Watch e h w).1.2 ∧ flagOk (StopWatching e h w).1.2) ∧
  (idsBelow w → idsBelow (Watch e h w).2 ∧ idsBelow (StopWatching e h w).2) ∧
  (nextId w ≤ nextId (Watch e h w).2)%nat ∧
  nextId (StopWatching e h w).2 = nextId w.
Proof.
  unfold Watch, StopWatching, flagOk, idsBelow.
  destruct (isBeingWatched h =? 0) eqn:H0; destruct (isBeingWatched h =? 1) eqn:H1;
    destruct e as [err|]; destruct (watcher h) as [wid|] eqn:Hw;
    destruct (watchC h) as [ch|] eqn:Hc; simpl; rewrite ?Hw, ?Hc; simpl;
    (split; [done|]); (split; [intros ?; split; auto|]);
    (split; [|split; [lia|done]]); intros [Ha Hb];
    repeat split; simpl; repeat constructor;
    auto using Forall_remove, Forall_lt_S; try lia;
    try (apply Forall_lt_S; auto using Forall_remove, Forall_lt_S);
    try (apply Forall_lt_S, Forall_lt_S; auto using Forall_remove, Forall_lt_S).
Qed.

End WatchFacts.

(** The handle of the test document after [Watch]; the file is written
    once, and [Close] then fails: the listener, in its second receive,
    panics in the send. *)
Lemma StopWatching_closes_witness :
  ∃ h' w',
    Json.StopWatching (Some (OSError "bad file descriptor"))
      (Json.Watch None testHandle emptyWorld).1.2 (Json.Watch None testHandle emptyWorld).2
      = (Fail (OSError "bad file descriptor"), h', w') ∧
    Json.idle h' ∧ Json.openWatchers w' = [] ∧ Json.openChans w' = [] ∧
    Json.listeners w' = [(1%nat, 0%nat)] ∧
    Json.stepsStop Json.stopTicks
      (Json.Live (Json.step (Json.Event Json.Write (inr (js "{'id': 2}")))
                    (Json.listen testHandle)) true)
    = Json.SendOnClosed
        (Json.goto (Json.step (Json.Event Json.Write (inr (js "{'id': 2}")))
                      (Json.listen testHandle)) Json.AtSend []).
Proof.
  destruct (@StopWatching_closes go_decoder (Some (OSError "bad file descriptor"))
              (Json.Watch None testHandle emptyWorld).1.2
              (Json.Watch None testHandle emptyWorld).2 1%nat 0%nat
              eq_refl eq_refl eq_refl)
    as (h' & w' & Hs & Hi & _ & _ & _ & _ & _ & _ & Hl).
  exists h', w'. split; [exact Hs|]. split; [exact Hi|].
  split; [|split; [|split]].
  1-3: vm_compute in Hs; injection Hs as _ <-; reflexivity.
  exact (proj1 (Hl (Json.step (Json.Event Json.Write (inr (js "{'id': 2}")))
                      (Json.listen testHandle)))).
Defined.

(** ** The three texts of the package *)

Section Revisions.
Context `{Decoder}.

Lemma V1_run_getValue {A} (unmarshal : string → result A) key c :
  run (JsonV1.getValue unmarshal key) c =
  lookup_outcome c key (Panic NilDereference) (λ raw, decoded (unmarshal raw)).
Proof.
  unfold JsonV1.getValue, lookup_outcome, index. simpl.
  destruct (c !! key) as [[raw|]|]; simpl; try done.
  destruct (unmarshal raw); done.
Qed.

Lemma V1_run_Section key c :
  run (JsonV1.Section key) c =
  lookup_outcome c key (Fail (Json.sectionNotPresent key))
    (λ raw, decoded (JsonV1.new raw)).
Proof.
  unfold JsonV1.Section, lookup_outcome, index, JsonV1.new. simpl.
  destruct (has_key c key) eqn:Hk; simpl.
  - apply has_key_true in Hk as [p Hp]. rewrite Hp. simpl.
    destruct p as [raw|]; simpl; [|done].
    destruct (unmarshal_map raw); done.
  - apply has_key_false in Hk. by rewrite Hk.
Qed.

Lemma V1_run_SectionAsJSON key c :
  run (JsonV1.SectionAsJSON key) c =
  lookup_outcome c key (Fail (Json.sectionNotPresent key)) (λ raw, Ret raw).
Proof.
  unfold JsonV1.SectionAsJSON, lookup_outcome, index. simpl.
  destruct (has_key c key) eqn:Hk; simpl.
  - apply has_key_true in Hk as [p Hp]. rewrite Hp. simpl. by destruct p.
  - apply has_key_false in Hk. by rewrite Hk.
Qed.

Lemma V1_getValue_present {A} (unmarshal : string → result A) key c :
  c !! key ≠ None →
  run (JsonV1.getValue unmarshal key) c = run (Json.getValue unmarshal key) c.
Proof.
  intros Hk. rewrite V1_run_getValue, Json_run_getValue. unfold lookup_outcome.
  by destruct (c !! key) as [[raw|]|].
Qed.

(** X17.  On one document the three texts of the package differ only where
    the key is absent.  [Section] and [SectionAsJSON] of the earlier text of
    [json/json.go] end as those of the current text do, on every key.  The
    getters of the earlier text are those of [config/json/json.go]; on a key
    that is present they, and [Section] of [config/json/json.go], end as the
    current ones do; on an absent key they panic on a nil pointer where the
    current ones return the error that names the key. *)
Theorem revisions_agree {A} (unmarshal : string → result A) (key : string)
    (c : gmap string (option string)) :
  sameSection JsonV1.c Json.c (run (JsonV1.Section key) c) (run (Json.Section key) c) ∧
  run (JsonV1.SectionAsJSON key) c = run (Json.SectionAsJSON key) c ∧
  run (JsonV1.getValue unmarshal key) c = run (LegacyJson.getValue unmarshal key) c ∧
  (c !! key ≠ None →
     run (JsonV1.getValue unmarshal key) c = run (Json.getValue unmarshal key) c ∧
     sameSection LegacyJson.c Json.c
       (run (LegacyJson.Section key) c) (run (Json.Section key) c)) ∧
  (c !! key = None →
     run (JsonV1.getValue unmarshal key) c = Panic NilDereference ∧
     run (Json.getValue unmarshal key) c = Fail (Json.keyNotFound key) ∧
     run (LegacyJson.Section key) c = Panic NilDereference ∧
     run (Json.Section key) c = Fail (Json.sectionNotPresent key)).
Proof.
  rewrite V1_run_Section, V1_run_SectionAsJSON, V1_run_getValue, Legacy_run_getValue,
    Legacy_run_Section, Json_run_Section, Json_run_SectionAsJSON, Json_run_getValue.
  unfold lookup_outcome, JsonV1.new, LegacyJson.new, Json.newConf.
  destruct (c !! key) as [[raw|]|]; repeat split; try done;
    by destruct (unmarshal_map raw).
Qed.

Lemma V1_run_parse {B} (f : string → result B) key c :
  c !! key ≠ None →
  run (JsonV1.getString key ≫= λ s,
         match f s with inl err => fail err | inr v => mret v end) c =
  run (Json.getString key ≫= λ s,
         match f s with inl err => fail err | inr v => mret v end) c.
Proof.
  intros Hk. rewrite !run_bind. unfold JsonV1.getString, Json.getString.
  by rewrite V1_getValue_present.
Qed.

Lemma V1_run_parse_absent {B} (f : string → result B) key c :
  c !! key = None →
  run (JsonV1.getString key ≫= λ s,
         match f s with inl err => fail err | inr v => mret v end) c
  = Panic NilDereference.
Proof.
  intros Hk. rewrite !run_bind. unfold JsonV1.getString.
  rewrite V1_run_getValue. unfold lookup_outcome. by rewrite Hk.
Qed.

(** X18.  In the earlier text of [json/json.go] every [Get] and every
    [MustGet] panics on a nil pointer when the key is absent, whatever the
    default; on a key that is present each of them ends as the accessor of
    the current text does. *)
Theorem V1_accessors (key : string) (c : gmap string (option string)) :
  (c !! key = None →
     (∀ d, run (JsonV1.GetString key d) c = Panic NilDereference) ∧
     (∀ d, run (JsonV1.GetInt key d) c = Panic NilDereference) ∧
     (∀ d, run (JsonV1.GetBool key d) c = Panic NilDereference) ∧
     (∀ d, run (JsonV1.GetStringSlice key d) c = Panic NilDereference) ∧
     (∀ d, run (JsonV1.GetTime key d) c = Panic NilDereference) ∧
     (∀ d, run (JsonV1.GetDuration key d) c = Panic NilDereference) ∧
     run (JsonV1.MustGetString key) c = Panic NilDereference ∧
     run (JsonV1.MustGetInt key) c = Panic NilDereference ∧
     run (JsonV1.MustGetBool key) c = Panic NilDereference ∧
     run (JsonV1.MustGetStringSlice key) c = Panic NilDereference ∧
     run (JsonV1.MustGetTime key) c = Panic NilDereference ∧
     run (JsonV1.MustGetDuration key) c = Panic NilDereference) ∧
  (c !! key ≠ None →
     (∀ d, run (JsonV1.GetString key d) c = run (Json.GetString key d) c) ∧
     (∀ d, run (JsonV1.GetInt key d) c = run (Json.GetInt key d) c) ∧
     (∀ d, run (JsonV1.GetBool key d) c = run (Json.GetBool key d) c) ∧
     (∀ d, run (JsonV1.GetStringSlice key d) c = run (Json.GetStringSlice key d) c) ∧
     (∀ d, run (JsonV1.GetTime key d) c = run (Json.GetTime key d) c) ∧
     (∀ d, run (JsonV1.GetDuration key d) c = run (Json.GetDuration key d) c) ∧
     run (JsonV1.MustGetString key) c = run (Json.MustGetString key) c ∧
     run (JsonV1.MustGetInt key) c = run (Json.MustGetInt key) c ∧
     run (JsonV1.MustGetBool key) c = run (Json.MustGetBool key) c ∧
     run (JsonV1.MustGetStringSlice key) c = run (Json.MustGetStringSlice key) c ∧
     run (JsonV1.MustGetTime key) c = run (Json.MustGetTime key) c ∧
     run (JsonV1.MustGetDuration key) c = run (Json.MustGetDuration key) c).
Proof.
  unfold JsonV1.GetString, JsonV1.GetInt, JsonV1.GetBool, JsonV1.GetStringSlice,
    JsonV1.GetTime, JsonV1.GetDuration, JsonV1.MustGetString, JsonV1.MustGetInt,
    JsonV1.MustGetBool, JsonV1.MustGetStringSlice, JsonV1.MustGetTime,
    JsonV1.MustGetDuration, Json.GetString, Json.GetInt, Json.GetBool,
    Json.GetStringSlice, Json.GetTime, Json.GetDuration, Json.MustGetString,
    Json.MustGetInt, Json.MustGetBool, Json.MustGetStringSlice, Json.MustGetTime,
    Json.MustGetDuration, JsonV1.getTime, JsonV1.getDuration, Json.getTime,
    Json.getDuration, on_copy.
  split; intros Hk.
  - repeat split; intros; rewrite ?run_or_default, ?run_or_panic;
      first [ by rewrite V1_run_parse_absent
            | unfold JsonV1.getString, JsonV1.getInt, JsonV1.getBool,
                JsonV1.getStringSlice;
              rewrite V1_run_getValue; unfold lookup_outcome; by rewrite Hk ].
  - repeat split; intros; cbn [run]; rewrite ?run_or_default, ?run_or_panic;
      first [ by rewrite V1_run_parse
            | unfold JsonV1.getString, JsonV1.getInt, JsonV1.getBool,
                JsonV1.getStringSlice, Json.getString, Json.getInt, Json.getBool,
                Json.getStringSlice;
              by rewrite (V1_getValue_present _ key c Hk) ].
Qed.

(** X19.  [Load] fails with the error of [ioutil.ReadFile], or else with
    the error of [New] on the contents of the file; when it succeeds, the
    handle holds the document of [New] on the contents, remembers the path
    and is not watched.  [Load] of the two other texts ends in the same way
    with the same document.  A write event on the loaded handle that reads
    the file again unchanged stores the document that [Load] made. *)
Theorem Load_handle (readFile : string → result string) (path : string) :
  match Json.Load readFile path with
  | inr cfg =>
      ∃ data, readFile path = inr data ∧ unmarshal_map data = inr (Json.c cfg) ∧
              Json.filePath cfg = path ∧ Json.idle cfg ∧
              Json.New data = inr (Json.configOf (Json.c cfg)) ∧
              JsonV1.Load readFile path = inr (JsonV1.mkConfig (Json.c cfg)) ∧
              LegacyJson.Load readFile path = inr (LegacyJson.mkConfig (Json.c cfg)) ∧
              Json.doc (Json.step (Json.Event Json.Write (readFile path)) (Json.listen cfg))
                = Json.c cfg
  | inl err =>
      (readFile path = inl err ∨
       ∃ data, readFile path = inr data ∧ Json.New data = inl err) ∧
      JsonV1.Load readFile path = inl err ∧
      LegacyJson.Load readFile path = inl err
  end.
Proof.
  unfold Json.Load, JsonV1.Load, LegacyJson.Load, Json.New, Json.newConf,
    JsonV1.new, LegacyJson.new, Json.step, Json.listen.
  destruct (readFile path) as [err|data] eqn:Hr; simpl; [auto|].
  destruct (unmarshal_map data) as [err|m] eqn:Hu; simpl.
  - split; [|done]. right. exists data. by rewrite Hu.
  - exists data. rewrite Hu. repeat split.
Qed.

End Revisions.
